(** * FIRC-LLM-Extractor: a shallow embedding of the ingestion pipeline

    The development follows the Python sources:
    - [rules.py]                     -> Modules [Rules], [Shape]
    - [runner.py]                    -> Modules [Runner], [Poll], [Mail],
                                        [Parts], [Tidy]
    - [handler/disposal_handler.py]  -> Modules [Store], [Sheet], [Retry],
                                        [Window], [Tidy]
    - [handler/firc_handler.py]      -> Modules [Store], [Sheet], [Retry],
                                        [Passwords], [Decrypt], [Saved],
                                        [Parts], [Handlers], [Tidy]

    Part I holds the embedding (definitions only), Part II the lemmas.

    Conventions of the embedding.
    - Python [str] is [string]; the text functions are modelled on ASCII
      text (code points below 128), where [str.lower] maps [A-Z] to [a-z]
      and the whitespace class of [\s] / [str.strip] is
      tab, LF, VT, FF, CR, FS, GS, RS, US and space.
    - A Python [dict] with string keys is a [gmap string _]; a [set] is a
      [gset].  [None] is [None].
    - A pandas [DataFrame] is a list of column labels and a list of rows;
      a row maps a label to the string held in that cell, and a label that
      is absent from the row is the missing value [NaN], which is what
      [pd.concat] leaves in the cells a frame does not supply. *)

From Stdlib Require Import ZArith Ascii String Uint63 PrimFloat SpecFloat FloatOps.
From stdpp Require Import gmap strings list fin_maps sorting.

(* 0.6 and 0.35 denote the nearest binary64 values, as in the source. *)
#[local] Set Warnings "-inexact-float".

Local Open Scope string_scope.
Local Open Scope list_scope.
Local Open Scope nat_scope.

(* ===================================================================== *)
(** * Part I: the embedding                                               *)
(* ===================================================================== *)

(** ** Text helpers: [str.lower], [\s], [str.strip], [in], [startswith],
    [endswith] on ASCII text *)
Module Text.

Definition is_upper (c : ascii) : bool :=
  let n := nat_of_ascii c in (65 <=? n) && (n <=? 90).

Definition lower_char (c : ascii) : ascii :=
  if is_upper c then ascii_of_nat (nat_of_ascii c + 32) else c.

(** [s.lower()] *)
Fixpoint lower (s : string) : string :=
  match s with
  | EmptyString => EmptyString
  | String c s' => String (lower_char c) (lower s')
  end.

(** The characters [\s] matches and [strip()] removes. *)
Definition is_space (c : ascii) : bool :=
  let n := nat_of_ascii c in
  ((9 <=? n) && (n <=? 13)) || ((28 <=? n) && (n <=? 32)).

(** [re.sub(r"\s+", " ", s)], scanning left to right; [in_run] tells
    that the character before was whitespace, so that a run yields one
    space. *)
Fixpoint collapse_from (in_run : bool) (s : string) : string :=
  match s with
  | EmptyString => EmptyString
  | String c s' =>
      if is_space c
      then (if in_run then collapse_from true s'
            else String " " (collapse_from true s'))
      else String c (collapse_from false s')
  end.

Definition collapse_spaces (s : string) : string := collapse_from false s.

Fixpoint lstrip (s : string) : string :=
  match s with
  | EmptyString => EmptyString
  | String c s' => if is_space c then lstrip s' else s
  end.

Fixpoint rstrip (s : string) : string :=
  match s with
  | EmptyString => EmptyString
  | String c s' =>
      match rstrip s' with
      | EmptyString => if is_space c then EmptyString else String c EmptyString
      | t => String c t
      end
  end.

(** [s.strip()] *)
Definition strip (s : string) : string := rstrip (lstrip s).

(** [s.lstrip(".")] *)
Fixpoint lstrip_dots (s : string) : string :=
  match s with
  | String "." s' => lstrip_dots s'
  | _ => s
  end.

(** [s.startswith(p)] *)
Fixpoint starts_with (p s : string) : bool :=
  match p, s with
  | EmptyString, _ => true
  | String a p', String b s' => Ascii.eqb a b && starts_with p' s'
  | String _ _, EmptyString => false
  end.

(** [n in h] *)
Fixpoint contains (n h : string) : bool :=
  starts_with n h ||
  match h with
  | EmptyString => false
  | String _ h' => contains n h'
  end.

(** [s.endswith(suf)] *)
Fixpoint ends_with (suf s : string) : bool :=
  String.eqb s suf ||
  match s with
  | EmptyString => false
  | String _ s' => ends_with suf s'
  end.

(** [s[:n]] for [n >= 0] *)
Fixpoint take_str (n : nat) (s : string) : string :=
  match n, s with
  | S n', String c s' => String c (take_str n' s')
  | _, _ => EmptyString
  end.

(** No character of [s] is whitespace. *)
Fixpoint no_space (s : string) : bool :=
  match s with
  | EmptyString => true
  | String c s' => negb (is_space c) && no_space s'
  end.

(** A needle without whitespace, such as [firc] and [.pdf]. *)
Definition solid (n : string) : bool :=
  match n with
  | EmptyString => false
  | _ => no_space n
  end.

(** Two texts that differ only in the case of letters and in what each
    run of whitespace is made of (which whitespace characters, and how
    many, as long as a run stays a run). *)
Inductive same_modulo_noise : string → string → Prop :=
| noise_nil : same_modulo_noise EmptyString EmptyString
| noise_char c c' s t :
    is_space c = false → lower_char c = lower_char c' →
    same_modulo_noise s t →
    same_modulo_noise (String c s) (String c' t)
| noise_space c c' s t :
    is_space c = true → is_space c' = true →
    same_modulo_noise s t →
    same_modulo_noise (String c s) (String c' t)
| noise_longer_l c d s t :
    is_space c = true → is_space d = true →
    same_modulo_noise (String d s) t →
    same_modulo_noise (String c (String d s)) t
| noise_longer_r c d s t :
    is_space c = true → is_space d = true →
    same_modulo_noise s (String d t) →
    same_modulo_noise s (String c (String d t)).

End Text.

(** ** The rule classifier ([rules.py]) *)
Module Rules.
Import Text.

(** An attachment as [list_attachments] builds it:
    [{"id", "filename", "mimeType"}]. *)
Record Attachment := mkAttachment {
  att_id : string;
  filename : string;
  mimeType : string
}.

Record EmailContext := mkEmailContext {
  id : string;
  internal_ts : Z;
  From_ : string;
  ToCcBcc : list string;
  Subject : string;
  Date : string;
  Body : string;
  Attachments : list Attachment
}.

(** A match as [categorize] builds it.  The keys a match may lack are
    optional: [stop_after_match] is read with [m.get(.., True)] and
    [pdf_password] with [match.get("pdf_password")]. *)
Record Match := mkMatch {
  name : string;
  handler_module : string;
  handler_function : string;
  stop_after_match : option bool;
  pdf_password : option string;
  why : list (string * bool)
}.

(** Lowercase + collapse all whitespace to single spaces. *)
Definition _norm_spaces (s : string) : string :=
  strip (collapse_spaces (lower s)).

Definition _contains (hay needle : string) : bool :=
  contains (_norm_spaces needle) (_norm_spaces hay).

Definition _contains_all (hay : string) (needles : list string) : bool :=
  let norm_hay := _norm_spaces hay in
  forallb (λ n, contains (_norm_spaces n) norm_hay) needles.

Definition has_attachment (ctx : EmailContext) : bool :=
  match Attachments ctx with [] => false | _ => true end.

Definition attachment_ext_is (ctx : EmailContext) (exts : list string)
    (require_all : bool) : bool :=
  let files := (λ a, lower (filename a)) <$> Attachments ctx in
  let exts := (λ e, lstrip_dots (lower e)) <$> exts in
  let has_ext ext := existsb (λ f, ends_with (String "." ext) f) files in
  if require_all then forallb has_ext exts else existsb has_ext exts.

(** Case-insensitive substring check on attachment filenames. *)
Definition attachment_name_contains (ctx : EmailContext) (needles : list string)
  : bool :=
  let files := (λ a, lower (filename a)) <$> Attachments ctx in
  let needles := lower <$> needles in
  existsb (λ f, existsb (λ n, contains n f) needles) files.

Definition categorize (ctx : EmailContext) : list Match :=
  let subj := Subject ctx in
  let body := Body ctx in
  (* Category 1: inward_remmittance_intimation *)
  let inward_subject_ok := _contains subj "DISPOSAL REQUIRED FOR FCY INWARD" in
  let inward_body_ok := _contains_all body
    [ "FCYinward.disposal@hdfcbank.com";
      "promoters@canopusinfosystems.com";
      "We are in receipt of following inward remittance.";
      "Kindly provide following disposal instructions";
      "INW_NO" ] in
  let matches1 :=
    if inward_subject_ok && inward_body_ok then
      [ mkMatch "inward_remmittance_intimation" "handlers.disposal_handler" "handle"
          (Some true) None
          [ ("subject_contains", inward_subject_ok);
            ("body_contains_all", inward_body_ok) ] ]
    else [] in
  (* Category 2: HDFC Bank FIRC *)
  let firc_subject_ok :=
    _contains subj "Debit Cum Credit Advice For FCY Inward Remittance" in
  let firc_body_ok := _contains_all body
    [ "Inward.Remittances@hdfcbank.com";
      "promoters@canopusinfosystems.com";
      "Please find the attached Debit Cum Credit advice for Inward";
      "For any queries,Please write to us at firchelpdesk@hdfcbank.com" ] in
  let firc_attach_ok := has_attachment ctx && attachment_ext_is ctx ["pdf"] false in
  let matches2 :=
    if firc_subject_ok && firc_body_ok && firc_attach_ok then
      [ mkMatch "FIRC" "handlers.firc_handler" "handle" (Some true) None
          [ ("subject_contains", firc_subject_ok);
            ("body_contains_all", firc_body_ok);
            ("has_pdf_attachment", firc_attach_ok) ] ]
    else [] in
  (* Category 3: Yes Bank FIRC *)
  let yes_subject_ok :=
    _contains subj "Miscellaneous_Advices - INWARD REMITTANCE - YBL REF NO" in
  let yes_body_ok := _contains_all body
    [ "yestouch@yesbank.in";
      "We attach herewith the transaction advice for trade transaction reference" ] in
  let yes_attach_ok :=
    has_attachment ctx && attachment_ext_is ctx ["pdf"] false
    && attachment_name_contains ctx ["firc"] in
  let matches3 :=
    if yes_subject_ok && yes_body_ok && yes_attach_ok then
      [ mkMatch "FIRC" "handlers.firc_handler" "handle" (Some true) (Some "21893044")
          [ ("subject_contains", yes_subject_ok);
            ("body_contains_all", yes_body_ok);
            ("has_pdf_attachment", yes_attach_ok) ] ]
    else [] in
  matches1 ++ matches2 ++ matches3.

(** Two attachment lists whose file names differ only in letter case and
    whitespace runs. *)
Definition same_attachments_modulo_noise (l l' : list Attachment) : Prop :=
  Forall2 (λ a b, same_modulo_noise (filename a) (filename b)) l l'.

(** Two emails whose subject, body and attachment names differ only in
    letter case and whitespace runs. *)
Definition same_email_modulo_noise (ctx ctx' : EmailContext) : Prop :=
  same_modulo_noise (Subject ctx) (Subject ctx') ∧
  same_modulo_noise (Body ctx) (Body ctx') ∧
  same_attachments_modulo_noise (Attachments ctx) (Attachments ctx').

(** The attachment-name test as it would be with both sides normalised
    like the subject and body tests. *)
Definition normalised_name_contains (ctx : EmailContext) (needles : list string)
  : bool :=
  existsb (λ a, existsb (λ n, contains (_norm_spaces n) (_norm_spaces (filename a)))
                  needles)
    (Attachments ctx).

(** Sample emails. *)
Definition yes_bank_email (fname : string) : EmailContext :=
  mkEmailContext "m1" 1700000000000%Z "YES BANK <yestouch@yesbank.in>" []
    "Miscellaneous_Advices - INWARD REMITTANCE - YBL REF NO 123"
    "Mon, 1 Jan 2024"
    "Mail from yestouch@yesbank.in. We attach herewith the transaction advice for trade transaction reference 123"
    [ mkAttachment "a1" fname "application/pdf" ].

Definition disposal_email (subject : string) : EmailContext :=
  mkEmailContext "m2" 1700000000001%Z "FCYinward.disposal@hdfcbank.com" []
    subject
    "Mon, 1 Jan 2024"
    "From: FCYinward.disposal@hdfcbank.com To: promoters@canopusinfosystems.com We are in receipt of following inward remittance. Kindly provide following disposal instructions INW_NO 42"
    [].

(** The same subject as a mail client may wrap it, and as the bank
    sends it. *)
Definition wrapped_subject : string :=
  String.append "Fwd: disposal   required"
    (String (ascii_of_nat 10) "for fcy  Inward 77").

Definition plain_subject : string := "Fwd: DISPOSAL REQUIRED FOR FCY INWARD 77".

End Rules.

(** ** A small state-and-exception monad for the effectful code *)
Module Eff.

(** A computation over a state [S] returns a value or raises an
    exception (given by its [str]), and leaves a state either way. *)
Definition M (S A : Type) : Type := S → (A + string) * S.

Definition ret {S A} (a : A) : M S A := λ s, (inl a, s).

Definition raise {S A} (e : string) : M S A := λ s, (inr e, s).

Definition bind {S A B} (m : M S A) (k : A → M S B) : M S B :=
  λ s, match m s with
       | (inl a, s') => k a s'
       | (inr e, s') => (inr e, s')
       end.

(** [try: body  except Exception as e: handler(e)] *)
Definition try_except {S A} (body : M S A) (handler : string → M S A) : M S A :=
  λ s, match body s with
       | (inl a, s') => (inl a, s')
       | (inr e, s') => handler e s'
       end.

Definition modify {S} (f : S → S) : M S unit := λ s, (inl tt, f s).

Definition gets {S A} (f : S → A) : M S A := λ s, (inl (f s), s).

(** [for x in l: body(x)], without [break]. *)
Fixpoint for_each {S A} (l : list A) (body : A → M S unit) : M S unit :=
  match l with
  | [] => ret tt
  | x :: l' => bind (body x) (λ _, for_each l' body)
  end.

End Eff.

Notation "'let!' x ':=' m 'in' k" := (Eff.bind m (λ x, k))
  (at level 10, x name, m at level 100, k at level 200,
   format "'[v' 'let!'  x  ':='  m  'in' '/' k ']'").
Notation "m ';;' k" := (Eff.bind m (λ _, k))
  (at level 100, k at level 200, right associativity,
   format "'[v' m  ';;' '/' k ']'").

(** ** The watermark poller and the dispatcher ([runner.py]) *)
Module Runner.
Import Eff.

(** A Gmail message as the runner reads it.  The decoding plumbing
    ([header_value], [get_body_text], [get_recipients],
    [list_attachments]) is represented by its results; [internalDate]
    is the parsed [int(..)], absent when the message has no such key. *)
Record Msg := mkMsg {
  msg_id : string;
  internalDate : option Z;
  hdr_From : string;
  hdr_Subject : string;
  hdr_Date : string;
  body_text : string;
  recipients : list string;
  attachments : list Rules.Attachment
}.

(** [int(m.get("internalDate",0))] *)
Definition its_of (m : Msg) : Z := default 0%Z (internalDate m).

(** A page of [messages().list(..)]: the message stubs (their ids) and,
    when the page has a [nextPageToken], the page that token leads to. *)
Inductive Resp :=
| LastPage (messages : list string)
| Page (messages : list string) (nextPage : Resp).

Record Gmail := mkGmail {
  list_messages : Z → Resp;      (* q = 'in:inbox after:<seconds>' *)
  get_message : string → Msg     (* messages().get(id=.., format="full") *)
}.

(** The [while True] loop of [list_new_messages]: it stops at an empty
    page or at a page without a token. *)
Fixpoint fetch_pages (get : string → Msg) (resp : Resp) : list Msg :=
  match resp with
  | LastPage ids => get <$> ids
  | Page ids resp' =>
      match ids with
      | [] => []
      | _ => (get <$> ids) ++ fetch_pages get resp'
      end
  end.

(** [fresh.sort(key=...)]: a stable sort by the key, as Python's is. *)
Fixpoint insert_by_ts (m : Msg) (l : list Msg) : list Msg :=
  match l with
  | [] => [m]
  | x :: l' => if (its_of m <=? its_of x)%Z then m :: l
               else x :: insert_by_ts m l'
  end.

Definition sort_by_ts (l : list Msg) : list Msg := foldr insert_by_ts [] l.

(** Ascending order of the sort key. *)
Definition ts_le (a b : Msg) : Prop := (its_of a ≤ its_of b)%Z.

Definition list_new_messages (gmail : Gmail) (last_ts_ms : Z) : list Msg :=
  let after_seconds := Z.max 0 (last_ts_ms / 1000) in
  let msgs := fetch_pages (get_message gmail) (list_messages gmail after_seconds) in
  (* Strictly after guard (ms precision) *)
  let fresh := filter (λ m, (its_of m > last_ts_ms)%Z) msgs in
  sort_by_ts fresh.

(** What the runner logs, and the point where a handler is entered. *)
Inductive Event :=
| NewMessage (mid : string) (its : Z)
| NoRuleMatched
| Matched (name handler_module handler_function : string)
| Invoked (handler_module handler_function mid : string)
| HandlerError (handler_module handler_function err : string)
| StopAfterMatch
| CategorizeError (err : string).

(** The [ctx] dictionary handed to a handler, without the Gmail client. *)
Record HandlerCtx := mkHandlerCtx {
  meta_id : string;
  meta_internalDate : Z;
  meta_From : string;
  meta_Subject : string;
  meta_Date : string;
  ctx_match : Rules.Match
}.

Section Dispatch.
(** Everything the handlers act on (the sheet, the archive, the
    extraction service). *)
Variable World : Type.

(** [importlib.import_module(handler_module)], [getattr] and the call
    [fn(msg, ctx)]: it returns, or raises an [Exception]. *)
Variable invoke : string → string → Msg → HandlerCtx → World → (unit + string) * World.

Record RunState := mkRunState {
  world : World;
  last_ts : Z;
  processed : gset string;
  log : list Event;
  (* the [state] dictionary and the file [save_state] writes *)
  state_last_internal_ts : Z;
  state_processed_ids : list string;
  state_file : option (Z * list string)
}.

Definition emit (e : Event) : M RunState unit :=
  modify (λ st, mkRunState (world st) (last_ts st) (processed st) (log st ++ [e])
                  (state_last_internal_ts st) (state_processed_ids st) (state_file st)).

Definition run_handler (handler_module handler_function : string)
    (msg : Msg) (ctx : HandlerCtx) : M RunState unit :=
  λ st, let '(r, w) := invoke handler_module handler_function msg ctx (world st) in
        (r, mkRunState w (last_ts st) (processed st) (log st)
              (state_last_internal_ts st) (state_processed_ids st) (state_file st)).

Definition call_handler (handler_module handler_function : string)
    (msg : Msg) (ctx : HandlerCtx) : M RunState unit :=
  try_except
    (emit (Invoked handler_module handler_function (msg_id msg));;
     run_handler handler_module handler_function msg ctx)
    (λ e, emit (HandlerError handler_module handler_function e)).

(** [for m in matches: ...; if m.get("stop_after_match", True): break] *)
Fixpoint dispatch (msg : Msg) (matches : list Rules.Match) : M RunState unit :=
  match matches with
  | [] => ret tt
  | m :: rest =>
      emit (Matched (Rules.name m) (Rules.handler_module m) (Rules.handler_function m));;
      let ctx := mkHandlerCtx (msg_id msg) (its_of msg) (hdr_From msg)
                   (hdr_Subject msg) (hdr_Date msg) m in
      call_handler (Rules.handler_module m) (Rules.handler_function m) msg ctx;;
      if default true (Rules.stop_after_match m)
      then emit StopAfterMatch
      else dispatch msg rest
  end.

Definition email_context (msg : Msg) : Rules.EmailContext :=
  Rules.mkEmailContext (msg_id msg) (its_of msg) (hdr_From msg) (recipients msg)
    (hdr_Subject msg) (hdr_Date msg) (body_text msg) (attachments msg).

Definition mark_processed (mid : string) (its : Z) : M RunState unit :=
  modify (λ st, mkRunState (world st)
                  (if decide (its > last_ts st)%Z then its else last_ts st)
                  ({[mid]} ∪ processed st) (log st)
                  (state_last_internal_ts st) (state_processed_ids st) (state_file st)).

(** The body of [for msg in messages]. *)
Definition process_message (msg : Msg) : M RunState unit :=
  let mid := msg_id msg in
  let its := its_of msg in
  let! seen := gets (λ st, bool_decide (mid ∈ processed st)) in
  if seen then ret tt   (* continue *)
  else
    emit (NewMessage mid its);;
    let email_ctx := email_context msg in
    let! matches :=
      try_except (ret (Rules.categorize email_ctx))
                 (λ e, emit (CategorizeError e);; ret []) in
    match matches with
    | [] => emit NoRuleMatched
    | _ => dispatch msg matches
    end;;
    mark_processed mid its.

(** [save_state]: keep the last 5000 ids, write the file. *)
Definition save_state : M RunState unit :=
  modify (λ st,
    let ids := state_processed_ids st in
    let ids := drop (length ids - 5000) ids in
    mkRunState (world st) (last_ts st) (processed st) (log st)
      (state_last_internal_ts st) ids
      (Some (state_last_internal_ts st, ids))).

Definition persist : M RunState unit :=
  modify (λ st, mkRunState (world st) (last_ts st) (processed st) (log st)
                  (last_ts st) (elements (processed st)) (state_file st));;
  save_state.

(** One round of [while True], inside its [try]. *)
Definition poll_cycle (gmail : Gmail) : M RunState unit :=
  let! ts := gets last_ts in
  let messages := list_new_messages gmail ts in
  for_each messages process_message;;
  match messages with
  | [] => ret tt
  | _ => persist
  end.

(** The time stamps of the messages a stretch of the log reports as
    taken up. *)
Fixpoint handled_ts (l : list Event) : list Z :=
  match l with
  | [] => []
  | NewMessage _ its :: l' => its :: handled_ts l'
  | _ :: l' => handled_ts l'
  end.

(** The handlers a stretch of the log reports as entered. *)
Fixpoint invoked (l : list Event) : list (string * string) :=
  match l with
  | [] => []
  | Invoked hm hf _ :: l' => (hm, hf) :: invoked l'
  | _ :: l' => invoked l'
  end.

End Dispatch.

Arguments world {World}.
Arguments last_ts {World}.
Arguments processed {World}.
Arguments log {World}.
Arguments state_last_internal_ts {World}.
Arguments state_processed_ids {World}.
Arguments state_file {World}.
Arguments mkRunState {World}.
Arguments emit {World}.
Arguments mark_processed {World}.
Arguments save_state {World}.
Arguments persist {World}.

Arguments handled_ts : clear implicits.
Arguments invoked : clear implicits.

(** The greatest of [w] and the time stamps [l]. *)
Definition max_ts (w : Z) (l : list Z) : Z := foldr Z.max w l.

(** The matches whose handler the dispatcher enters: each one up to and
    including the first that asks to stop. *)
Fixpoint dispatched (matches : list Rules.Match) : list Rules.Match :=
  match matches with
  | [] => []
  | m :: rest =>
      m :: if default true (Rules.stop_after_match m) then [] else dispatched rest
  end.

(** The messages of a batch the loop takes up: those whose id is not in
    the processed set when their turn comes. *)
Fixpoint taken_up (seen : gset string) (msgs : list Msg) : list Msg :=
  match msgs with
  | [] => []
  | m :: ms =>
      if decide (msg_id m ∈ seen) then taken_up seen ms
      else m :: taken_up ({[msg_id m]} ∪ seen) ms
  end.

Definition handler_of (m : Rules.Match) : string * string :=
  (Rules.handler_module m, Rules.handler_function m).

(** [st] with another world and log, the run's own variables untouched. *)
Definition with_world_log {World} (st : RunState World) (w : World)
    (l : list Event) : RunState World :=
  mkRunState w (last_ts st) (processed st) l
    (state_last_internal_ts st) (state_processed_ids st) (state_file st).

(** Sample data: a message the intimation rule matches, a handler that
    always raises, and a fresh run state. *)
Definition sample_msg : Msg :=
  mkMsg "m2" (Some 1700000000001%Z) "FCYinward.disposal@hdfcbank.com"
    Rules.plain_subject "Mon, 1 Jan 2024"
    (Rules.Body (Rules.disposal_email Rules.plain_subject)) [] [].

Definition failing_handler : string → string → Msg → HandlerCtx → unit
    → (unit + string) * unit :=
  λ _ _ _ _ w, (inr "KeyError: 'payload'", w).

(** A mail service that answers every query with two pages of three
    messages of the same second, out of order. *)
Definition sample_gmail : Gmail :=
  mkGmail
    (λ _, Page ["a"; "b"] (LastPage ["c"]))
    (λ mid, mkMsg mid
              (Some (if String.eqb mid "a" then 1700000000900
                     else if String.eqb mid "b" then 1700000000100
                     else 1700000000500)%Z)
              "" "" "" "" [] []).

Definition fresh_state : RunState unit :=
  mkRunState tt 1700000000000%Z ∅ [] 1700000000000%Z [] None.

End Runner.

(** ** The tabular store and the merge ([upsert_selected], [upsert_by_inward]) *)
Module Store.

Record DataFrame := mkDF {
  columns : list string;
  rows : list (gmap string string)
}.

(** [pd.DataFrame()] *)
Definition empty_df : DataFrame := mkDF [] [].

(** [str(x)] of a cell, also [astype(str)]: the missing value prints as
    ["nan"]. *)
Definition cell_str (c : option string) : string := default "nan" c.

(** [x or ""] on strings. *)
Definition str_or (s d : string) : string := if decide (s = "") then d else s.

(** [("" if v is None else str(v))]; a payload value is given by its
    [str], and [None] by [None]. *)
Definition py_str (v : option string) : string := default "" v.

(** One round of the loop of [ensure_cols]:
    [if c not in df.columns: df[c] = ""]. *)
Definition add_col (df : DataFrame) (c : string) : DataFrame :=
  if decide (c ∈ columns df) then df
  else mkDF (columns df ++ [c]) ((λ r, <[c:=""]> r) <$> rows df).

Definition ensure_cols (df : DataFrame) (cols : list string) : DataFrame :=
  foldl add_col df cols.

(** [pd.concat([df, pd.DataFrame([row])], ignore_index=True)]: the row is
    appended, labels of the row that the frame lacks become new columns. *)
Definition concat_row (df : DataFrame) (row : gmap string string) : DataFrame :=
  mkDF (columns df ++ filter (λ k, k ∉ columns df) (fst <$> map_to_list row))
       (rows df ++ [row]).

(** [mask = df[pk_col].astype(str) == pk; df[mask].index[0]] *)
Definition find_row (df : DataFrame) (pk_col pk : string)
  : option (nat * gmap string string) :=
  list_find (λ r, cell_str (r !! pk_col) = pk) (rows df).

(** [df.at[idx,k] = v] *)
Definition at_set (df : DataFrame) (idx : nat) (k v : string) : DataFrame :=
  mkDF (if decide (k ∈ columns df) then columns df else columns df ++ [k])
       (alter (λ r, <[k:=v]> r) idx (rows df)).

(** [str(df.at[idx,k]) if k in df.columns else ""] *)
Definition at_get (df : DataFrame) (idx : nat) (k : string) : string :=
  if decide (k ∈ columns df)
  then cell_str (rows df !! idx ≫= λ r, r !! k)
  else "".

(** Body of [for k,v in updates.items(): ...]. *)
Definition write_cell (idx : nat) (k v : string) (df : DataFrame) : DataFrame :=
  let old := at_get df idx k in
  if decide (str_or old "" ≠ str_or v "") then at_set df idx k v else df.

(** The value the merge keys on: [pk = safe_updates.get(pk_col, "")]. *)
Definition key_value (pk_col : string) (updates : gmap string string) : string :=
  default "" (updates !! pk_col).

(** The part the two merges have word for word in common (lines 62-76
    of [disposal_handler.py], 261-273 of [firc_handler.py]), after the
    payload has been sanitised and the columns ensured. *)
Definition upsert_rows (df : DataFrame) (pk_col : string)
    (updates : gmap string string) : DataFrame :=
  let pk := key_value pk_col updates in
  if decide (pk = "") then concat_row df updates
  else match find_row df pk_col pk with
       | Some (idx, _) => map_fold (write_cell idx) df updates
       | None => concat_row df updates
       end.

(** [{k: ("" if v is None else str(v)) for k,v in updates.items()
      if k in allowed_cols}] *)
Definition safe_updates (updates : gmap string (option string))
    (allowed_cols : list string) : gmap string string :=
  py_str <$> filter (λ kv, kv.1 ∈ allowed_cols) updates.

(** [list(set(allowed_cols + [pk_col]))] *)
Definition ensured (allowed_cols : list string) (pk_col : string) : list string :=
  elements (list_to_set (allowed_cols ++ [pk_col]) : gset string).

(** [disposal_handler.upsert_selected] *)
Definition upsert_selected (df : DataFrame) (pk_col : string)
    (updates : gmap string (option string)) (allowed_cols : list string)
  : DataFrame :=
  let safe := safe_updates updates allowed_cols in
  let df := ensure_cols df (ensured allowed_cols pk_col) in
  upsert_rows df pk_col safe.

(** [firc_handler.upsert_by_inward] *)
Definition upsert_by_inward (df : DataFrame)
    (updates : gmap string (option string)) : DataFrame :=
  let updates := py_str <$> updates in
  let df := ensure_cols df ((fst <$> map_to_list updates) ++ ["InwardPK"]) in
  upsert_rows df "InwardPK" updates.

(** [FINANCIAL_CANON] and [ALLOWED_TO_UPDATE] of the disposal handler. *)
Definition FINANCIAL_CANON : list string :=
  [ "RemitterName"; "RemitterReference"; "BeneficiaryName"; "BeneficiaryAccount";
    "InwardReference";
    "CurrencyCode"; "AmountFCY"; "AmountINR"; "ExchangeRate"; "ValueDate"; "CreditDate";
    "RemittingBankName"; "RemittingBankSWIFT"; "PurposeCode"; "PurposeDescription" ].

Definition ALLOWED_TO_UPDATE : list string :=
  elements (list_to_set
    (FINANCIAL_CANON ++
     ["RemitterPK"; "InwardPK"; "EMAIL_Type"; "EmailSubject"; "EmailFrom"; "EmailDate"])
    : gset string).

(** [FIRC_CANON] of the FIRC handler. *)
Definition FIRC_CANON : list string :=
  [ "InwardReference"; "FIRCNumber"; "IssueDate";
    "BeneficiaryName"; "BeneficiaryAccount";
    "RemitterName"; "RemitterReference"; "RemittingBankName"; "RemittingBankSWIFT";
    "CurrencyCode"; "AmountFCY"; "AmountINR"; "ExchangeRate"; "ValueDate"; "CreditDate";
    "GSTInvoiceNumber"; "CustomerGSTIN"; "BankGSTIN";
    "IGSTRatePercent"; "IGSTAmount"; "CGSTRatePercent"; "CGSTAmount";
    "SGSTRatePercent"; "SGSTAmount"; "UTGSTRatePercent"; "UTGSTAmount";
    "CessRatePercent"; "CessAmount"; "GrandTotal";
    "PurposeCode"; "PurposeDescription" ].

(** What the cell [k] of a row [r] holds after the write loop has run
    over the payload [su]: the payload's value, unless the cell already
    printed as that value (or the payload has no [k]). *)
Definition merged_cell (su r : gmap string string) (k : string) : option string :=
  match su !! k with
  | Some v => if decide (cell_str (r !! k) = v) then r !! k else Some v
  | None => r !! k
  end.

(** A column [c] reads the same in every row of [df] and in the row at
    the same index of [df']. *)
Definition column_kept (c : string) (df df' : DataFrame) : Prop :=
  ∀ (i : nat) r, rows df !! i = Some r →
    ∃ r', rows df' !! i = Some r' ∧ r' !! c = r !! c.

(** No row of [df'] beyond the rows of [df] holds a value in column [c]. *)
Definition column_not_supplied (c : string) (df df' : DataFrame) : Prop :=
  ∀ (i : nat) r', rows df' !! i = Some r' → length (rows df) ≤ i → r' !! c = None.

(** Some row of [df] prints [v] in column [k]. *)
Definition holds_value (k v : string) (df : DataFrame) : Prop :=
  ∃ (i : nat) r, rows df !! i = Some r ∧ cell_str (r !! k) = v.

(** Sample data: a store of one keyed row that also carries a column
    ([Remark]) no handler owns, and payloads as the handlers build them. *)
Definition sample_df : DataFrame :=
  mkDF ["InwardPK"; "Remark"]
       [ {[ "InwardPK" := "INW1"; "Remark" := "keep" ]} ].

Definition sample_payload : gmap string (option string) :=
  {[ "InwardPK" := Some "INW1"; "AmountFCY" := Some "100";
     "Remark" := Some "overwritten" ]}.

(** What [disposal_handler.handle] builds when the service found neither
    reference: both key mirrors are the empty string. *)
Definition unkeyed_payload : gmap string (option string) :=
  {[ "RemitterPK" := Some ""; "InwardPK" := Some "";
     "EMAIL_Type" := Some "DisposalEmail" ]}.

End Store.

(** ** The extraction call with retry, backoff and shrinking
    ([call_openai_financials], [call_openai_firc]) *)
Module Retry.
Import Eff Text.

(** [int(x)] for a float [x]: truncation toward zero.  The loop only
    converts products of a length and a factor, which are finite;
    infinities and NaN, where Python raises, are sent to 0 here. *)
Definition py_int (x : float) : Z :=
  match Prim2SF x with
  | S754_finite s m e =>
      let a := match e with
               | Z0 => Zpos m
               | Zpos p => Z.shiftl (Zpos m) (Zpos p)
               | Zneg p => Z.shiftr (Zpos m) (Zpos p)
               end in
      if s then Z.opp a else a
  | _ => 0%Z
  end.

(** The conversion of [len(txt)] to a float in [len(txt) * factor];
    exact for lengths below 2^53. *)
Definition float_of_nat (n : nat) : float :=
  PrimFloat.of_uint63 (Uint63.of_Z (Z.of_nat n)).

(** [shrink_steps = [1.0, 0.6, 0.35]], and [0.25] beyond; the literals
    denote the nearest binary64 values, as they do in Python. *)
Definition shrink_steps : list float := [1.0%float; 0.6%float; 0.35%float].

Definition factor_of (attempt : nat) : float := nth attempt shrink_steps 0.25%float.

(** [txt[: int(len(txt) * factor)]] *)
Definition shrunk (txt : string) (factor : float) : string :=
  take_str (Z.to_nat (py_int (PrimFloat.mul (float_of_nat (String.length txt)) factor))) txt.

(** [int(n * factor)] for a length [n] *)
Definition cut_length (n : Z) (factor : float) : Z :=
  py_int (PrimFloat.mul (PrimFloat.of_uint63 (Uint63.of_Z n)) factor).

(** The lengths the three factors give: all of the text, three fifths
    of it rounded down, and seven twentieths of it rounded down or one
    less (binary64 rounds some of these products below the integer). *)
Definition cut_ok (n : Z) : bool :=
  (cut_length n 1.0 =? n)%Z
  && (cut_length n 0.6 =? 3 * n / 5)%Z
  && (7 * n / 20 - 1 <=? cut_length n 0.35)%Z
  && (cut_length n 0.35 <=? 7 * n / 20)%Z.

(** [f] holds on [lo], [lo + 1], ..., [lo + len - 1]. *)
Fixpoint range_ok (f : Z → bool) (lo : Z) (len : nat) : bool :=
  match len with
  | 0 => true
  | S len' => f lo && range_ok f (lo + 1) len'
  end.

(** [attempts = 3] *)
Definition attempts : nat := 3.

(** ["rate limit" in msg.lower() or "429" in msg] *)
Definition is_rate_limit (msg : string) : bool :=
  contains "rate limit" (lower msg) || contains "429" msg.

(** What the loop does to the outside: a request that carries the
    (shrunk) input text, and a sleep of so many seconds. *)
Inductive Event :=
| Create (input_text : string)
| Sleep (seconds : Z).

Section Loop.
(** The extraction service, and the parsed reply. *)
Variable Service : Type.
Variable Json : Type.

(** [client.chat.completions.create(..)] for the prompt built from the
    input text, up to [resp.choices[0].message.content]: the content,
    or the [str] of the exception raised. *)
Variable create : string → Service → (string + string) * Service.

(** [json.loads(content)] *)
Variable loads : string → Json + string.

Record Env := mkEnv { service : Service; trace : list Event }.

Definition emit (e : Event) : M Env unit :=
  modify (λ env, mkEnv (service env) (trace env ++ [e])).

Definition request (use_txt : string) : M Env string :=
  λ env, let '(r, s) := create use_txt (service env) in (r, mkEnv s (trace env)).

Definition parse (content : string) : M Env Json :=
  match loads content with
  | inl j => ret j
  | inr e => raise e
  end.

(** The body of the [try]. *)
Definition attempt_call (use_txt : string) : M Env Json :=
  emit (Create use_txt);;
  let! content := request use_txt in
  parse content.

(** [for attempt in range(attempts): ...] and the [raise] after it;
    [what] is the handler's name for the call in the final message. *)
Fixpoint retry_loop (what : string) (trimmed : string) (todo : list nat)
  : M Env Json :=
  match todo with
  | [] =>
      raise (String.append "OpenAI rate limit: all retries exhausted for "
               (String.append what "."))
  | attempt :: rest =>
      let factor := factor_of attempt in
      let use_txt := shrunk trimmed factor in
      try_except (attempt_call use_txt)
        (λ msg,
           if is_rate_limit msg
           then emit (Sleep (2 * (Z.of_nat attempt + 1)));;
                retry_loop what trimmed rest      (* continue *)
           else raise msg)
  end.

(** [firc_handler.call_openai_firc]; [api_key] and [max_chars] are the
    environment's [OPENAI_API_KEY] and [OPENAI_MAX_CHARS]. *)
Definition call_openai_firc (api_key : option string) (max_chars : nat)
    (pdf_text : string) : M Env Json :=
  match api_key with
  | None | Some EmptyString => raise "OPENAI_API_KEY is not set."
  | Some _ =>
      let txt := take_str max_chars pdf_text in
      retry_loop "FIRC extraction" txt (seq 0 attempts)
  end.

(** [disposal_handler.call_openai_financials]; the keyword window
    [extract_financial_window] is a text-to-text pre-filter and a
    parameter here. *)
Definition call_openai_financials
    (extract_financial_window : string → nat → nat → string)
    (api_key : option string) (max_chars : nat)
    (email_body : string) : M Env Json :=
  match api_key with
  | None | Some EmptyString => raise "OPENAI_API_KEY is not set."
  | Some _ =>
      let trimmed := extract_financial_window email_body 2 max_chars in
      retry_loop "disposal financials" trimmed (seq 0 attempts)
  end.

(** The requests among the events. *)
Fixpoint requests (l : list Event) : list string :=
  match l with
  | [] => []
  | Create t :: l' => t :: requests l'
  | Sleep _ :: l' => requests l'
  end.

End Loop.

Arguments mkEnv {Service}.
Arguments service {Service}.
Arguments trace {Service}.

(** The most the loop can do on a text over the attempts [todo]: for each
    attempt a request with the input shrunk by the attempt's factor, and
    after it (when it was rate limited) a sleep of twice the attempt's
    number, counted from one. *)
Definition script (trimmed : string) (todo : list nat) : list Event :=
  flat_map (λ attempt, [ Create (shrunk trimmed (factor_of attempt));
                         Sleep (2 * (Z.of_nat attempt + 1)) ]) todo.

(** Sample data: a service that is rate limited on its first two calls
    (the state counts the calls), and a text of 180 characters. *)
Definition flaky_service (txt : string) (calls : nat) : (string + string) * nat :=
  if calls <? 2
  then (inr "Error code: 429 - Rate limit reached for requests", S calls)
  else (inl "{}", S calls).

Definition sample_text : string :=
  "INW_NO 0123456789 VALUE DATE 01-01-2024 CURRENCY USD AMOUNT 1,000.00 REMITTER ACME LLC BENEFICIARY CANOPUS INFOSYSTEMS PURPOSE P0802 SOFTWARE CONSULTANCY CHARGES SWIFT ABCDUS33XXX ".

End Retry.

(** ** The password candidates ([gather_candidate_passwords] and the
    candidate list of [firc_handler.handle]) *)
Module Passwords.
Import Text.

(** [os.environ.get(name)] when the value is truthy. *)
Definition env_get (env : gmap string string) (name : string) : option string :=
  match env !! name with
  | Some EmptyString => None
  | v => v
  end.

(** [s.split(",")] *)
Fixpoint split_comma (s : string) : list string :=
  match s with
  | EmptyString => [EmptyString]
  | String c s' =>
      if Ascii.eqb c "," then EmptyString :: split_comma s'
      else match split_comma s' with
           | h :: t => String c h :: t
           | [] => [String c EmptyString]
           end
  end.

(** [[p.strip() for p in l if p.strip()]] *)
Definition stripped_nonempty (l : list string) : list string :=
  filter (λ p, p ≠ "") (strip <$> l).

(** [PDF_PASSWORD] *)
Definition global_default (env : gmap string string) : list string :=
  match env_get env "PDF_PASSWORD" with
  | Some v => [strip v]
  | None => []
  end.

(** [YESBANK_PDF_PASSWORD], [HDFCBANK_PDF_PASSWORD], [ICICI_PDF_PASSWORD] *)
Definition named_defaults (env : gmap string string) : list string :=
  flat_map (λ bank_env, match env_get env bank_env with
                        | Some v => [strip v]
                        | None => []
                        end)
    ["YESBANK_PDF_PASSWORD"; "HDFCBANK_PDF_PASSWORD"; "ICICI_PDF_PASSWORD"].

(** [PDF_PASSWORDS], comma separated *)
Definition list_default (env : gmap string string) : list string :=
  match env_get env "PDF_PASSWORDS" with
  | Some multi => stripped_nonempty (split_comma multi)
  | None => []
  end.

(** [passwords.json]: three tables from a substring to passwords.  A
    table that is not a JSON object is [None] (its [.items()] raises);
    a value that is not a list is [None] (it fails [isinstance]).  A key
    that is absent from the file is the empty table. *)
Record PasswordFile := mkPasswordFile {
  domains : option (list (string * option (list string)));
  senders : option (list (string * option (list string)));
  subjects : option (list (string * option (list string)))
}.

(** [for k, vals in table.items(): if k.lower() in text_l and
    isinstance(vals, list): cands += vals] *)
Definition from_table (table : list (string * option (list string)))
    (text_l : string) : list string :=
  flat_map (λ kv, if contains (lower kv.1) text_l then default [] kv.2 else []) table.

(** A table of [passwords.json] lists [x] under a key that occurs in
    [text_l], the key compared in lower case. *)
Definition table_hit (table : list (string * option (list string)))
    (text_l x : string) : Prop :=
  ∃ k vals, (k, Some vals) ∈ table ∧ contains (lower k) text_l = true ∧ x ∈ vals.

(** The [try] block over [passwords.json]; [file] is [None] when the file
    does not exist or does not load as an object.  An exception ends the
    block and keeps what was gathered before it. *)
Definition lookup_table (file : option PasswordFile) (sender subject : string)
  : list string :=
  match file with
  | None => []
  | Some j =>
      let sender_l := lower sender in
      match senders j with
      | None => []
      | Some ss =>
          from_table ss sender_l ++
          match domains j with
          | None => []
          | Some ds =>
              from_table ds sender_l ++
              match subjects j with
              | None => []
              | Some sb => from_table sb (lower subject)
              end
          end
      end
  end.

(** The class [[A-Za-z0-9@#_\-\.]] *)
Definition is_pw_char (c : ascii) : bool :=
  let n := nat_of_ascii c in
  ((48 <=? n) && (n <=? 57)) || ((65 <=? n) && (n <=? 90)) || ((97 <=? n) && (n <=? 122))
  || Ascii.eqb c "@" || Ascii.eqb c "#" || Ascii.eqb c "_" || Ascii.eqb c "-"
  || Ascii.eqb c ".".

Fixpoint take_pw (s : string) : string :=
  match s with
  | String c s' => if is_pw_char c then String c (take_pw s') else EmptyString
  | EmptyString => EmptyString
  end.

Fixpoint count_spaces (s : string) : nat :=
  match s with
  | String c s' => if is_space c then S (count_spaces s') else 0
  | EmptyString => 0
  end.

Fixpoint drop_str (n : nat) (s : string) : string :=
  match n, s with
  | S n', String _ s' => drop_str n' s'
  | _, _ => s
  end.

(** One match of
    [(?:password|pwd)\s*[:\-]\s*([A-Za-z0-9@#_\-\.]+)] (ignoring case) at
    the start of [s]: the captured group and the length of the match. *)
Definition match_hint (s : string) : option (string * nat) :=
  let s_l := lower s in
  let keyword := if starts_with "password" s_l then Some 8
                 else if starts_with "pwd" s_l then Some 3 else None in
  match keyword with
  | None => None
  | Some k =>
      let s1 := drop_str k s in
      let n1 := count_spaces s1 in
      match drop_str n1 s1 with
      | String c s3 =>
          if Ascii.eqb c ":" || Ascii.eqb c "-" then
            let n2 := count_spaces s3 in
            let tok := take_pw (drop_str n2 s3) in
            match tok with
            | EmptyString => None
            | _ => Some (tok, k + n1 + 1 + n2 + String.length tok)
            end
          else None
      | EmptyString => None
      end
  end.

(** [re.findall]: matches from left to right, the search resuming where
    the last match ended; [skip] counts the characters still inside it. *)
Fixpoint findall_from (skip : nat) (s : string) : list string :=
  match s with
  | EmptyString => []
  | String _ s' =>
      match skip with
      | S k => findall_from k s'
      | 0 =>
          match match_hint s with
          | Some (tok, len) => tok :: findall_from (len - 1) s'
          | None => findall_from 0 s'
          end
      end
  end.

(** Hints in body: lines like [Password: XXXXXX] or [pwd: XXXXX] *)
Definition body_hints (email_body : string) : list string :=
  stripped_nonempty (findall_from 0 email_body).

(** Dedup preserve order: [seen=set(); out=[]; for p in cands: if p not in
    seen: seen.add(p); out.append(p)] *)
Fixpoint dedup_from (seen : gset string) (cands : list string) : list string :=
  match cands with
  | [] => []
  | p :: rest =>
      if decide (p ∈ seen) then dedup_from seen rest
      else p :: dedup_from ({[p]} ∪ seen) rest
  end.

Definition dedup (cands : list string) : list string := dedup_from ∅ cands.

Definition gather_candidate_passwords (env : gmap string string)
    (file : option PasswordFile) (email_body sender subject : string)
  : list string :=
  let cands :=
    global_default env ++ named_defaults env ++ list_default env
    ++ lookup_table file sender subject
    ++ body_hints email_body in
  dedup cands.

(** [direct_pw = match.get("pdf_password")], used when truthy. *)
Definition override (direct_pw : option string) : list string :=
  match direct_pw with
  | Some EmptyString | None => []
  | Some pw => [pw]
  end.

(** The candidate list [cands] built in [handle] for an encrypted PDF. *)
Definition handle_candidates (direct_pw : option string) (env : gmap string string)
    (file : option PasswordFile) (email_body sender subject : string)
  : list string :=
  let candidates :=
    override direct_pw
    ++ gather_candidate_passwords env file email_body sender subject in
  dedup candidates.

(** The six sources in the order of their priority. *)
Definition all_sources (direct_pw : option string) (env : gmap string string)
    (file : option PasswordFile) (email_body sender subject : string)
  : list string :=
  override direct_pw ++ global_default env ++ named_defaults env ++ list_default env
  ++ lookup_table file sender subject ++ body_hints email_body.

(** Sample data: the password the Yes Bank rule carries is also the
    global default, in the list default, in the table and in the body. *)
Definition sample_env : gmap string string :=
  {[ "PDF_PASSWORD" := "21893044"; "HDFCBANK_PDF_PASSWORD" := " hdfc#1 ";
     "PDF_PASSWORDS" := "alpha, 21893044 ,,beta" ]}.

Definition sample_file : PasswordFile :=
  mkPasswordFile (Some [("yesbank.in", Some ["tbl-dom"; "alpha"])])
                 (Some [("YesTouch", Some ["tbl-snd"])])
                 (Some [("advice", None); ("YBL", Some ["21893044"; "tbl-sub"])]).

Definition sample_body : string :=
  "Dear customer, the PDF Password : 21893044 applies. Old pwd-legacy.9 expired".

End Passwords.

(** ** More of the store: the key column, and what the disposal handler
    merges ([disposal_handler.handle]) *)
Module Sheet.
Import Store.

(** [df[pk_col].astype(str)]: the key column as the merge compares it. *)
Definition key_column (pk_col : string) (df : DataFrame) : list string :=
  (λ r, cell_str (r !! pk_col)) <$> rows df.

(** The reply of the extraction service as the handlers read it.  The
    fields are a JSON object whose values are strings or [null]
    ([None]); [fields] is [None] when the reply has no such key or a
    falsy one. *)
Record Reply := mkReply {
  IsRelevant : bool;
  fields_of : option (gmap string (option string))
}.

(** [(result.get("FinancialFields") or {}) if result.get("IsRelevant")
    else {}] *)
Definition relevant_fields (result : Reply) : gmap string (option string) :=
  if IsRelevant result then default ∅ (fields_of result) else ∅.

(** [fields.get(k) or ""] *)
Definition ref_of (fields : gmap string (option string)) (k : string) : string :=
  match fields !! k with
  | Some (Some v) => v
  | _ => ""
  end.

(** [for k in FINANCIAL_CANON: v = fields.get(k);
     if v is not None and v != "": updates[k] = str(v)] *)
Definition canon_step (fields : gmap string (option string))
    (updates : gmap string (option string)) (k : string)
  : gmap string (option string) :=
  match fields !! k with
  | Some (Some v) => if decide (v = "") then updates else <[k := Some v]> updates
  | _ => updates
  end.

Definition canon_updates (fields : gmap string (option string))
  : gmap string (option string) :=
  foldl (canon_step fields) ∅ FINANCIAL_CANON.

(** [pk_col = "RemitterPK" if remitter_ref else "InwardPK"] *)
Definition pk_col_of (fields : gmap string (option string)) : string :=
  if decide (ref_of fields "RemitterReference" = "") then "InwardPK" else "RemitterPK".

(** [pk_val = remitter_ref if remitter_ref else inward_ref] *)
Definition pk_val_of (fields : gmap string (option string)) : string :=
  if decide (ref_of fields "RemitterReference" = "")
  then ref_of fields "InwardReference"
  else ref_of fields "RemitterReference".

(** The [updates] dictionary of [handle]: the canonical fields, the two
    key mirrors and the e-mail meta data. *)
Definition disposal_updates (fields : gmap string (option string))
    (subject sender date : string) : gmap string (option string) :=
  <["EmailDate" := Some date]>
  (<["EmailFrom" := Some sender]>
  (<["EmailSubject" := Some subject]>
  (<["EMAIL_Type" := Some "DisposalEmail"]>
  (<["InwardPK" := Some (ref_of fields "InwardReference")]>
  (<["RemitterPK" := Some (ref_of fields "RemitterReference")]>
  (canon_updates fields)))))).

(** Steps 2 to 4 of [handle]: the frame handed to [write_df]. *)
Definition disposal_merge (df : DataFrame) (result : Reply)
    (subject sender date : string) : DataFrame :=
  let fields := relevant_fields result in
  upsert_selected df (pk_col_of fields)
    (disposal_updates fields subject sender date) ALLOWED_TO_UPDATE.

(** Sample data: a reply with both references and a key the canon does
    not know, and a reply the service marked as not relevant. *)
Definition sample_reply : Reply :=
  mkReply true (Some {[ "RemitterReference" := Some "REM-7";
                        "InwardReference" := Some "INW1";
                        "AmountFCY" := Some "100";
                        "CreditDate" := None;
                        "Remark" := Some "overwritten" ]}).

Definition irrelevant_reply : Reply :=
  mkReply false (Some {[ "InwardReference" := Some "INW1" ]}).

(** A store of two keyed rows. *)
Definition two_row_df : DataFrame :=
  mkDF ["InwardPK"; "Remark"]
       [ {[ "InwardPK" := "INW0"; "Remark" := "first" ]};
         {[ "InwardPK" := "INW1"; "Remark" := "keep" ]} ].

(** The keys among the entries of a key column: a row without a key
    prints the empty string, or [nan] when its cell is missing. *)
Definition keyed (col : list string) : list string :=
  filter (λ k, k ≠ "" ∧ k ≠ "nan") col.

(** A store with two rows the disposal handler appended without any
    reference, between two keyed rows; and a payload with a new key. *)
Definition unkeyed_rows_df : DataFrame :=
  mkDF ["InwardPK"; "RemitterPK"; "EMAIL_Type"]
       [ {[ "InwardPK" := "INW0"; "EMAIL_Type" := "FIRC" ]};
         {[ "InwardPK" := ""; "RemitterPK" := ""; "EMAIL_Type" := "DisposalEmail" ]};
         {[ "InwardPK" := ""; "RemitterPK" := ""; "EMAIL_Type" := "DisposalEmail" ]};
         {[ "InwardPK" := "INW1"; "RemitterPK" := "REM-7" ]} ].

Definition fresh_payload : gmap string (option string) :=
  {[ "InwardPK" := Some "INW9"; "AmountFCY" := Some "7" ]}.

End Sheet.

(** ** The shape of normalised text, and the three matches of the
    classifier *)
Module Shape.
Import Text Rules.

(** Every whitespace character of [s] is a space and no two are adjacent;
    [after_space] tells that the character before [s] was a space. *)
Fixpoint single_spaced (after_space : bool) (s : string) : bool :=
  match s with
  | EmptyString => true
  | String c s' =>
      if is_space c
      then Ascii.eqb c " " && negb after_space && single_spaced true s'
      else single_spaced false s'
  end.

(** A text made of whitespace only (the empty text included). *)
Fixpoint blank (s : string) : bool :=
  match s with
  | EmptyString => true
  | String c s' => is_space c && blank s'
  end.

(** The matches [categorize] appends, in the order of the rules; the
    diagnostic reasons are the tested conditions, which hold when the
    match is appended. *)
Definition inward_match : Match :=
  mkMatch "inward_remmittance_intimation" "handlers.disposal_handler" "handle"
    (Some true) None
    [ ("subject_contains", true); ("body_contains_all", true) ].

Definition hdfc_firc_match : Match :=
  mkMatch "FIRC" "handlers.firc_handler" "handle" (Some true) None
    [ ("subject_contains", true); ("body_contains_all", true);
      ("has_pdf_attachment", true) ].

Definition yes_firc_match : Match :=
  mkMatch "FIRC" "handlers.firc_handler" "handle" (Some true) (Some "21893044")
    [ ("subject_contains", true); ("body_contains_all", true);
      ("has_pdf_attachment", true) ].

(** Some attachment's lowercased name ends in [.pdf]. *)
Definition has_pdf (ctx : EmailContext) : Prop :=
  ∃ a, a ∈ Attachments ctx ∧ ends_with ".pdf" (lower (filename a)) = true.

End Shape.

(** ** More of the runner: what a batch does as a whole *)
Module Poll.
Import Runner.

(** The ids of the messages a stretch of the log reports as taken up. *)
Fixpoint handled_ids (l : list Event) : list string :=
  match l with
  | [] => []
  | NewMessage mid _ :: l' => mid :: handled_ids l'
  | _ :: l' => handled_ids l'
  end.

(** For each message the handler of its first match, if it has one. *)
Definition first_handlers (msgs : list Msg) : list (string * string) :=
  flat_map (λ m, handler_of <$> take 1 (Rules.categorize (email_context m))) msgs.

(** A message no rule matches, and a run state that has seen it. *)
Definition unmatched_msg : Msg :=
  mkMsg "m9" (Some 1700000000777%Z) "news@example.com" "Weekly digest" "Mon, 1 Jan 2024"
    "Nothing about remittances." [] [].

Definition seen_state : RunState unit :=
  mkRunState tt 1700000000000%Z {["m2"]} [] 1700000000000%Z [] None.

End Poll.

(** ** More sample services for the extraction call *)
Module RetrySamples.

(** A service that is always rate limited. *)
Definition limited_service (txt : string) (calls : nat) : (string + string) * nat :=
  (inr "Rate limit reached for requests", S calls).

(** A service whose reply is cut off, and a parser that reports where. *)
Definition garbled_service (txt : string) (calls : nat) : (string + string) * nat :=
  (inl "{", S calls).

Definition strict_loads (content : string) : string + string :=
  if String.eqb content "{}" then inl content
  else inr "Expecting ',' delimiter: line 9 column 12 (char 429)".

End RetrySamples.

(** ** [firc_handler.try_decrypt_pdf] *)
Module Decrypt.

(** One round of a [for pw in candidates] loop: the backend refused the
    password ([reader.decrypt(pw) == 0]), something raised (caught,
    [continue]), or the decrypted copy was written to a temporary file. *)
Inductive Outcome :=
| Rejected
| Raised
| Written (tmp : string).

(** What the function asked of the two libraries, and what came of it. *)
Inductive Attempt :=
| OpenPyPDF2 (r : option bool)
| TryPyPDF2 (pw : string) (o : Outcome)
| ImportPikepdf (ok : bool)
| TryPikepdf (pw : string) (o : Outcome).

Section Backends.
(** The two libraries and the file system. *)
Variable Backend : Type.

(** [PdfReader(src_path)] and its [is_encrypted]; [None] when the import
    or the reader raises. *)
Variable pypdf_open : string → Backend → option bool * Backend.

(** [reader.decrypt(pw)] and the writing of the pages. *)
Variable pypdf_try : string → Backend → Outcome * Backend.

(** [import pikepdf]: whether it succeeds. *)
Variable pike_import : Backend → bool * Backend.

(** [pikepdf.open(src_path, password=pw)] and [pdf.save(tmp)]. *)
Variable pike_try : string → string → Backend → Outcome * Backend.

Record St := mkSt { backend : Backend; attempts : list Attempt }.

Fixpoint pypdf_loop (candidates : list string) (st : St)
  : option (string * string) * St :=
  match candidates with
  | [] => (None, st)
  | pw :: rest =>
      let '(o, b) := pypdf_try pw (backend st) in
      let st' := mkSt b (attempts st ++ [TryPyPDF2 pw o]) in
      match o with
      | Written tmp => (Some (tmp, pw), st')
      | _ => pypdf_loop rest st'
      end
  end.

Fixpoint pike_loop (src_path : string) (candidates : list string) (st : St)
  : option (string * string) * St :=
  match candidates with
  | [] => (None, st)
  | pw :: rest =>
      let '(o, b) := pike_try src_path pw (backend st) in
      let st' := mkSt b (attempts st ++ [TryPikepdf pw o]) in
      match o with
      | Written tmp => (Some (tmp, pw), st')
      | _ => pike_loop src_path rest st'
      end
  end.

(** The pikepdf fallback and the final [return src_path, None]. *)
Definition pike_part (src_path : string) (candidates : list string) (st : St)
  : (string * option string) * St :=
  let '(ok, b) := pike_import (backend st) in
  let st1 := mkSt b (attempts st ++ [ImportPikepdf ok]) in
  if ok then
    match pike_loop src_path candidates st1 with
    | (Some (tmp, pw), st2) => ((tmp, Some pw), st2)
    | (None, st2) => ((src_path, None), st2)
    end
  else ((src_path, None), st1).

Definition try_decrypt_pdf (src_path : string) (candidates : list string) (st : St)
  : (string * option string) * St :=
  let '(r, b) := pypdf_open src_path (backend st) in
  let st1 := mkSt b (attempts st ++ [OpenPyPDF2 r]) in
  match r with
  | Some false => ((src_path, None), st1)
  | Some true =>
      match pypdf_loop candidates st1 with
      | (Some (tmp, pw), st2) => ((tmp, Some pw), st2)
      | (None, st2) => pike_part src_path candidates st2
      end
  | None => pike_part src_path candidates st1
  end.

End Backends.

Arguments mkSt {Backend}.
Arguments backend {Backend}.
Arguments attempts {Backend}.

(** A password that did not give a decrypted copy. *)
Definition failed (o : Outcome) : Prop :=
  match o with
  | Written _ => False
  | _ => True
  end.

(** What a loop over the candidates has tried when it ends with [res]:
    every candidate, in order and all in vain; or the candidates up to
    the first one that gave a copy, that one last. *)
Definition loop_tried (candidates : list string) (tried : list (string * Outcome))
    (res : option (string * string)) : Prop :=
  match res with
  | None => tried.*1 = candidates ∧ Forall (λ t, failed t.2) tried
  | Some (tmp, pw) =>
      ∃ before after,
        tried = before ++ [(pw, Written tmp)]
        ∧ candidates = before.*1 ++ pw :: after
        ∧ Forall (λ t, failed t.2) before
  end.

(** The result for the outcome of a loop. *)
Definition answer (src_path : string) (res : option (string * string))
  : string * option string :=
  match res with
  | Some (tmp, pw) => (tmp, Some pw)
  | None => (src_path, None)
  end.

(** The fallback: pikepdf is imported; when that works, its loop runs
    over the candidates, and otherwise nothing is tried. *)
Definition fallback (src_path : string) (candidates : list string)
    (evs : list Attempt) (result : string * option string) : Prop :=
  ∃ ok tried res,
    evs = ImportPikepdf ok :: ((λ t, TryPikepdf t.1 t.2) <$> tried)
    ∧ if ok then loop_tried candidates tried res ∧ result = answer src_path res
      else tried = [] ∧ result = (src_path, None).

(** Sample backends over a counter of calls: PyPDF2 opens the file as
    encrypted and fails to write, pikepdf accepts one password. *)
Definition sample_open (src : string) (n : nat) : option bool * nat := (Some true, S n).

Definition sample_pypdf (pw : string) (n : nat) : Outcome * nat :=
  (if String.eqb pw "21893044" then Raised else Rejected, S n).

Definition sample_import (n : nat) : bool * nat := (true, S n).

Definition sample_pike (src pw : string) (n : nat) : Outcome * nat :=
  (if String.eqb pw "21893044" then Written "/tmp/tmpab12.pdf" else Raised, S n).

End Decrypt.

(** ** Reading the headers of a message ([header_value],
    [get_recipients]), and what strings are made of *)
Module Mail.
Import Text Passwords.

(** One entry of [payload.headers]; a key that is absent reads as the
    empty string ([h.get("name","")], [h.get("value","")]). *)
Record Header := mkHeader { hdr_name : string; hdr_value : string }.

(** The first header of that name, names compared in lower case. *)
Fixpoint header_value (headers : list Header) (name : string) : string :=
  match headers with
  | [] => ""
  | h :: rest =>
      if String.eqb (lower (hdr_name h)) (lower name) then hdr_value h
      else header_value rest name
  end.

(** The class [[;,]] *)
Definition is_sep (c : ascii) : bool := Ascii.eqb c ";" || Ascii.eqb c ",".

(** [re.split(r"[;,]", block)] *)
Fixpoint split_seps (s : string) : list string :=
  match s with
  | EmptyString => [EmptyString]
  | String c s' =>
      if is_sep c then EmptyString :: split_seps s'
      else match split_seps s' with
           | h :: t => String c h :: t
           | [] => [String c EmptyString]
           end
  end.

(** [if block: parts += [p.strip() for p in re.split(..) if p.strip()]] *)
Definition block_parts (block : string) : list string :=
  match block with
  | EmptyString => []
  | _ => stripped_nonempty (split_seps block)
  end.

Definition get_recipients (headers : list Header) : list string :=
  let tos := header_value headers "To" in
  let ccs := header_value headers "Cc" in
  let bccs := header_value headers "Bcc" in
  flat_map block_parts [tos; ccs; bccs].

(** Every character of [s] satisfies [f]. *)
Fixpoint all_chars (f : ascii → bool) (s : string) : bool :=
  match s with
  | EmptyString => true
  | String c s' => f c && all_chars f s'
  end.

(** An address as [get_recipients] returns it: not empty, no whitespace
    at either end, no separator inside. *)
Definition clean (p : string) : Prop :=
  p ≠ "" ∧ strip p = p ∧ all_chars (λ c, negb (is_sep c)) p = true.

(** A token of the password hint pattern found in [s]. *)
Definition token_of (s tok : string) : Prop :=
  tok ≠ "" ∧ all_chars is_pw_char tok = true ∧ contains tok s = true.

Definition sample_headers : list Header :=
  [ mkHeader "Subject" "FIRC advice";
    mkHeader "TO" " ops@example.com ; , treasury@example.com";
    mkHeader "To" "ignored@example.com";
    mkHeader "cc" "audit@example.com," ].

End Mail.

(** ** [disposal_handler.extract_financial_window] *)
Module Window.
Import Text.

(** The line boundaries of [str.splitlines] on ASCII text: LF, VT, FF,
    CR, FS, GS and RS; CR LF is one boundary. *)
Definition is_line_break (c : ascii) : bool :=
  let n := nat_of_ascii c in
  ((10 <=? n) && (n <=? 13)) || ((28 <=? n) && (n <=? 30)).

(** [text.splitlines()]: a boundary at the very end opens no last line. *)
Fixpoint splitlines (s : string) : list string :=
  match s with
  | EmptyString => []
  | String c s' =>
      if is_line_break c then
        EmptyString ::
        match s' with
        | String d s'' =>
            if Ascii.eqb c "013" && Ascii.eqb d "010" then splitlines s''
            else splitlines s'
        | EmptyString => []
        end
      else match splitlines s' with
           | [] => [String c EmptyString]
           | h :: t => String c h :: t
           end
  end.

Definition newline : string := String "010" EmptyString.

Section Hints.
(** [pat.search(ln)] for the alternation of [FINANCIAL_HINTS]. *)
Variable pat_search : string → bool.

(** [for j in range(lo, hi): keep[j] = True] *)
Definition mark (lo hi : nat) (keep : list bool) : list bool :=
  foldl (λ k j, <[j := true]> k) keep (seq lo (hi - lo)).

(** The body of [for i, ln in enumerate(lines)]; [n] is [len(lines)]. *)
Definition scan_line (ctx_lines n : nat) (keep : list bool) (i : nat) (ln : string)
  : list bool :=
  if pat_search ln
  then mark (Nat.max 0 (i - ctx_lines)) (Nat.min n (i + ctx_lines + 1)) keep
  else keep.

Fixpoint scan (ctx_lines n i : nat) (todo : list string) (keep : list bool)
  : list bool :=
  match todo with
  | [] => keep
  | ln :: rest => scan ctx_lines n (S i) rest (scan_line ctx_lines n keep i ln)
  end.

Definition keep_mask (lines : list string) (ctx_lines : nat) : list bool :=
  scan ctx_lines (length lines) 0 lines (replicate (length lines) false).

(** [l for i, l in enumerate(lines) if keep[i]] *)
Fixpoint kept (lines : list string) (keep : list bool) : list string :=
  match lines, keep with
  | l :: lines', k :: keep' => if k then l :: kept lines' keep' else kept lines' keep'
  | _, _ => []
  end.

(** Line [j] is within [ctx] lines of a line the pattern finds. *)
Definition near_hint (lines : list string) (ctx j : nat) : Prop :=
  ∃ i ln, lines !! i = Some ln ∧ pat_search ln = true ∧ i ≤ j + ctx ∧ j ≤ i + ctx.

Definition window_lines (text : string) (ctx_lines : nat) : list string :=
  let lines := splitlines text in
  kept lines (keep_mask lines ctx_lines).

Definition extract_financial_window (text : string) (ctx_lines max_chars : nat)
  : string :=
  let joined := String.concat newline (window_lines text ctx_lines) in
  let filtered := match joined with EmptyString => text | _ => joined end in
  take_str max_chars filtered.

End Hints.

(** A stand-in for the hint pattern: the word [amount], in any case. *)
Definition sample_pat (ln : string) : bool := contains "amount" (lower ln).

Definition sample_mail : string :=
  String.concat newline
    [ "Dear Sir"; "we have received"; "a remittance"; "Amount: USD 100";
      "for your account"; "please revert"; "with purpose"; "Regards" ].

End Window.

(** ** [firc_handler.handle]: the [SavedPDFs] history of a row *)
Module Saved.
Import Text Passwords Mail.

(** The order of [str] values, by code point. *)
Definition str_le (a b : string) : Prop := String.leb a b = true.

#[global] Instance str_le_dec : RelDecision str_le :=
  λ a b, decide (String.leb a b = true).

(** [sorted(set(l))]; the result does not depend on the order in which
    the set is iterated. *)
Definition sorted_set (l : list string) : list string := merge_sort str_le (dedup l).

(** [[p.strip() for p in s.split(",") if p.strip()]] *)
Definition entries (s : string) : list string := stripped_nonempty (split_comma s).

(** [updates["SavedPDFs"]] from the cell read before ([prev]) and
    [os.path.basename(local_path)]. *)
Definition saved_pdfs (prev base : string) : string :=
  let sep := match prev with EmptyString => "" | _ => "," end in
  String.concat ", " (sorted_set (entries (prev +:+ sep +:+ base))).

(** A file name as the history lists it. *)
Definition entry (p : string) : Prop :=
  p ≠ "" ∧ strip p = p ∧ all_chars (λ c, negb (Ascii.eqb c ",")) p = true.

End Saved.

(** ** [runner.list_attachments] and the PDF filter of [firc_handler.handle] *)
Module Parts.
Import Text Rules.

(** A MIME part: [p.get("filename") or ""], [p.get("mimeType","")],
    [p.get("body",{}).get("attachmentId")] (the empty string when there
    is none) and [p.get("parts")] (the empty list when there is none). *)
#[local] Unset Elimination Schemes.
Inductive Part :=
| mkPart (part_filename part_mimeType attachmentId : string) (parts : list Part).
#[local] Set Elimination Schemes.

Definition parts_of (p : Part) : list Part :=
  match p with mkPart _ _ _ parts => parts end.

(** [if fn and body.get("attachmentId"): atts.append({..})] *)
Definition own_attachment (p : Part) : list Attachment :=
  match p with
  | mkPart fn mime aid _ =>
      match fn, aid with
      | String _ _, String _ _ => [mkAttachment aid fn mime]
      | _, _ => []
      end
  end.

(** The body of [for p in parts] in [walk]: the nested parts first, then
    the part itself. *)
Fixpoint walk_part (p : Part) : list Attachment :=
  match p with
  | mkPart _ _ _ parts => flat_map walk_part parts ++ own_attachment p
  end.

Definition walk (parts : list Part) : list Attachment := flat_map walk_part parts.

(** [payload] is the top part; only the parts below it are walked. *)
Definition list_attachments (payload : Part) : list Attachment :=
  walk (parts_of payload).

(** [p] lies below [q], at any depth. *)
Inductive below : Part → Part → Prop :=
| below_child p q : p ∈ parts_of q → below p q
| below_deeper p q r : below p q → q ∈ parts_of r → below p r.

(** [[a for a in atts if a.get("filename","").lower().endswith(".pdf")]] *)
Definition pdfs (atts : list Attachment) : list Attachment :=
  filter (λ a, ends_with ".pdf" (lower (filename a)) = true) atts.

(** Some part below the payload carries an attachment whose name ends in
    [.pdf], in any case of letters. *)
Definition has_pdf_part (payload : Part) : Prop :=
  ∃ fn mime aid parts,
    below (mkPart fn mime aid parts) payload ∧ aid ≠ ""
    ∧ ends_with ".pdf" (lower fn) = true.

(** A forwarded advice: the PDF sits two levels down, beside the text
    parts and an inline image without a name. *)
Definition forwarded_payload : Part :=
  mkPart "" "multipart/mixed" ""
    [ mkPart "" "multipart/alternative" ""
        [ mkPart "" "text/plain" "" []; mkPart "" "text/html" "" [] ];
      mkPart "fwd.eml" "message/rfc822" "att-0"
        [ mkPart "" "multipart/mixed" ""
            [ mkPart "Advice_77.PDF" "application/pdf" "att-1" [];
              mkPart "" "image/png" "att-2" [] ] ];
      mkPart "notes.txt" "text/plain" "" [] ].

Definition forwarded_ctx : EmailContext :=
  mkEmailContext "18c2f0a1" 1700000000000 "advice@bank.example" ["ops@example.com"]
    "Fwd: FIRC" "Tue, 14 Nov 2023" "see attached" (list_attachments forwarded_payload).

End Parts.

(** ** [firc_handler.handle]: the steps taken for the PDFs of a message *)
Module Handlers.
Import Eff Text Rules Store Sheet Passwords Saved Parts.

(** What the handler does to the outside world, in the order it does it. *)
Inductive Event :=
| Download (att_id filename : string)
| TryDecrypt (path : string) (cands : list string)
| ReadText (path : string)
| AskModel (pdf_text : string)
| Upload (path : string)
| WriteSheet (df : DataFrame)
| LogError (e : string).

(** The calls that can raise. *)
Inductive Step :=
| DriveSetup
| ReadSheet
| DownloadStep
| ReadTextStep
| ModelStep
| UploadStep
| WriteStep.

(** The journal of a run: what the handler did, and the exceptions its
    calls raised, in order. *)
Inductive Entry :=
| Did (e : Event)
| Raised (s : Step) (err : string).

Definition did (x : Entry) : option Event :=
  match x with
  | Did e => Some e
  | Raised _ _ => None
  end.

(** [for k, v in fields.items(): if v is not None and v != "":
     updates[k] = str(v)] *)
Definition nonblank (fields : gmap string (option string))
  : gmap string (option string) :=
  filter (λ kv, kv.2 ≠ None ∧ kv.2 ≠ Some "") fields.

(** [if v: updates[k] = v] *)
Definition set_truthy (k v : string) (updates : gmap string (option string))
  : gmap string (option string) :=
  match v with
  | EmptyString => updates
  | _ => <[k := Some v]> updates
  end.

(** [prev]: the [SavedPDFs] cell of the first row whose [InwardPK] is
    [inward_ref], when the frame has both columns and such a row. *)
Definition prev_saved (df : DataFrame) (inward_ref : string) : string :=
  if decide ("InwardPK" ∈ columns df) then
    match list_find (λ r, r !! "InwardPK" = Some inward_ref) (rows df) with
    | Some (_, r) =>
        if decide ("SavedPDFs" ∈ columns df) then cell_str (r !! "SavedPDFs") else ""
    | None => ""
    end
  else "".

(** The [updates] dictionary built for one PDF. *)
Definition firc_updates (fields : gmap string (option string))
    (inward_ref saved drive_id drive_url subject sender date : string)
  : gmap string (option string) :=
  <["EmailDate" := Some date]>
  (<["EmailFrom" := Some sender]>
  (<["EmailSubject" := Some subject]>
  (<["EMAIL_Type" := Some "FIRC"]>
  (set_truthy "DriveFileUrl" drive_url
  (set_truthy "DriveFileId" drive_id
  (<["SavedPDFs" := Some saved]>
  (<["InwardPK" := Some inward_ref]>
  (nonblank fields)))))))).

(** The calls whose exception [handle] lets pass to its outer [except];
    those of the other calls are caught where they are made. *)
Definition escapes (s : Step) : Prop :=
  match s with
  | ReadSheet | DownloadStep | ModelStep | WriteStep => True
  | DriveSetup | ReadTextStep | UploadStep => False
  end.

(** An entry that leaves the run going: anything done but the write of
    the sheet and the log of an error, and an exception that is caught. *)
Definition quiet (x : Entry) : Prop :=
  match x with
  | Did (WriteSheet _) | Did (LogError _) => False
  | Did _ => True
  | Raised s _ => ¬ escapes s
  end.

Section Firc.
(** The mailbox, the file system, Drive, the sheet and the model. *)
Variable World : Type.

(** [drive_service()] and [ensure_drive_folder(dsvc, name="FIRC")]: the
    folder id. *)
Variable drive_setup : World → (string + string) * World.
Variable read_df : World → (DataFrame + string) * World.
Variable write_df : DataFrame → World → (unit + string) * World.
(** [download_attachment(gmail, msg["id"], a["id"], a["filename"])] *)
Variable download_attachment :
  string → string → string → World → (string + string) * World.
(** [is_pdf_encrypted] and [try_decrypt_pdf] catch every exception. *)
Variable is_pdf_encrypted : string → World → bool * World.
Variable try_decrypt_pdf :
  string → list string → World → (string * option string) * World.
Variable read_pdf_text : string → World → (string + string) * World.
Variable call_openai_firc : string → World → (Reply + string) * World.
(** [upload_pdf_to_drive(dsvc, local_path, folder_id)]: the [id] and the
    [url] of the file. *)
Variable upload_pdf_to_drive :
  string → string → World → (string * string + string) * World.
(** [os.path.basename], [os.environ] and [passwords.json]. *)
Variable basename : string → string.
Variable environ : gmap string string.
Variable passwords_json : option PasswordFile.

Record Env := mkEnv { world : World; journal : list Entry }.

(** What the handler did, without the exceptions. *)
Definition trace (env : Env) : list Event := omap did (journal env).

Definition emit (e : Event) : M Env unit :=
  modify (λ s, mkEnv (world s) (journal s ++ [Did e])).

(** A call that returns. *)
Definition call {A} (f : World → A * World) : M Env A :=
  λ s, let '(a, w) := f (world s) in (inl a, mkEnv w (journal s)).

(** A call that returns or raises. *)
Definition call_raising {A} (step : Step) (f : World → (A + string) * World)
  : M Env A :=
  λ s, let '(r, w) := f (world s) in
       match r with
       | inl a => (inl a, mkEnv w (journal s))
       | inr e => (inr e, mkEnv w (journal s ++ [Raised step e]))
       end.

(** [df] and [updated_any], the variables the loop over the PDFs
    updates. *)
Record Loop := mkLoop { df : DataFrame; updated_any : bool }.

(** [try: dsvc = drive_service(); folder_id = ensure_drive_folder(..)
     except: dsvc = None; folder_id = ""]; the result is the folder when
    [dsvc and folder_id] holds. *)
Definition setup_drive : M Env (option string) :=
  try_except
    (let! folder_id := call_raising DriveSetup drive_setup in
     ret (match folder_id with EmptyString => None | _ => Some folder_id end))
    (λ _, ret None).

(** [if dsvc and folder_id: try: up = upload_pdf_to_drive(..) except ..];
    the [id] and [url] read from [up], empty when there is none. *)
Definition upload (drive : option string) (local_path : string)
  : M Env (string * string) :=
  match drive with
  | Some folder_id =>
      try_except
        (emit (Upload local_path);;
         call_raising UploadStep (upload_pdf_to_drive local_path folder_id))
        (λ _, ret ("", ""))
  | None => ret ("", "")
  end.

(** [if is_pdf_encrypted(local_path): ...]: the path to go on with and
    [dec_used]. *)
Definition decrypt (cands : list string) (local_path : string)
  : M Env (string * option string) :=
  let! enc := call (is_pdf_encrypted local_path) in
  if enc then
    match cands with
    | [] => ret (local_path, None)
    | _ =>
        emit (TryDecrypt local_path cands);;
        let! r := call (try_decrypt_pdf local_path cands) in
        if decide (r.1 ≠ local_path) then ret (r.1, r.2) else ret (local_path, None)
    end
  else ret (local_path, None).

(** [can_extract] and [pdf_text] *)
Definition read_text (local_path : string) (dec_used : option string)
  : M Env (bool * string) :=
  let! enc := call (is_pdf_encrypted local_path) in
  if enc && bool_decide (dec_used = None) then ret (false, "")
  else
    try_except
      (emit (ReadText local_path);;
       let! pdf_text := call_raising ReadTextStep (read_pdf_text local_path) in
       ret (true, pdf_text))
      (λ _, ret (false, "")).

(** [fields], from the model's reply *)
Definition extract (can_extract : bool) (pdf_text : string)
  : M Env (gmap string (option string)) :=
  if can_extract && negb (String.eqb pdf_text "") then
    emit (AskModel pdf_text);;
    let! result := call_raising ModelStep (call_openai_firc pdf_text) in
    ret (relevant_fields result)
  else ret ∅.

(** The body of [for a in pdfs]. *)
Definition handle_pdf (msg : Runner.Msg) (direct_pw : option string)
    (drive : option string) (a : Attachment) (st : Loop) : M Env Loop :=
  let subject := Runner.hdr_Subject msg in
  let sender := Runner.hdr_From msg in
  let date := Runner.hdr_Date msg in
  let email_body_for_hints := Runner.body_text msg in
  emit (Download (att_id a) (filename a));;
  let! local_path :=
    call_raising DownloadStep
      (download_attachment (Runner.msg_id msg) (att_id a) (filename a)) in
  let cands := handle_candidates direct_pw environ passwords_json
                 email_body_for_hints sender subject in
  let! dec := decrypt cands local_path in
  let local_path := dec.1 in
  let dec_used := dec.2 in
  let! txt := read_text local_path dec_used in
  let! fields := extract txt.1 txt.2 in
  let inward_ref := strip (ref_of fields "InwardReference") in
  match inward_ref with
  | EmptyString => upload drive local_path;; ret st     (* continue *)
  | _ =>
      let! up := upload drive local_path in
      let prev := prev_saved (df st) inward_ref in
      let updates :=
        firc_updates fields inward_ref (saved_pdfs prev (basename local_path))
          up.1 up.2 subject sender date in
      ret (mkLoop (upsert_by_inward (df st) updates) true)
  end.

Fixpoint pdf_loop (msg : Runner.Msg) (direct_pw drive : option string)
    (todo : list Attachment) (st : Loop) : M Env Loop :=
  match todo with
  | [] => ret st
  | a :: rest =>
      let! st' := handle_pdf msg direct_pw drive a st in
      pdf_loop msg direct_pw drive rest st'
  end.

(** [if updated_any: write_df(df)] *)
Definition write_back (st : Loop) : M Env unit :=
  if updated_any st
  then emit (WriteSheet (df st));; call_raising WriteStep (write_df (df st))
  else ret tt.

(** The [try] block of [handle]. *)
Definition handle_body (msg : Runner.Msg) (ctx : Runner.HandlerCtx) : M Env unit :=
  let atts := Runner.attachments msg in
  match pdfs atts with
  | [] => ret tt
  | todo =>
      let! drive := setup_drive in
      let! df0 := call_raising ReadSheet read_df in
      let direct_pw := pdf_password (Runner.ctx_match ctx) in
      let! st := pdf_loop msg direct_pw drive todo (mkLoop df0 false) in
      write_back st
  end.

Definition handle (msg : Runner.Msg) (ctx : Runner.HandlerCtx) : M Env unit :=
  try_except (handle_body msg ctx) (λ e, emit (LogError e)).

(** Some PDF can be opened: it is not encrypted, or a password changes
    the path to go on with. *)
Definition readable : Prop :=
  (∃ p w, (is_pdf_encrypted p w).1 = false)
  ∨ (∃ p cands w, (try_decrypt_pdf p cands w).1.1 ≠ p).

(** Some reply of the model is relevant and carries a reference. *)
Definition referenced : Prop :=
  ∃ pdf_text w reply,
    (call_openai_firc pdf_text w).1 = inl reply
    ∧ IsRelevant reply = true
    ∧ strip (ref_of (relevant_fields reply) "InwardReference") ≠ "".

(** The events of the loop over the PDFs. *)
Definition step_event (e : Event) : Prop :=
  match e with
  | Download _ _ | TryDecrypt _ _ | Upload _ => True
  | ReadText _ | AskModel _ => readable
  | WriteSheet _ | LogError _ => False
  end.

(** A run of [m] from any state adds events that all satisfy [P], and
    when it returns, the value satisfies [Q]. *)
Definition run_spec {A} (P : Event → Prop) (Q : A → Prop) (m : M Env A) : Prop :=
  ∀ env, ∃ new,
    trace (m env).2 = trace env ++ new ∧ Forall P new
    ∧ match (m env).1 with inl a => Q a | inr _ => True end.

(** A run of [m] from any state adds entries to the journal.  When it
    returns, they are quiet.  When it raises [e], they are quiet up to
    the last one, which is the exception [e] of a call before the write
    whose exceptions escape. *)
Definition journal_spec {A} (m : M Env A) : Prop :=
  ∀ env, ∃ new,
    journal (m env).2 = journal env ++ new
    ∧ match (m env).1 with
      | inl a => Forall quiet new
      | inr e => ∃ pre s, new = pre ++ [Raised s e] ∧ Forall quiet pre
                          ∧ escapes s ∧ s ≠ WriteStep
      end.

(** A run of [m] adds quiet entries only, whether it returns or raises:
    the body of a [try] whose [except] goes on. *)
Definition caught_spec {A} (m : M Env A) : Prop :=
  ∀ env, ∃ new, journal (m env).2 = journal env ++ new ∧ Forall quiet new.

End Firc.

Arguments mkEnv {World}.
Arguments world {World}.
Arguments journal {World}.
Arguments trace {World}.

(** How the [try] block of [handle] ends, after the quiet entries: with
    nothing more or the write of the sheet when it returns; with the
    exception of a call before the write, or the write and its own
    exception, when it raises [e]. *)
Definition body_end (r : unit + string) (rest : list Entry) : Prop :=
  match r with
  | inl _ => rest = [] ∨ ∃ df, rest = [Did (WriteSheet df)]
  | inr e => (∃ s, escapes s ∧ s ≠ WriteStep ∧ rest = [Raised s e])
             ∨ ∃ df, rest = [Did (WriteSheet df); Raised WriteStep e]
  end.

Definition is_log_error (e : Event) : Prop :=
  match e with LogError _ => True | _ => False end.

(** The events of a PDF that is neither read nor sent to the model. *)
Definition untouched (e : Event) : Prop :=
  match e with
  | Download _ _ | TryDecrypt _ _ | Upload _ => True
  | _ => False
  end.

(** Sample oracles over a counter of calls: an unencrypted advice whose
    reply carries the reference [INW1]. *)
Definition sample_firc_reply : Reply :=
  mkReply true (Some {[ "InwardReference" := Some " INW1 ";
                        "FIRCNumber" := Some "F-9";
                        "IssueDate" := None ]}).

Definition advice_msg : Runner.Msg :=
  Runner.mkMsg "18c2f0a1" (Some 1700000000000%Z) "advice@bank.example" "FIRC advice"
    "Tue, 14 Nov 2023" "Please find the advice attached." ["ops@example.com"]
    [ mkAttachment "att-1" "Advice_77.PDF" "application/pdf";
      mkAttachment "att-2" "logo.png" "image/png" ].

Definition advice_ctx : Runner.HandlerCtx :=
  Runner.mkHandlerCtx "18c2f0a1" 1700000000000 "advice@bank.example" "FIRC advice"
    "Tue, 14 Nov 2023"
    (mkMatch "FIRC" "handlers.firc_handler" "handle" (Some true) None []).

Definition ok_drive (w : nat) : (string + string) * nat := (inl "folder-1", S w).
Definition ok_read_df (w : nat) : (DataFrame + string) * nat := (inl empty_df, S w).
Definition ok_write_df (d : DataFrame) (w : nat) : (unit + string) * nat := (inl tt, S w).
Definition ok_download (mid aid fn : string) (w : nat) : (string + string) * nat :=
  (inl ("downloads/" +:+ fn), S w).
Definition never_encrypted (p : string) (w : nat) : bool * nat := (false, S w).
Definition always_encrypted (p : string) (w : nat) : bool * nat := (true, S w).
Definition no_decrypt (p : string) (cands : list string) (w : nat)
  : (string * option string) * nat := ((p, None), S w).
Definition ok_read_text (p : string) (w : nat) : (string + string) * nat :=
  (inl "FIRC advice INW1", S w).
Definition ok_model (t : string) (w : nat) : (Reply + string) * nat :=
  (inl sample_firc_reply, S w).
Definition ok_upload (p folder : string) (w : nat) : (string * string + string) * nat :=
  (inl ("file-1", "https://drive.example/file-1"), S w).
Definition sample_basename (p : string) : string := drop_str 10 p.

(** A message with two advices, a model that answers once and is then
    out of quota, and a sheet that cannot be written. *)
Definition two_advices_msg : Runner.Msg :=
  Runner.mkMsg "18c2f0a2" (Some 1700000000000%Z) "advice@bank.example" "FIRC advice"
    "Tue, 14 Nov 2023" "Please find the advices attached." ["ops@example.com"]
    [ mkAttachment "att-1" "Advice_77.PDF" "application/pdf";
      mkAttachment "att-2" "Advice_78.pdf" "application/pdf" ].

Definition model_once (t : string) (w : nat) : (Reply + string) * nat :=
  if w <? 10 then (inl sample_firc_reply, S w) else (inr "insufficient_quota", S w).

Definition locked_write_df (d : DataFrame) (w : nat) : (unit + string) * nat :=
  (inr "Permission denied: remittance.xlsx", S w).

Definition no_drive (w : nat) : (string + string) * nat :=
  (inr "credentials.json not found", S w).

End Handlers.

(** ** The tidying of decoded text ([get_body_text], [body_text],
    [read_pdf_text]) *)
Module Tidy.
Import Text.

(** The class [[ \t]] *)
Definition is_blank (c : ascii) : bool := Ascii.eqb c " " || Ascii.eqb c "009".

Definition is_lf (c : ascii) : bool := Ascii.eqb c "010".

(** [re.sub(cls+, r, s)] for a class [cls] of single characters, scanning
    left to right; [in_run] tells that the character before was in the
    class. *)
Fixpoint squeeze (cls : ascii → bool) (r : ascii) (in_run : bool) (s : string)
  : string :=
  match s with
  | EmptyString => EmptyString
  | String c s' =>
      if cls c
      then (if in_run then squeeze cls r true s'
            else String r (squeeze cls r true s'))
      else String c (squeeze cls r false s')
  end.

(** The last three steps on the decoded text:
    [re.sub(r"[ \t]+", " ", text)], [re.sub(r"\n{2,}", "\n", text)] (a
    single line feed is replaced by itself) and [text.strip()]. *)
Definition tidy (text : string) : string :=
  let text := squeeze is_blank " " false text in
  let text := squeeze is_lf "010" false text in
  strip text.

(** Every character of the class in [s] is [r], and no two of them are
    adjacent; [after] tells that the character before [s] was in the
    class. *)
Fixpoint squeezed (cls : ascii → bool) (r : ascii) (after : bool) (s : string)
  : bool :=
  match s with
  | EmptyString => true
  | String c s' =>
      if cls c then Ascii.eqb c r && negb after && squeezed cls r true s'
      else squeezed cls r false s'
  end.

Definition untidy_text : string :=
  String.concat (String "010" "")
    [ "  Dear   Sir,"; ""; ""; String "009" "Amount :  USD 100  "; "" ].

End Tidy.

(* ===================================================================== *)
(** * Part II: the lemmas                                                 *)
(* ===================================================================== *)

Module StoreFacts.
Import Store.

Lemma str_or_empty s : str_or s "" = s.
Proof. unfold str_or. by case_decide. Qed.

Lemma add_col_columns df c0 c :
  c ∈ columns (add_col df c0) ↔ c ∈ columns df ∨ c = c0.
Proof.
  unfold add_col. case_decide; simpl.
  - split; [by left | intros [?| ->]; done].
  - rewrite elem_of_app, list_elem_of_singleton. done.
Qed.

Lemma add_col_rows df c0 (i : nat) r :
  rows df !! i = Some r →
  ∃ r', rows (add_col df c0) !! i = Some r' ∧
    ∀ c, r' !! c = if decide (c = c0 ∧ c0 ∉ columns df) then Some "" else r !! c.
Proof.
  intros Hi. unfold add_col. case_decide as Hin; simpl.
  - exists r. split; [done|]. intros c. case_decide as Hc; [|done].
    by destruct Hc.
  - exists (<[c0:=""]> r). split.
    + by rewrite list_lookup_fmap, Hi.
    + intros c. case_decide as Hc.
      * destruct Hc as [-> _]. by rewrite lookup_insert_eq.
      * rewrite lookup_insert_ne; [done|]. intros ->. by apply Hc.
Qed.

Lemma ensure_cols_columns cols : ∀ df c,
  c ∈ columns (ensure_cols df cols) ↔ c ∈ columns df ∨ c ∈ cols.
Proof.
  induction cols as [|c0 cols IH]; intros df c; simpl.
  - rewrite elem_of_nil. tauto.
  - unfold ensure_cols in *. simpl. rewrite IH, add_col_columns, elem_of_cons. tauto.
Qed.

Lemma ensure_cols_length cols : ∀ df,
  length (rows (ensure_cols df cols)) = length (rows df).
Proof.
  induction cols as [|c0 cols IH]; intros df; [done|].
  unfold ensure_cols in *. simpl. rewrite IH. unfold add_col.
  case_decide; simpl; [done|]. by rewrite length_fmap.
Qed.

Lemma ensure_cols_rows cols : ∀ df (i : nat) r,
  rows df !! i = Some r →
  ∃ r', rows (ensure_cols df cols) !! i = Some r' ∧
    ∀ c, r' !! c = if decide (c ∈ cols ∧ c ∉ columns df) then Some "" else r !! c.
Proof.
  induction cols as [|c0 cols IH]; intros df i r Hi.
  - exists r. split; [done|]. intros c. case_decide as Hc; [|done].
    destruct Hc as [Hc _]. by apply elem_of_nil in Hc.
  - destruct (add_col_rows df c0 i r Hi) as (r1 & Hr1 & Hl1).
    destruct (IH _ _ _ Hr1) as (r' & Hr' & Hl').
    exists r'. split; [exact Hr'|]. intros c.
    rewrite Hl', Hl1.
    pose proof (add_col_columns df c0 c) as Hcol.
    pose proof (elem_of_cons cols c c0) as Hcons.
    repeat case_decide; try done; exfalso; intuition (subst; tauto).
Qed.

Lemma ensure_cols_id cols : ∀ df,
  (∀ c, c ∈ cols → c ∈ columns df) → ensure_cols df cols = df.
Proof.
  induction cols as [|c0 cols IH]; intros df Hsub; [done|].
  unfold ensure_cols in *. simpl.
  assert (add_col df c0 = df) as ->.
  { unfold add_col. rewrite decide_True; [done|]. apply Hsub. by left. }
  apply IH. intros c Hc. apply Hsub. by right.
Qed.

Lemma merged_cell_str su r k v :
  su !! k = Some v → cell_str (merged_cell su r k) = v.
Proof. intros H. unfold merged_cell. rewrite H. by case_decide. Qed.

Lemma merged_cell_absent su r k : su !! k = None → merged_cell su r k = r !! k.
Proof. intros H. unfold merged_cell. by rewrite H. Qed.

(** The write loop changes the row [idx] only, cell by cell as
    [merged_cell] says, and leaves the columns as they are when every
    payload key is a column already. *)
Lemma write_loop df idx r su :
  rows df !! idx = Some r →
  (∀ k, is_Some (su !! k) → k ∈ columns df) →
  ∃ r', map_fold (write_cell idx) df su = mkDF (columns df) (<[idx:=r']> (rows df))
        ∧ ∀ k, r' !! k = merged_cell su r k.
Proof.
  intros Hr.
  apply (map_fold_weak_ind (λ dfr m,
    (∀ k, is_Some (m !! k) → k ∈ columns df) →
    ∃ r', dfr = mkDF (columns df) (<[idx:=r']> (rows df))
          ∧ ∀ k, r' !! k = merged_cell m r k)).
  - intros _. exists r. split.
    + rewrite list_insert_id by done. by destruct df.
    + intros k. unfold merged_cell. by rewrite lookup_empty.
  - intros i x m dfr Hmi IH Hsub.
    assert (idx < length (rows df)) as Hlt by (by eapply lookup_lt_Some).
    destruct IH as (r' & -> & Hl).
    { intros k Hk. apply Hsub. destruct (decide (i = k)) as [->|].
      - rewrite lookup_insert_eq. eauto.
      - by rewrite lookup_insert_ne. }
    assert (i ∈ columns df) as Hi.
    { apply Hsub. rewrite lookup_insert_eq. eauto. }
    unfold write_cell, at_get, at_set. simpl.
    destruct (decide (i ∈ columns df)) as [_|]; [|done].
    rewrite list_lookup_insert_eq by done. simpl.
    rewrite !str_or_empty, Hl, merged_cell_absent by done.
    case_decide as Hne.
    + exists (<[i:=x]> r'). split.
      * f_equal. apply list_eq. intros j.
        destruct (decide (idx = j)) as [<-|].
        -- rewrite list_lookup_alter_eq, !list_lookup_insert_eq;
             rewrite ?length_insert; done.
        -- by rewrite list_lookup_alter_ne, !list_lookup_insert_ne.
      * intros k. unfold merged_cell. destruct (decide (i = k)) as [<-|].
        -- rewrite !lookup_insert_eq. by rewrite decide_False.
        -- rewrite !lookup_insert_ne by done. apply Hl.
    + exists r'. split; [done|].
      intros k. unfold merged_cell. destruct (decide (i = k)) as [<-|].
      * rewrite lookup_insert_eq. rewrite decide_True; [|by destruct (decide (cell_str (r !! i) = x))].
        rewrite Hl. by apply merged_cell_absent.
      * rewrite lookup_insert_ne by done. apply Hl.
Qed.

Lemma concat_row_known df su :
  (∀ k, is_Some (su !! k) → k ∈ columns df) →
  concat_row df su = mkDF (columns df) (rows df ++ [su]).
Proof.
  intros Hsub. unfold concat_row. f_equal.
  rewrite <- (app_nil_r (columns df)) at 2. f_equal.
  apply elem_of_nil_inv. intros k [Hk Hin]%list_elem_of_filter.
  apply Hk, Hsub.
  apply list_elem_of_fmap in Hin as ([k' v] & -> & Hin).
  apply elem_of_map_to_list in Hin. simpl. eauto.
Qed.

Lemma key_value_Some (su : gmap string string) pk_col :
  key_value pk_col su ≠ "" → su !! pk_col = Some (key_value pk_col su).
Proof. unfold key_value. by destruct (su !! pk_col). Qed.

Lemma upsert_rows_columns df pk_col su :
  (∀ k, is_Some (su !! k) → k ∈ columns df) →
  columns (upsert_rows df pk_col su) = columns df.
Proof.
  intros Hsub. unfold upsert_rows.
  case_decide; [by rewrite concat_row_known|].
  destruct (find_row df pk_col _) as [[idx r]|] eqn:Hfind;
    [|by rewrite concat_row_known].
  apply list_find_Some in Hfind as (Hr & _ & _).
  destruct (write_loop df idx r su Hr Hsub) as (r' & -> & _). done.
Qed.

(** Merging the same sanitised payload a second time changes nothing,
    provided the payload carries a key. *)
Lemma upsert_rows_idem df pk_col su :
  (∀ k, is_Some (su !! k) → k ∈ columns df) →
  key_value pk_col su ≠ "" →
  upsert_rows (upsert_rows df pk_col su) pk_col su = upsert_rows df pk_col su.
Proof.
  intros Hsub Hpk. pose proof (key_value_Some su pk_col Hpk) as Hkey.
  unfold upsert_rows. rewrite !decide_False by done.
  set (pk := key_value pk_col su) in *.
  destruct (find_row df pk_col pk) as [[idx r]|] eqn:Hfind.
  - apply list_find_Some in Hfind as (Hr & Hp & Hleast).
    assert (idx < length (rows df)) as Hlt by (by eapply lookup_lt_Some).
    destruct (write_loop df idx r su Hr Hsub) as (r' & -> & Hl).
    assert (find_row (mkDF (columns df) (<[idx:=r']> (rows df))) pk_col pk
            = Some (idx, r')) as ->.
    { apply list_find_Some. simpl. split_and!.
      - by apply list_lookup_insert_eq.
      - rewrite Hl. by apply merged_cell_str.
      - intros j y Hj Hji. rewrite list_lookup_insert_ne in Hj by lia.
        by eapply Hleast. }
    destruct (write_loop (mkDF (columns df) (<[idx:=r']> (rows df))) idx r' su)
      as (r'' & -> & Hl'); simpl.
    { by apply list_lookup_insert_eq. }
    { done. }
    rewrite list_insert_insert_eq. do 2 f_equal.
    apply map_eq. intros k. rewrite Hl'. unfold merged_cell at 1.
    destruct (su !! k) as [v|] eqn:Hk; [|done].
    rewrite decide_True; [done|]. rewrite Hl. by apply merged_cell_str.
  - apply list_find_None in Hfind.
    rewrite concat_row_known by done.
    assert (find_row (mkDF (columns df) (rows df ++ [su])) pk_col pk
            = Some (length (rows df), su)) as ->.
    { apply list_find_Some. simpl. split_and!.
      - by apply list_lookup_middle.
      - by rewrite Hkey.
      - intros j y Hj Hji. rewrite lookup_app_l in Hj by done.
        eapply Forall_lookup_1 in Hfind; [|exact Hj]. done. }
    destruct (write_loop (mkDF (columns df) (rows df ++ [su])) (length (rows df)) su su)
      as (r' & -> & Hl); simpl.
    { by apply list_lookup_middle. }
    { done. }
    f_equal.
    assert (r' = su) as ->.
    { apply map_eq. intros k. rewrite Hl. unfold merged_cell.
      destruct (su !! k) as [v|]; [|done]. by rewrite decide_True. }
    apply list_insert_id. by apply list_lookup_middle.
Qed.

Lemma upsert_rows_frame df pk_col su c :
  (∀ k, is_Some (su !! k) → k ∈ columns df) →
  su !! c = None →
  column_kept c df (upsert_rows df pk_col su) ∧
  column_not_supplied c df (upsert_rows df pk_col su).
Proof.
  intros Hsub Hc.
  assert (column_kept c df (mkDF (columns df) (rows df ++ [su])) ∧
          column_not_supplied c df (mkDF (columns df) (rows df ++ [su]))) as Happ.
  { split.
    - intros i r Hi. exists r. split; [|done]. simpl. by apply lookup_app_l_Some.
    - intros i r' Hi Hge. simpl in Hi.
      apply lookup_app_Some in Hi as [Hi|[_ Hi]].
      + apply lookup_lt_Some in Hi. lia.
      + apply list_lookup_singleton_Some in Hi as [_ <-]. done. }
  unfold upsert_rows. case_decide; [by rewrite concat_row_known|].
  destruct (find_row df pk_col _) as [[idx r]|] eqn:Hfind;
    [|by rewrite concat_row_known].
  apply list_find_Some in Hfind as (Hr & _ & _).
  destruct (write_loop df idx r su Hr Hsub) as (r' & -> & Hl). split.
  - intros i r0 Hi. simpl. destruct (decide (idx = i)) as [<-|].
    + exists r'. split.
      * apply list_lookup_insert_eq. by eapply lookup_lt_Some.
      * rewrite Hl, merged_cell_absent by done. congruence.
    + exists r0. by rewrite list_lookup_insert_ne.
  - intros i r0 Hi Hge. simpl in Hi. apply lookup_lt_Some in Hi.
    rewrite length_insert in Hi. lia.
Qed.

Lemma upsert_rows_holds df pk_col su k v :
  (∀ k, is_Some (su !! k) → k ∈ columns df) →
  su !! k = Some v →
  holds_value k v (upsert_rows df pk_col su).
Proof.
  intros Hsub Hk.
  assert (holds_value k v (mkDF (columns df) (rows df ++ [su]))) as Happ.
  { exists (length (rows df)), su. simpl. split; [by apply list_lookup_middle|].
    by rewrite Hk. }
  unfold upsert_rows. case_decide; [by rewrite concat_row_known|].
  destruct (find_row df pk_col _) as [[idx r]|] eqn:Hfind;
    [|by rewrite concat_row_known].
  apply list_find_Some in Hfind as (Hr & _ & _).
  destruct (write_loop df idx r su Hr Hsub) as (r' & -> & Hl).
  exists idx, r'. simpl. split.
  - apply list_lookup_insert_eq. by eapply lookup_lt_Some.
  - rewrite Hl. by apply merged_cell_str.
Qed.

Lemma safe_updates_lookup updates allowed k :
  safe_updates updates allowed !! k =
    if decide (k ∈ allowed) then py_str <$> updates !! k else None.
Proof.
  unfold safe_updates. rewrite lookup_fmap, map_lookup_filter.
  destruct (updates !! k) as [v|]; simpl; [|by case_decide].
  case_decide; [by rewrite option_guard_True|by rewrite option_guard_False].
Qed.

Lemma elem_of_ensured allowed pk_col c :
  c ∈ ensured allowed pk_col ↔ c ∈ allowed ∨ c = pk_col.
Proof.
  unfold ensured.
  rewrite elem_of_elements, elem_of_list_to_set, elem_of_app, list_elem_of_singleton.
  done.
Qed.

Lemma safe_updates_known df updates allowed pk_col k :
  is_Some (safe_updates updates allowed !! k) →
  k ∈ columns (ensure_cols df (ensured allowed pk_col)).
Proof.
  rewrite safe_updates_lookup. case_decide; [|by intros [? ?]].
  intros _. apply ensure_cols_columns. right. apply elem_of_ensured. by left.
Qed.

Lemma inward_updates_known df (su : gmap string string) k :
  is_Some (su !! k) →
  k ∈ columns (ensure_cols df ((fst <$> map_to_list su) ++ ["InwardPK"])).
Proof.
  intros [v Hv]. apply ensure_cols_columns. right. apply elem_of_app. left.
  apply list_elem_of_fmap. exists (k, v). split; [done|].
  by apply elem_of_map_to_list.
Qed.

Ltac by_evaluation :=
  match goal with |- ?P => apply (bool_decide_unpack P); vm_compute; exact I end.

(** C2, as amended.  In the disposal merge [upsert_selected] a column
    [c] outside [allowed_cols] is never written: every existing row
    keeps its cell of [c], an appended row supplies no value for [c], and
    [c] is not added to the columns -- with one exception, the key
    column itself, which [ensure_cols] creates (blank) when the store
    lacks it.  The FIRC merge [upsert_by_inward] has no allowed-column
    list at all: every key of its payload becomes a column and its value
    is written into a row. *)
Theorem upsert_selected_writes_allowed_only df pk_col updates allowed c :
  c ∉ allowed →
  let df' := upsert_selected df pk_col updates allowed in
  (c ≠ pk_col ∨ c ∈ columns df → column_kept c df df') ∧
  column_not_supplied c df df' ∧
  (c ∈ columns df' → c ∈ columns df ∨ c = pk_col) ∧
  (∀ df0 payload k v, payload !! k = Some v →
     k ∈ columns (upsert_by_inward df0 payload) ∧
     holds_value k (py_str v) (upsert_by_inward df0 payload)).
Proof.
  intros Hc df'. subst df'. unfold upsert_selected.
  set (ens := ensured allowed pk_col).
  set (safe := safe_updates updates allowed).
  assert (safe !! c = None) as Hsafe.
  { subst safe. rewrite safe_updates_lookup. by rewrite decide_False. }
  pose proof (λ k, safe_updates_known df updates allowed pk_col k) as Hknown.
  destruct (upsert_rows_frame (ensure_cols df ens) pk_col safe c Hknown Hsafe)
    as [Hkept Hnot].
  split_and!.
  - intros Hcase i r Hi.
    destruct (ensure_cols_rows ens df i r Hi) as (r1 & Hr1 & Hl1).
    destruct (Hkept i r1 Hr1) as (r' & Hr' & Hl').
    exists r'. split; [done|]. rewrite Hl', Hl1.
    case_decide as Hd; [|done]. destruct Hd as [Hin Hnotin]. exfalso.
    apply elem_of_ensured in Hin. tauto.
  - intros i r' Hi Hge. apply (Hnot i r' Hi).
    by rewrite ensure_cols_length.
  - rewrite upsert_rows_columns by done.
    intros [?|Hin%elem_of_ensured]%ensure_cols_columns; tauto.
  - intros df0 payload k v Hk. unfold upsert_by_inward.
    set (su := py_str <$> payload).
    assert (su !! k = Some (py_str v)) as Hsu.
    { subst su. by rewrite lookup_fmap, Hk. }
    pose proof (λ k, inward_updates_known df0 su k) as Hknown0. split.
    + rewrite upsert_rows_columns by done. apply Hknown0. eauto.
    + by apply upsert_rows_holds.
Qed.

Lemma upsert_selected_writes_allowed_only_witness :
  ("Remark" ∉ ["InwardPK"; "AmountFCY"]) ∧
  column_kept "Remark" sample_df
    (upsert_selected sample_df "InwardPK" sample_payload ["InwardPK"; "AmountFCY"]).
Proof.
  split; [by_evaluation|].
  apply (upsert_selected_writes_allowed_only sample_df "InwardPK" sample_payload
           ["InwardPK"; "AmountFCY"] "Remark"); [by_evaluation|].
  left. discriminate.
Defined.

(** C2 fails as stated, twice over: the FIRC merge overwrites a column
    that is in no allowed list of either handler, and the disposal merge
    creates its key column although that column is not allowed. *)
Lemma merge_writes_outside_allowed :
  (("Remark" ∉ (FIRC_CANON ++ ALLOWED_TO_UPDATE)) ∧
   rows sample_df !! 0%nat = Some {[ "InwardPK" := "INW1"; "Remark" := "keep" ]} ∧
   rows (upsert_by_inward sample_df sample_payload) !! 0%nat
     = Some {[ "InwardPK" := "INW1"; "AmountFCY" := "100"; "Remark" := "overwritten" ]})
  ∧
  (("InwardPK" ∉ ["AmountFCY"]) ∧
   columns empty_df = [] ∧
   "InwardPK" ∈ columns (upsert_selected empty_df "InwardPK" sample_payload ["AmountFCY"])).
Proof.
  split; split_and!.
  - by_evaluation.
  - reflexivity.
  - vm_compute. reflexivity.
  - by_evaluation.
  - reflexivity.
  - by_evaluation.
Qed.

(** C3, as amended.  When the sanitised payload carries a non-empty key,
    merging it a second time yields the store the first merge yielded;
    this holds for the disposal merge and for the FIRC merge. *)
Theorem merge_idempotent_with_key df pk_col updates allowed df2 updates2 :
  key_value pk_col (safe_updates updates allowed) ≠ "" →
  key_value "InwardPK" (py_str <$> updates2) ≠ "" →
  upsert_selected (upsert_selected df pk_col updates allowed) pk_col updates allowed
    = upsert_selected df pk_col updates allowed
  ∧ upsert_by_inward (upsert_by_inward df2 updates2) updates2
    = upsert_by_inward df2 updates2.
Proof.
  intros Hkey Hkey2. split.
  - unfold upsert_selected.
    set (ens := ensured allowed pk_col).
    set (safe := safe_updates updates allowed) in *.
    pose proof (λ k, safe_updates_known df updates allowed pk_col k) as Hknown.
    rewrite (ensure_cols_id ens (upsert_rows _ _ _)).
    + by apply upsert_rows_idem.
    + intros c Hc. rewrite upsert_rows_columns by done.
      apply ensure_cols_columns. by right.
  - unfold upsert_by_inward.
    set (su := py_str <$> updates2) in *.
    pose proof (λ k, inward_updates_known df2 su k) as Hknown.
    rewrite (ensure_cols_id _ (upsert_rows _ _ _)).
    + by apply upsert_rows_idem.
    + intros c Hc. rewrite upsert_rows_columns by done.
      apply ensure_cols_columns. by right.
Qed.

Lemma merge_idempotent_with_key_witness :
  upsert_selected (upsert_selected sample_df "InwardPK" sample_payload ALLOWED_TO_UPDATE)
      "InwardPK" sample_payload ALLOWED_TO_UPDATE
    = upsert_selected sample_df "InwardPK" sample_payload ALLOWED_TO_UPDATE
  ∧ upsert_by_inward (upsert_by_inward empty_df sample_payload) sample_payload
    = upsert_by_inward empty_df sample_payload.
Proof.
  apply merge_idempotent_with_key; by_evaluation.
Defined.

(** C3 fails as stated: a payload without a key is appended by every
    merge, so merging it twice leaves two rows where one merge leaves
    one. *)
Lemma merge_not_idempotent_without_key :
  length (rows (upsert_selected empty_df "InwardPK" unkeyed_payload ALLOWED_TO_UPDATE)) = 1%nat
  ∧ length (rows (upsert_selected
               (upsert_selected empty_df "InwardPK" unkeyed_payload ALLOWED_TO_UPDATE)
               "InwardPK" unkeyed_payload ALLOWED_TO_UPDATE)) = 2%nat
  ∧ upsert_selected
      (upsert_selected empty_df "InwardPK" unkeyed_payload ALLOWED_TO_UPDATE)
      "InwardPK" unkeyed_payload ALLOWED_TO_UPDATE
    ≠ upsert_selected empty_df "InwardPK" unkeyed_payload ALLOWED_TO_UPDATE.
Proof.
  split_and!.
  - by vm_compute.
  - by vm_compute.
  - intros Heq. apply (f_equal (λ d, length (rows d))) in Heq.
  vm_compute in Heq. discriminate.
Qed.

(** C10.  When the key column is not among the allowed columns, the
    disposal merge drops the key from the sanitised payload, keys on the
    empty string, and appends the sanitised payload as a new row that has
    no value in the key column; every existing row keeps every cell of
    every column the store had. *)
Theorem upsert_selected_key_not_allowed df pk_col updates allowed :
  pk_col ∉ allowed →
  let safe := safe_updates updates allowed in
  let df' := upsert_selected df pk_col updates allowed in
  safe !! pk_col = None ∧
  key_value pk_col safe = "" ∧
  rows df' = rows (ensure_cols df (ensured allowed pk_col)) ++ [safe] ∧
  length (rows df') = S (length (rows df)) ∧
  (∀ c, c ∈ columns df → column_kept c df df').
Proof.
  intros Hpk safe df'.
  assert (safe !! pk_col = None) as Hnone.
  { subst safe. rewrite safe_updates_lookup. by rewrite decide_False. }
  assert (key_value pk_col safe = "") as Hkey.
  { unfold key_value. by rewrite Hnone. }
  assert (rows df' = rows (ensure_cols df (ensured allowed pk_col)) ++ [safe]) as Hrows.
  { subst df'. unfold upsert_selected, upsert_rows. fold safe.
    rewrite decide_True by done. done. }
  split_and!; try done.
  - rewrite Hrows, length_app, ensure_cols_length. simpl. lia.
  - intros c Hc i r Hi.
    destruct (ensure_cols_rows (ensured allowed pk_col) df i r Hi) as (r1 & Hr1 & Hl1).
    exists r1. split.
    + rewrite Hrows. by apply lookup_app_l_Some.
    + rewrite Hl1. rewrite decide_False; [done|]. tauto.
Qed.

Lemma upsert_selected_key_not_allowed_witness :
  ("InwardPK" ∉ ["AmountFCY"]) ∧
  rows (upsert_selected sample_df "InwardPK" sample_payload ["AmountFCY"])
    = [ {[ "InwardPK" := "INW1"; "Remark" := "keep"; "AmountFCY" := "" ]};
        {[ "AmountFCY" := "100" ]} ].
Proof.
  split; [by_evaluation|].
  destruct (upsert_selected_key_not_allowed sample_df "InwardPK" sample_payload
              ["AmountFCY"]) as (_ & _ & -> & _); [by_evaluation|].
  vm_compute. reflexivity.
Defined.

End StoreFacts.

Module RulesFacts.
Import Text Rules.

Example norm_spaces_wrapped_subject :
  _norm_spaces wrapped_subject = "fwd: disposal required for fcy inward 77"
  ∧ _norm_spaces plain_subject = "fwd: disposal required for fcy inward 77".
Proof. split; reflexivity. Qed.

Example categorize_samples :
  name <$> categorize (disposal_email wrapped_subject) = ["inward_remmittance_intimation"]
  ∧ name <$> categorize (yes_bank_email "FIRC_advice.PDF") = ["FIRC"]
  ∧ categorize (yes_bank_email "advice.PDF") = [].
Proof. split_and!; reflexivity. Qed.

Lemma is_space_lower_char c : is_space (lower_char c) = is_space c.
Proof. by destruct c as [[] [] [] [] [] [] [] []]. Qed.

Lemma lower_char_idem c : lower_char (lower_char c) = lower_char c.
Proof. by destruct c as [[] [] [] [] [] [] [] []]. Qed.

Lemma lower_idem s : lower (lower s) = lower s.
Proof. induction s as [|c s IH]; simpl; [done|]. by rewrite lower_char_idem, IH. Qed.

Lemma lower_char_space c c' :
  lower_char c = lower_char c' → is_space c = is_space c'.
Proof. intros H. by rewrite <- (is_space_lower_char c), H, is_space_lower_char. Qed.

(** Collapsing sees no difference between two texts that are the same
    up to case and whitespace runs, whatever precedes them. *)
Lemma collapse_noise s t :
  same_modulo_noise s t →
  ∀ b, collapse_from b (lower s) = collapse_from b (lower t).
Proof.
  induction 1 as [|c c' s t Hc Hl _ IH|c c' s t Hc Hc' _ IH
                  |c d s t Hc Hd _ IH|c d s t Hc Hd _ IH]; intros b.
  - done.
  - simpl. rewrite !is_space_lower_char, <- (lower_char_space c c' Hl), Hc.
    by rewrite Hl, IH.
  - simpl. rewrite !is_space_lower_char, Hc, Hc'. by rewrite IH.
  - rewrite <- IH. simpl. rewrite !is_space_lower_char, Hc, Hd. by destruct b.
  - rewrite IH. simpl. rewrite !is_space_lower_char, Hc, Hd. by destruct b.
Qed.

Lemma norm_spaces_noise s t :
  same_modulo_noise s t → _norm_spaces s = _norm_spaces t.
Proof.
  intros H. unfold _norm_spaces, collapse_spaces. by rewrite (collapse_noise s t H).
Qed.

Lemma norm_needles_noise ns ns' :
  Forall2 same_modulo_noise ns ns' → _norm_spaces <$> ns = _norm_spaces <$> ns'.
Proof.
  induction 1 as [|n n' ns ns' Hn _ IH]; [done|].
  csimpl. by rewrite (norm_spaces_noise n n' Hn), IH.
Qed.

Lemma contains_all_fmap hay ns :
  _contains_all hay ns
  = forallb (λ n, contains n (_norm_spaces hay)) (_norm_spaces <$> ns).
Proof.
  unfold _contains_all. induction ns as [|n ns IH]; [done|].
  csimpl. by rewrite IH.
Qed.

Lemma contains_all_noise s t ns ns' :
  same_modulo_noise s t → Forall2 same_modulo_noise ns ns' →
  _contains_all s ns = _contains_all t ns'.
Proof.
  intros Hs Hns. rewrite !contains_all_fmap.
  by rewrite (norm_spaces_noise s t Hs), (norm_needles_noise ns ns' Hns).
Qed.

Lemma same_modulo_noise_refl s : same_modulo_noise s s.
Proof.
  induction s as [|c s IH]; [constructor|].
  destruct (is_space c) eqn:Hc; [by apply noise_space|by apply noise_char].
Qed.

Lemma Forall2_noise_refl ns : Forall2 same_modulo_noise ns ns.
Proof. induction ns; constructor; auto using same_modulo_noise_refl. Qed.

Lemma no_space_lower s : no_space (lower s) = no_space s.
Proof.
  induction s as [|c s IH]; simpl; [done|]. by rewrite is_space_lower_char, IH.
Qed.

Lemma solid_lower n : solid (lower n) = solid n.
Proof. destruct n as [|c n]; [done|]. apply (no_space_lower (String c n)). Qed.

Lemma eqb_space_apart a c : is_space a = false → is_space c = true → Ascii.eqb a c = false.
Proof. intros Ha Hc. apply Ascii.eqb_neq. intros ->. congruence. Qed.

(** A prefix without whitespace is found, or not, in a text and in the
    text with its whitespace runs collapsed alike. *)
Lemma starts_with_collapse p : ∀ s,
  no_space p = true → starts_with p (collapse_from false s) = starts_with p s.
Proof.
  induction p as [|a p IH]; intros s Hp; [by destruct s|].
  simpl in Hp. apply andb_prop in Hp as [Ha%negb_true_iff Hp].
  destruct s as [|c s]; [done|]. simpl.
  destruct (is_space c) eqn:Hc.
  - simpl. rewrite (eqb_space_apart a " " Ha eq_refl).
    by rewrite (eqb_space_apart a c Ha Hc).
  - simpl. by rewrite IH.
Qed.

Lemma contains_cons_space n c s :
  solid n = true → is_space c = true → contains n (String c s) = contains n s.
Proof.
  intros Hn Hc. destruct n as [|a n]; [done|].
  simpl in Hn. apply andb_prop in Hn as [Ha%negb_true_iff _].
  change (starts_with (String a n) (String c s) || contains (String a n) s
          = contains (String a n) s).
  simpl. by rewrite (eqb_space_apart a c Ha Hc).
Qed.

Lemma contains_collapse n s : ∀ b,
  solid n = true → contains n (collapse_from b s) = contains n s.
Proof.
  induction s as [|c s IH]; intros b Hn; [done|].
  assert (no_space n = true) as Hns by (by destruct n).
  destruct (is_space c) eqn:Hc.
  - rewrite (contains_cons_space n c s Hn Hc). simpl. rewrite Hc.
    destruct b; [by apply IH|].
    rewrite (contains_cons_space n " " _ Hn eq_refl). by apply IH.
  - simpl collapse_from. rewrite Hc.
    change (starts_with n (String c (collapse_from false s))
            || contains n (collapse_from false s)
            = starts_with n (String c s) || contains n s).
    rewrite (IH false Hn). f_equal.
    rewrite <- (starts_with_collapse n (String c s) Hns).
    simpl collapse_from. by rewrite Hc.
Qed.

Lemma contains_lstrip n s : solid n = true → contains n (lstrip s) = contains n s.
Proof.
  intros Hn. induction s as [|c s IH]; [done|]. simpl lstrip.
  destruct (is_space c) eqn:Hc; [|done].
  by rewrite (contains_cons_space n c s Hn Hc).
Qed.

Lemma starts_with_rstrip p : ∀ s,
  no_space p = true → starts_with p (rstrip s) = starts_with p s.
Proof.
  induction p as [|a p IH]; intros s Hp; [by destruct s, (rstrip _)|].
  simpl in Hp. apply andb_prop in Hp as [Ha%negb_true_iff Hp].
  destruct s as [|c s]; [done|].
  specialize (IH s Hp). simpl rstrip.
  destruct (rstrip s) as [|d t] eqn:Hr.
  - destruct (is_space c) eqn:Hc; simpl.
    + by rewrite (eqb_space_apart a c Ha Hc).
    + by rewrite <- IH.
  - change (starts_with (String a p) (String c (String d t))
            = starts_with (String a p) (String c s)).
    simpl. simpl in IH. by rewrite <- IH.
Qed.

Lemma contains_rstrip n s : solid n = true → contains n (rstrip s) = contains n s.
Proof.
  intros Hn. assert (no_space n = true) as Hns by (by destruct n).
  induction s as [|c s IH]; [done|].
  change (contains n (String c s)) with (starts_with n (String c s) || contains n s).
  rewrite <- (starts_with_rstrip n (String c s) Hns), <- IH.
  simpl rstrip. destruct (rstrip s) as [|d t] eqn:Hr.
  - destruct (is_space c); [by destruct n|].
    by destruct n.
  - done.
Qed.

(** For a needle without whitespace, searching the lowercased text and
    searching the normalised text give the same. *)
Lemma contains_norm_spaces n s :
  solid n = true → contains n (_norm_spaces s) = contains n (lower s).
Proof.
  intros Hn. unfold _norm_spaces, strip, collapse_spaces.
  by rewrite contains_rstrip, contains_lstrip, contains_collapse.
Qed.

Lemma no_space_collapse s : ∀ b, no_space s = true → collapse_from b s = s.
Proof.
  induction s as [|c s IH]; intros b; simpl; [done|].
  intros [Hc%negb_true_iff Hs]%andb_prop. by rewrite Hc, (IH false Hs).
Qed.

Lemma no_space_strip s : no_space s = true → strip s = s.
Proof.
  intros Hs. unfold strip.
  assert (lstrip s = s) as ->.
  { destruct s as [|c s]; [done|]. simpl in *.
    apply andb_prop in Hs as [Hc%negb_true_iff _]. by rewrite Hc. }
  induction s as [|c s IH]; simpl in *; [done|].
  apply andb_prop in Hs as [Hc%negb_true_iff Hs].
  rewrite (IH Hs). destruct s; [by rewrite Hc|done].
Qed.

Lemma norm_spaces_solid n : solid n = true → _norm_spaces n = lower n.
Proof.
  intros Hn. assert (no_space (lower n) = true) as Hns.
  { rewrite no_space_lower. by destruct n. }
  unfold _norm_spaces, collapse_spaces.
  by rewrite no_space_collapse, no_space_strip.
Qed.

(** The attachment-name test only lowercases; for needles without
    whitespace that is the normalised comparison. *)
Lemma name_contains_normalised ctx fs :
  Forall (λ n, solid n = true) fs →
  attachment_name_contains ctx fs = normalised_name_contains ctx fs.
Proof.
  intros Hfs. unfold attachment_name_contains, normalised_name_contains.
  induction (Attachments ctx) as [|a l IH]; [done|]. csimpl. rewrite IH. f_equal.
  clear IH. induction Hfs as [|n fs Hn _ IH]; [done|]. csimpl. rewrite IH. f_equal.
  rewrite (norm_spaces_solid n Hn). apply eq_sym, contains_norm_spaces.
  by rewrite solid_lower.
Qed.

Lemma normalised_name_contains_noise ctx ctx' fs fs' :
  same_attachments_modulo_noise (Attachments ctx) (Attachments ctx') →
  Forall2 same_modulo_noise fs fs' →
  normalised_name_contains ctx fs = normalised_name_contains ctx' fs'.
Proof.
  intros Ha Hfs. unfold normalised_name_contains.
  induction Ha as [|a b l l' Hab _ IH]; [done|]. simpl. rewrite IH. f_equal.
  rewrite (norm_spaces_noise _ _ Hab).
  clear IH. induction Hfs as [|n n' fs fs' Hn _ IH]; [done|]. simpl.
  by rewrite IH, (norm_spaces_noise _ _ Hn).
Qed.

(** Equality with a text without whitespace sees no noise. *)
Lemma eqb_noise s t :
  same_modulo_noise s t →
  ∀ p, no_space p = true → String.eqb (lower s) p = String.eqb (lower t) p.
Proof.
  assert (∀ c u p, is_space c = true → no_space p = true →
            String.eqb (lower (String c u)) p = false) as Hsp.
  { intros c u [|a p] Hc Hp; [done|]. simpl in *.
    apply andb_prop in Hp as [Ha%negb_true_iff _].
    rewrite (proj2 (Ascii.eqb_neq (lower_char c) a)); [done|].
    intros Heq. rewrite <- Heq, is_space_lower_char in Ha. congruence. }
  induction 1 as [|c c' s t Hc Hl _ IH|c c' s t Hc Hc' _ IH
                  |c d s t Hc Hd _ IH|c d s t Hc Hd _ IH]; intros p Hp.
  - done.
  - destruct p as [|a p]; [done|]. simpl in *.
    apply andb_prop in Hp as [_ Hp]. by rewrite Hl, (IH p Hp).
  - by rewrite !Hsp.
  - rewrite <- (IH p Hp). by rewrite !Hsp.
  - rewrite (IH p Hp). by rewrite !Hsp.
Qed.

(** Neither does the test for an ending without whitespace: a run of
    whitespace stays a run, so no ending comes or goes. *)
Lemma ends_with_noise s t :
  same_modulo_noise s t →
  ∀ p, no_space p = true → ends_with p (lower s) = ends_with p (lower t).
Proof.
  intros H. pose proof (eqb_noise s t H) as Heq. revert Heq.
  induction H as [|c c' s t Hc Hl Hst IH|c c' s t Hc Hc' Hst IH
                  |c d s t Hc Hd Hst IH|c d s t Hc Hd Hst IH]; intros Heq p Hp.
  - done.
  - change (String.eqb (lower (String c s)) p || ends_with p (lower s)
            = String.eqb (lower (String c' t)) p || ends_with p (lower t)).
    rewrite (Heq p Hp), (IH (eqb_noise s t Hst) p Hp). done.
  - change (String.eqb (lower (String c s)) p || ends_with p (lower s)
            = String.eqb (lower (String c' t)) p || ends_with p (lower t)).
    rewrite (Heq p Hp), (IH (eqb_noise s t Hst) p Hp). done.
  - change (String.eqb (lower (String c (String d s))) p
            || ends_with p (lower (String d s)) = ends_with p (lower t)).
    rewrite (IH (eqb_noise _ _ Hst) p Hp).
    rewrite (Heq p Hp). rewrite <- (eqb_noise _ _ Hst p Hp).
    destruct (ends_with p (lower t)) eqn:He; [apply orb_true_r|].
    rewrite orb_false_r. rewrite <- (IH (eqb_noise _ _ Hst) p Hp) in He.
    change (String.eqb (lower (String d s)) p || ends_with p (lower s) = false) in He.
    by apply orb_false_elim in He as [-> _].
  - change (ends_with p (lower s)
            = String.eqb (lower (String c (String d t))) p
              || ends_with p (lower (String d t))).
    rewrite <- (IH (eqb_noise _ _ Hst) p Hp).
    rewrite <- (Heq p Hp). rewrite (eqb_noise _ _ Hst p Hp).
    destruct (ends_with p (lower s)) eqn:He; [by rewrite orb_true_r|].
    rewrite orb_false_r. rewrite (IH (eqb_noise _ _ Hst) p Hp) in He.
    change (String.eqb (lower (String d t)) p || ends_with p (lower t) = false) in He.
    by apply orb_false_elim in He as [-> _].
Qed.

Lemma has_attachment_noise ctx ctx' :
  same_attachments_modulo_noise (Attachments ctx) (Attachments ctx') →
  has_attachment ctx = has_attachment ctx'.
Proof. unfold has_attachment. by destruct 1. Qed.

Lemma ext_pdf_noise ctx ctx' :
  same_attachments_modulo_noise (Attachments ctx) (Attachments ctx') →
  attachment_ext_is ctx ["pdf"] false = attachment_ext_is ctx' ["pdf"] false.
Proof.
  intros Ha.
  change (existsb (λ f, ends_with ".pdf" f)
            ((λ a, lower (filename a)) <$> Attachments ctx) || false
          = existsb (λ f, ends_with ".pdf" f)
              ((λ a, lower (filename a)) <$> Attachments ctx') || false).
  f_equal.
  induction Ha as [|a b l l' Hab _ IH]; [done|]. csimpl. rewrite IH. f_equal.
  by apply ends_with_noise.
Qed.

Lemma no_space_noise s t :
  same_modulo_noise s t → no_space s = true → no_space t = true.
Proof.
  induction 1 as [|c c' s t Hc Hl _ IH|c c' s t Hc Hc' _ IH
                  |c d s t Hc Hd _ IH|c d s t Hc Hd _ IH]; simpl.
  - done.
  - intros [_ Hs]%andb_prop. rewrite <- (lower_char_space c c' Hl), Hc. by apply IH.
  - by rewrite Hc.
  - by rewrite Hc.
  - intros Hs. specialize (IH Hs). simpl in IH. by rewrite Hd in IH.
Qed.

Lemma solid_noise n n' : same_modulo_noise n n' → solid n = true → solid n' = true.
Proof.
  intros H Hn. assert (no_space n = true) as Hns by (by destruct n).
  pose proof (no_space_noise n n' H Hns) as Hns'.
  destruct H as [|c c' s t _ _ _|c c' s t Hc _ _|c d s t Hc _ _|c d s t _ _ _];
    try done; simpl in Hns; by rewrite Hc in Hns.
Qed.

Lemma categorize_noise ctx ctx' :
  same_email_modulo_noise ctx ctx' → categorize ctx = categorize ctx'.
Proof.
  intros (Hs & Hb & Ha). unfold categorize, _contains.
  rewrite (norm_spaces_noise _ _ Hs).
  rewrite !(contains_all_noise _ _ _ _ Hb (Forall2_noise_refl _)).
  rewrite (has_attachment_noise _ _ Ha), (ext_pdf_noise ctx ctx' Ha).
  rewrite (name_contains_normalised ctx ["firc"]) by (by repeat constructor).
  rewrite (name_contains_normalised ctx' ["firc"]) by (by repeat constructor).
  rewrite (normalised_name_contains_noise ctx ctx' _ _ Ha (Forall2_noise_refl _)).
  done.
Qed.

Ltac noise :=
  repeat first
    [ apply noise_nil
    | apply noise_longer_l; [reflexivity | reflexivity | ]
    | apply noise_longer_r; [reflexivity | reflexivity | ]
    | apply noise_space; [reflexivity | reflexivity | ]
    | apply noise_char; [reflexivity | reflexivity | ] ].

(** C5.  The subject test [_contains] and the body test
    [_contains_all] compare texts lowercased, with every run of
    whitespace collapsed to one space, on both sides: changing only the
    case or the whitespace runs of the text, or of the needles, changes
    no result.  The attachment-name test lowercases both sides; for
    needles without whitespace, as the one the rules pass ([firc]), its
    result is that of the comparison with both sides normalised, and it
    does not change with the case or the whitespace runs of the file
    names or with the case of the needles.  Neither does the test for
    the [pdf] extension.  Hence two emails that differ only in the case
    and the whitespace runs of the subject, the body and the attachment
    names are classified alike: the same rules match. *)
Theorem classifier_comparisons_modulo_noise s t n n' ns ns' ctx ctx' fs fs' :
  same_modulo_noise s t →
  same_modulo_noise n n' →
  Forall2 same_modulo_noise ns ns' →
  same_email_modulo_noise ctx ctx' →
  Forall (λ f, solid f = true) fs →
  Forall2 same_modulo_noise fs fs' →
  _contains s n = _contains t n'
  ∧ _contains_all s ns = _contains_all t ns'
  ∧ attachment_name_contains ctx fs = normalised_name_contains ctx fs
  ∧ attachment_name_contains ctx fs = attachment_name_contains ctx' fs'
  ∧ attachment_ext_is ctx ["pdf"] false = attachment_ext_is ctx' ["pdf"] false
  ∧ categorize ctx = categorize ctx'.
Proof.
  intros Hs Hn Hns Hctx Hfs Hfs'.
  assert (Forall (λ f, solid f = true) fs') as Hsolid'.
  { clear -Hfs Hfs'. induction Hfs' as [|f f' fs fs' Hf _ IH]; [done|].
    apply Forall_cons in Hfs as [Hsf Hfs]. constructor; [|by apply IH].
    by apply (solid_noise f f' Hf). }
  destruct Hctx as (Hsub & Hbody & Ha).
  split_and!.
  - unfold _contains. by rewrite (norm_spaces_noise s t Hs), (norm_spaces_noise n n' Hn).
  - by apply contains_all_noise.
  - by apply name_contains_normalised.
  - rewrite !name_contains_normalised by done.
    by apply normalised_name_contains_noise.
  - by apply ext_pdf_noise.
  - by apply categorize_noise.
Qed.

Lemma classifier_comparisons_modulo_noise_witness :
  _contains wrapped_subject "DISPOSAL REQUIRED FOR FCY INWARD"
    = _contains plain_subject "disposal required for  fcy inward" ∧
  attachment_name_contains (yes_bank_email "YES  FIRC advice.PDF") ["firc"]
    = attachment_name_contains (yes_bank_email "yes firc ADVICE.pdf") ["FIRC"] ∧
  categorize (yes_bank_email "YES  FIRC advice.PDF")
    = categorize (yes_bank_email "yes firc ADVICE.pdf").
Proof.
  destruct (classifier_comparisons_modulo_noise
              wrapped_subject plain_subject
              "DISPOSAL REQUIRED FOR FCY INWARD" "disposal required for  fcy inward"
              ["INW_NO"] ["inw_no"]
              (yes_bank_email "YES  FIRC advice.PDF")
              (yes_bank_email "yes firc ADVICE.pdf")
              ["firc"] ["FIRC"]) as (H1 & _ & _ & H4 & _ & H6).
  - unfold wrapped_subject, plain_subject. simpl. noise.
  - noise.
  - constructor; [noise | constructor].
  - split_and!; simpl.
    + apply same_modulo_noise_refl.
    + apply same_modulo_noise_refl.
    + constructor; [simpl; noise | constructor].
  - by repeat constructor.
  - constructor; [noise | constructor].
  - split_and!; assumption.
Defined.

(** The two sample mails of the witness are sent to the FIRC handler. *)
Example categorize_noisy_names :
  name <$> categorize (yes_bank_email "YES  FIRC advice.PDF") = ["FIRC"]
  ∧ name <$> categorize (yes_bank_email "yes firc ADVICE.pdf") = ["FIRC"].
Proof. split; reflexivity. Qed.

(** The attachment-name helper on its own normalises no whitespace: with
    a needle that holds whitespace, which no rule passes, it tells two
    file names apart that differ only in the length of a whitespace
    run. *)
Lemma attachment_name_whitespace_matters :
  same_modulo_noise "yes  firc.pdf" "yes firc.pdf" ∧
  attachment_name_contains (yes_bank_email "yes  firc.pdf") ["yes firc"] = false ∧
  attachment_name_contains (yes_bank_email "yes firc.pdf") ["yes firc"] = true.
Proof. split_and!; [noise | reflexivity | reflexivity]. Qed.

End RulesFacts.

Module RunnerFacts.
Import Eff Runner.

(** *** The poll *)

Lemma insert_by_ts_perm m l : insert_by_ts m l ≡ₚ m :: l.
Proof.
  induction l as [|x l IH]; simpl; [done|].
  case_match; [done|]. rewrite IH. apply Permutation_swap.
Qed.

Lemma sort_by_ts_perm l : sort_by_ts l ≡ₚ l.
Proof.
  induction l as [|x l IH]; simpl; [done|].
  by rewrite insert_by_ts_perm, IH.
Qed.

Lemma insert_by_ts_sorted m l :
  StronglySorted ts_le l → StronglySorted ts_le (insert_by_ts m l).
Proof.
  induction 1 as [|x l Hl IH Hx]; simpl.
  - repeat constructor.
  - case_match eqn:Hle.
    + apply Z.leb_le in Hle. constructor; [by constructor|].
      constructor; [done|].
      eapply Forall_impl; [exact Hx|]. unfold ts_le. intros; simpl in *; lia.
    + apply Z.leb_gt in Hle. constructor; [done|].
      rewrite insert_by_ts_perm. constructor; [|done]. unfold ts_le. lia.
Qed.

Lemma sort_by_ts_sorted l : StronglySorted ts_le (sort_by_ts l).
Proof.
  induction l as [|x l IH]; simpl; [constructor|].
  by apply insert_by_ts_sorted.
Qed.

(** C1.  Whatever the mail service returns for the coarse query, every
    message [list_new_messages] returns has an internal time stamp
    strictly greater than the watermark, the messages come in ascending
    order of that time stamp, and they are exactly the fetched messages
    that pass the millisecond test. *)
Theorem list_new_messages_strictly_after_sorted gmail w :
  let fetched := fetch_pages (get_message gmail)
                   (list_messages gmail (Z.max 0 (w / 1000))) in
  Forall (λ m, (its_of m > w)%Z) (list_new_messages gmail w) ∧
  StronglySorted (λ a b, (its_of a ≤ its_of b)%Z) (list_new_messages gmail w) ∧
  list_new_messages gmail w ≡ₚ filter (λ m, (its_of m > w)%Z) fetched.
Proof.
  intros fetched. unfold list_new_messages. fold fetched. split_and!.
  - rewrite sort_by_ts_perm. apply Forall_forall.
    by intros m [? _]%list_elem_of_filter.
  - apply sort_by_ts_sorted.
  - apply sort_by_ts_perm.
Qed.

Example poll_refilters_within_the_second :
  msg_id <$> list_new_messages sample_gmail 1700000000400 = ["c"; "a"].
Proof. reflexivity. Qed.

(** *** The dispatcher *)

Section Dispatch.
Context (World : Type).
Context (invoke : string → string → Msg → HandlerCtx → World → (unit + string) * World).

Abbreviation call_handler := (call_handler World invoke).
Abbreviation dispatch := (dispatch World invoke).
Abbreviation process_message := (process_message World invoke).

Lemma handled_ts_app l1 l2 : handled_ts (l1 ++ l2) = handled_ts l1 ++ handled_ts l2.
Proof.
  induction l1 as [|e l1 IH]; [done|]. destruct e; simpl; by rewrite ?IH.
Qed.

Lemma invoked_app l1 l2 : invoked (l1 ++ l2) = invoked l1 ++ invoked l2.
Proof.
  induction l1 as [|e l1 IH]; [done|]. destruct e; simpl; by rewrite ?IH.
Qed.

Lemma with_world_log_id (st : RunState World) : with_world_log st (world st) (log st) = st.
Proof. by destruct st. Qed.

(** Whatever the handler does, [call_handler] returns normally: an
    exception ends up in the log. *)
Lemma call_handler_spec hm hf msg ctx (st : RunState World) :
  call_handler hm hf msg ctx st =
    match invoke hm hf msg ctx (world st) with
    | (inl _, w) =>
        (inl tt, with_world_log st w (log st ++ [Invoked hm hf (msg_id msg)]))
    | (inr e, w) =>
        (inl tt, with_world_log st w
                   (log st ++ [Invoked hm hf (msg_id msg); HandlerError hm hf e]))
    end.
Proof.
  unfold Runner.call_handler, try_except, bind, emit, modify, run_handler. simpl.
  destruct (invoke hm hf msg ctx (world st)) as [[[]|e] w]; simpl.
  - done.
  - unfold with_world_log. simpl. by rewrite <- app_assoc.
Qed.

Lemma call_handler_returns hm hf msg ctx (st : RunState World) :
  ∃ w evs, call_handler hm hf msg ctx st
           = (inl tt, with_world_log st w (log st ++ Invoked hm hf (msg_id msg) :: evs))
           ∧ handled_ts evs = [] ∧ invoked evs = [].
Proof.
  rewrite call_handler_spec.
  destruct (invoke hm hf msg ctx (world st)) as [[[]|e] w]; eauto.
Qed.

Lemma dispatch_spec msg matches : ∀ st : RunState World,
  ∃ w evs, dispatch msg matches st = (inl tt, with_world_log st w (log st ++ evs))
           ∧ handled_ts evs = []
           ∧ invoked evs = handler_of <$> dispatched matches.
Proof.
  induction matches as [|m rest IH]; intros st.
  - exists (world st), []. simpl. unfold ret.
    by rewrite app_nil_r, with_world_log_id.
  - simpl. unfold bind at 1. unfold emit at 1, modify. unfold bind at 1.
    match goal with |- context [call_handler ?a ?b ?c ?d ?s] =>
      destruct (call_handler_returns a b c d s) as (w1 & ev1 & -> & Hh1 & Hi1) end.
    simpl. destruct (default true (Rules.stop_after_match m)).
    + exists w1, (Matched (Rules.name m) (Rules.handler_module m) (Rules.handler_function m)
                  :: Invoked (Rules.handler_module m) (Rules.handler_function m) (msg_id msg)
                  :: ev1 ++ [StopAfterMatch]).
      unfold emit, modify, with_world_log. simpl.
      rewrite handled_ts_app, invoked_app, Hh1, Hi1. simpl.
      split_and!; [|done..]. by rewrite <- !app_assoc.
    + match goal with |- context [dispatch msg rest ?s] =>
        destruct (IH s) as (w2 & ev2 & -> & Hh2 & Hi2) end.
      exists w2, (Matched (Rules.name m) (Rules.handler_module m) (Rules.handler_function m)
                  :: Invoked (Rules.handler_module m) (Rules.handler_function m) (msg_id msg)
                  :: ev1 ++ ev2).
      unfold with_world_log. simpl.
      rewrite handled_ts_app, invoked_app, Hh1, Hi1, Hh2, Hi2. simpl.
      split_and!; [|done..]. by rewrite <- !app_assoc.
Qed.

Lemma process_message_seen msg (st : RunState World) :
  msg_id msg ∈ processed st → process_message msg st = (inl tt, st).
Proof.
  intros Hin. unfold Runner.process_message, bind, gets.
  by rewrite bool_decide_eq_true_2.
Qed.

Lemma process_message_new msg (st : RunState World) :
  msg_id msg ∉ processed st →
  ∃ w evs,
    process_message msg st =
      (inl tt, mkRunState w (Z.max (last_ts st) (its_of msg))
                 ({[msg_id msg]} ∪ processed st)
                 (log st ++ NewMessage (msg_id msg) (its_of msg) :: evs)
                 (state_last_internal_ts st) (state_processed_ids st) (state_file st))
    ∧ handled_ts evs = []
    ∧ invoked evs = handler_of <$> dispatched (Rules.categorize (email_context msg)).
Proof.
  intros Hnew. unfold Runner.process_message, bind at 1, gets.
  rewrite bool_decide_eq_false_2 by done.
  unfold bind at 1. unfold emit at 1, modify. unfold bind at 1.
  unfold try_except, ret. unfold bind at 1.
  destruct (Rules.categorize (email_context msg)) as [|m rest] eqn:Hcat.
  - exists (world st), [NoRuleMatched]. unfold emit, modify, mark_processed, modify.
    simpl. split_and!; [|done..]. f_equal. f_equal.
    + case_decide; lia.
    + by rewrite <- app_assoc.
  - match goal with |- context [dispatch msg (m :: rest) ?s] =>
      destruct (dispatch_spec msg (m :: rest) s) as (w & evs & -> & Hh & Hi) end.
    exists w, evs. unfold mark_processed, modify, with_world_log. simpl.
    split_and!; [|done..]. f_equal. f_equal.
    + case_decide; lia.
    + by rewrite <- app_assoc.
Qed.

Lemma max_ts_max w a l : max_ts (Z.max w a) l = Z.max a (max_ts w l).
Proof. unfold max_ts. induction l as [|x l IH]; simpl; lia. Qed.

Lemma max_ts_ge w l : (w ≤ max_ts w l)%Z.
Proof. unfold max_ts. induction l as [|x l IH]; simpl; lia. Qed.

(** The loop over a batch returns normally, whatever the handlers do;
    the log tells which messages were taken up, and the watermark ends
    as the greatest of its old value and their time stamps. *)
Lemma process_batch_spec msgs : ∀ st : RunState World,
  ∃ st' evs,
    for_each msgs process_message st = (inl tt, st')
    ∧ log st' = log st ++ evs
    ∧ handled_ts evs = its_of <$> taken_up (processed st) msgs
    ∧ last_ts st' = max_ts (last_ts st) (handled_ts evs)
    ∧ processed st ⊆ processed st'
    ∧ state_last_internal_ts st' = state_last_internal_ts st
    ∧ state_processed_ids st' = state_processed_ids st
    ∧ state_file st' = state_file st.
Proof.
  induction msgs as [|msg msgs IH]; intros st.
  - exists st, []. simpl. by rewrite app_nil_r.
  - simpl. unfold bind. destruct (decide (msg_id msg ∈ processed st)) as [Hin|Hnew].
    + rewrite process_message_seen by done. apply IH.
    + destruct (process_message_new msg st Hnew) as (w & ev1 & -> & Hh1 & _).
      match goal with |- context [for_each msgs _ ?s] =>
        destruct (IH s) as (st' & ev2 & -> & Hlog & Hh2 & Hts & Hsub & ? & ? & ?) end.
      simpl in *.
      exists st', (NewMessage (msg_id msg) (its_of msg) :: ev1 ++ ev2).
      split_and!; try done.
      * by rewrite Hlog, <- app_assoc.
      * simpl. by rewrite handled_ts_app, Hh1, Hh2.
      * rewrite Hts. simpl. rewrite handled_ts_app, Hh1. simpl.
        apply max_ts_max.
      * set_solver.
Qed.

Lemma categorize_stops ctx :
  Forall (λ m, Rules.stop_after_match m = Some true) (Rules.categorize ctx).
Proof.
  unfold Rules.categorize. rewrite !Forall_app.
  split_and!;
    match goal with |- context [if ?b then _ else _] => destruct b end;
    repeat constructor.
Qed.

Lemma dispatched_categorize ctx :
  dispatched (Rules.categorize ctx) = take 1 (Rules.categorize ctx).
Proof.
  pose proof (categorize_stops ctx) as Hstop.
  destruct (Rules.categorize ctx) as [|m rest]; [done|].
  apply Forall_cons in Hstop as [Hm _]. simpl. by rewrite Hm.
Qed.

(** C6.  The loop over a batch returns normally and leaves as
    watermark the greatest of the old watermark and the internal time
    stamps of the messages it took up (those not in the processed set
    at their turn); the watermark never decreases.  A poll cycle does
    this for the messages the poll returned and, when there were any,
    records that watermark in the saved state.  No clock is read. *)
Theorem watermark_is_max_of_processed msgs gmail (st : RunState World) :
  (∃ st', for_each msgs process_message st = (inl tt, st')
      ∧ last_ts st' = max_ts (last_ts st) (its_of <$> taken_up (processed st) msgs)
      ∧ (last_ts st ≤ last_ts st')%Z)
  ∧
  (∃ st', poll_cycle World invoke gmail st = (inl tt, st')
      ∧ last_ts st'
        = max_ts (last_ts st)
            (its_of <$> taken_up (processed st) (list_new_messages gmail (last_ts st)))
      ∧ (last_ts st ≤ last_ts st')%Z
      ∧ (list_new_messages gmail (last_ts st) ≠ [] →
         state_last_internal_ts st' = last_ts st'
         ∧ ∃ ids, state_file st' = Some (last_ts st', ids))).
Proof.
  split.
  - destruct (process_batch_spec msgs st) as (st' & evs & Hrun & _ & Hh & Hts & _).
    exists st'. rewrite <- Hh, <- Hts. split_and!; [done..|].
    rewrite Hts. apply max_ts_ge.
  - unfold poll_cycle, bind at 1, gets. unfold bind at 1.
    destruct (process_batch_spec (list_new_messages gmail (last_ts st)) st)
      as (st' & evs & -> & _ & Hh & Hts & _).
    rewrite <- Hh, <- Hts.
    destruct (list_new_messages gmail (last_ts st)) as [|m ms] eqn:Hmsgs.
    + exists st'. unfold ret. split_and!; [done..| |done].
      rewrite Hts. apply max_ts_ge.
    + eexists. unfold persist, bind, modify, save_state, modify. simpl.
      split_and!; [done..| |].
      * rewrite Hts. apply max_ts_ge.
      * intros _. split; [done|]. eauto.
Qed.

(** C7.  Whatever the handler does, [call_handler] returns normally,
    and when the handler raises the exception is logged; the step for
    a message returns normally with the message's id in the processed
    set, the loop goes on with the remaining messages, and the message
    is skipped should it be delivered again. *)
Theorem handler_failure_does_not_abort msg rest (st : RunState World) :
  (∀ hm hf ctx (st0 : RunState World),
     ∃ st1, call_handler hm hf msg ctx st0 = (inl tt, st1)
       ∧ ∀ e w, invoke hm hf msg ctx (world st0) = (inr e, w) →
           st1 = with_world_log st0 w
                   (log st0 ++ [Invoked hm hf (msg_id msg); HandlerError hm hf e]))
  ∧
  (∃ st', process_message msg st = (inl tt, st')
      ∧ msg_id msg ∈ processed st'
      ∧ for_each (msg :: rest) process_message st
        = for_each rest process_message st'
      ∧ process_message msg st' = (inl tt, st')).
Proof.
  split.
  - intros hm hf ctx st0. rewrite call_handler_spec.
    destruct (invoke hm hf msg ctx (world st0)) as [[[]|e] w'] eqn:Hinv';
      eexists; (split; [done|]); intros e' w'' [=]; by subst.
  - destruct (decide (msg_id msg ∈ processed st)) as [Hin|Hnew].
    + exists st. simpl. unfold bind. by rewrite process_message_seen.
    + destruct (process_message_new msg st Hnew) as (w & evs & Hrun & _).
      eexists. simpl. unfold bind. rewrite Hrun.
      assert (msg_id msg ∈ ({[msg_id msg]} ∪ processed st)) as Hin.
      { apply elem_of_union. left. by apply elem_of_singleton. }
      split_and!; [done..|]. by apply process_message_seen.
Qed.

(** C9.  Every match the classifier builds asks to stop, so the step
    for a message enters at most one handler: the one of the first
    match, if the classifier found any. *)
Theorem at_most_one_handler_per_message msg (st : RunState World) :
  (∀ ctx m, m ∈ Rules.categorize ctx → Rules.stop_after_match m = Some true)
  ∧
  (∃ st' evs, process_message msg st = (inl tt, st')
      ∧ log st' = log st ++ evs
      ∧ length (invoked evs) ≤ 1
      ∧ (msg_id msg ∉ processed st →
         invoked evs = handler_of <$> take 1 (Rules.categorize (email_context msg)))).
Proof.
  split.
  - intros ctx m Hm. pose proof (categorize_stops ctx) as Hstop.
    rewrite Forall_forall in Hstop. by apply Hstop.
  - destruct (decide (msg_id msg ∈ processed st)) as [Hin|Hnew].
    + exists st, []. rewrite process_message_seen by done.
      rewrite app_nil_r. split_and!; [done..|simpl; lia|done].
    + destruct (process_message_new msg st Hnew) as (w & evs & -> & _ & Hi).
      rewrite dispatched_categorize in Hi.
      eexists _, (NewMessage (msg_id msg) (its_of msg) :: evs).
      simpl. rewrite Hi. split_and!; [done..| |done].
      rewrite length_fmap, length_take. lia.
Qed.

End Dispatch.

Lemma handler_failure_does_not_abort_witness :
  ∃ st', process_message unit failing_handler sample_msg fresh_state = (inl tt, st')
    ∧ msg_id sample_msg ∈ processed st'
    ∧ for_each [sample_msg; sample_msg] (process_message unit failing_handler) fresh_state
      = for_each [sample_msg] (process_message unit failing_handler) st'
    ∧ process_message unit failing_handler sample_msg st' = (inl tt, st').
Proof.
  exact (proj2 (handler_failure_does_not_abort unit failing_handler
                  sample_msg [sample_msg] fresh_state)).
Defined.

Lemma at_most_one_handler_per_message_witness :
  ∃ st' evs, process_message unit failing_handler sample_msg fresh_state = (inl tt, st')
    ∧ log st' = log fresh_state ++ evs
    ∧ length (invoked evs) ≤ 1
    ∧ (msg_id sample_msg ∉ processed fresh_state →
       invoked evs
       = handler_of <$> take 1 (Rules.categorize (email_context sample_msg))).
Proof.
  exact (proj2 (at_most_one_handler_per_message unit failing_handler
                  sample_msg fresh_state)).
Defined.

Example failing_handler_run :
  process_message unit failing_handler sample_msg fresh_state
  = (inl tt,
     mkRunState tt 1700000000001%Z {["m2"]}
       [ NewMessage "m2" 1700000000001%Z;
         Matched "inward_remmittance_intimation" "handlers.disposal_handler" "handle";
         Invoked "handlers.disposal_handler" "handle" "m2";
         HandlerError "handlers.disposal_handler" "handle" "KeyError: 'payload'";
         StopAfterMatch ]
       1700000000000%Z [] None).
Proof. vm_compute. reflexivity. Qed.

End RunnerFacts.

Module RetryFacts.
Import Eff Text Retry.

Lemma starts_with_take_str n : ∀ s, starts_with (take_str n s) s = true.
Proof.
  induction n as [|n IH]; intros [|c s]; simpl; try done.
  by rewrite Ascii.eqb_refl, IH.
Qed.

Lemma length_take_str n : ∀ s,
  String.length (take_str n s) = min n (String.length s).
Proof. induction n as [|n IH]; intros [|c s]; simpl; try done. by rewrite IH. Qed.

Lemma take_str_take_str n : ∀ m s, take_str n (take_str m s) = take_str (min n m) s.
Proof.
  induction n as [|n IH]; intros [|m] [|c s]; simpl; try done. by rewrite IH.
Qed.

Lemma take_str_all s : ∀ n, String.length s ≤ n → take_str n s = s.
Proof.
  induction s as [|c s IH]; intros [|n] Hn; simpl in *; try done; try lia.
  rewrite IH; [done|lia].
Qed.

Lemma range_ok_spec f len : ∀ lo z,
  range_ok f lo len = true → (lo ≤ z < lo + Z.of_nat len)%Z → f z = true.
Proof.
  induction len as [|len IH]; intros lo z; simpl; [lia|].
  intros [Hlo Hrest]%andb_prop Hz.
  destruct (decide (z = lo)) as [->|Hne]; [done|].
  apply (IH (lo + 1)%Z); [done|lia].
Qed.

(** The three cut lengths of every text of up to 20000 characters, in
    binary64 arithmetic. *)
Lemma cut_table : range_ok cut_ok 0 (Z.to_nat 20001) = true.
Proof. vm_compute. reflexivity. Qed.

Lemma shrunk_cut txt factor :
  shrunk txt factor
  = take_str (Z.to_nat (cut_length (Z.of_nat (String.length txt)) factor)) txt.
Proof. reflexivity. Qed.

Lemma shrunk_shape txt :
  (Z.of_nat (String.length txt) ≤ 20000)%Z →
  shrunk txt 1.0 = txt
  ∧ String.length (shrunk txt 0.6) = 3 * String.length txt / 5
  ∧ 7 * String.length txt / 20 - 1 ≤ String.length (shrunk txt 0.35)
  ∧ String.length (shrunk txt 0.35) ≤ 7 * String.length txt / 20.
Proof.
  intros Hlen. set (n := String.length txt) in *.
  assert (cut_ok (Z.of_nat n) = true) as Hok.
  { apply (range_ok_spec cut_ok (Z.to_nat 20001) 0); [apply cut_table|lia]. }
  unfold cut_ok in Hok.
  apply andb_prop in Hok as [[[H1 H2]%andb_prop H3]%andb_prop H4].
  apply Z.eqb_eq in H1, H2. apply Z.leb_le in H3, H4.
  rewrite !shrunk_cut. fold n. rewrite H1, H2.
  assert (Z.of_nat (3 * n / 5) = 3 * Z.of_nat n / 5)%Z as E6.
  { rewrite Nat2Z.inj_div, Nat2Z.inj_mul. done. }
  assert (Z.of_nat (7 * n / 20) = 7 * Z.of_nat n / 20)%Z as E35.
  { rewrite Nat2Z.inj_div, Nat2Z.inj_mul. done. }
  assert (3 * n / 5 ≤ n) as Hle6.
  { apply Nat.Div0.div_le_upper_bound. lia. }
  assert (7 * n / 20 ≤ n) as Hle35.
  { apply Nat.Div0.div_le_upper_bound. lia. }
  split_and!.
  - apply take_str_all. lia.
  - rewrite length_take_str. lia.
  - rewrite length_take_str. lia.
  - rewrite length_take_str. lia.
Qed.

Lemma shrunk_prefix txt factor :
  starts_with (shrunk txt factor) txt = true
  ∧ String.length (shrunk txt factor) ≤ String.length txt.
Proof.
  unfold shrunk. split; [apply starts_with_take_str|].
  rewrite length_take_str. lia.
Qed.

Section Loop.
Context (Service Json : Type).
Context (create : string → Service → (string + string) * Service).
Context (loads : string → Json + string).

Abbreviation attempt_call := (attempt_call Service Json create loads).
Abbreviation retry_loop := (retry_loop Service Json create loads).

Lemma attempt_call_spec use_txt (env : Env Service) :
  attempt_call use_txt env =
    match create use_txt (service env) with
    | (inl content, s) =>
        match loads content with
        | inl j => (inl j, mkEnv s (trace env ++ [Create use_txt]))
        | inr e => (inr e, mkEnv s (trace env ++ [Create use_txt]))
        end
    | (inr e, s) => (inr e, mkEnv s (trace env ++ [Create use_txt]))
    end.
Proof.
  unfold Retry.attempt_call, bind, emit, modify, request, parse. simpl.
  destruct (create use_txt (service env)) as [[content|e] s]; [|done].
  by destruct (loads content).
Qed.

(** A request that succeeds ends the loop: nothing is done after it. *)
Lemma retry_loop_success what trimmed attempt rest (env env1 : Env Service) j :
  attempt_call (shrunk trimmed (factor_of attempt)) env = (inl j, env1) →
  retry_loop what trimmed (attempt :: rest) env = (inl j, env1).
Proof. intros H. simpl. unfold try_except. by rewrite H. Qed.

(** A rate-limited request is followed by the sleep and the next attempt. *)
Lemma retry_loop_rate_limited what trimmed attempt rest (env env1 : Env Service) e :
  attempt_call (shrunk trimmed (factor_of attempt)) env = (inr e, env1) →
  is_rate_limit e = true →
  retry_loop what trimmed (attempt :: rest) env
  = retry_loop what trimmed rest
      (mkEnv (service env1) (trace env1 ++ [Sleep (2 * (Z.of_nat attempt + 1))])).
Proof.
  intros H Hrl. simpl. unfold try_except. rewrite H, Hrl.
  unfold bind, emit, modify. done.
Qed.

(** Any other failure is raised again at once. *)
Lemma retry_loop_fatal what trimmed attempt rest (env env1 : Env Service) e :
  attempt_call (shrunk trimmed (factor_of attempt)) env = (inr e, env1) →
  is_rate_limit e = false →
  retry_loop what trimmed (attempt :: rest) env = (inr e, env1).
Proof. intros H Hrl. simpl. unfold try_except. by rewrite H, Hrl. Qed.

Lemma attempt_call_trace use_txt (env : Env Service) :
  trace (attempt_call use_txt env).2 = trace env ++ [Create use_txt].
Proof.
  rewrite attempt_call_spec.
  destruct (create use_txt (service env)) as [[content|e] s]; [|done].
  by destruct (loads content).
Qed.

Lemma requests_app l1 l2 : requests (l1 ++ l2) = requests l1 ++ requests l2.
Proof. induction l1 as [|e l1 IH]; [done|]. destruct e; simpl; by rewrite ?IH. Qed.

(** What the loop does is a prefix of the script; it makes at most one
    request per attempt; and when it returns a result, the last thing it
    did was the request that succeeded. *)
Lemma retry_loop_trace what trimmed todo : ∀ env : Env Service,
  ∃ new,
    trace (retry_loop what trimmed todo env).2 = trace env ++ new
    ∧ new `prefix_of` script trimmed todo
    ∧ length (requests new) ≤ length todo
    ∧ (∀ j, (retry_loop what trimmed todo env).1 = inl j →
         ∃ pre t, new = pre ++ [Create t] ∧ length (requests pre) < length todo).
Proof.
  induction todo as [|attempt rest IH]; intros env.
  - exists []. simpl. rewrite app_nil_r. split_and!; [done..|]. by intros j [=].
  - pose proof (attempt_call_trace (shrunk trimmed (factor_of attempt)) env) as Htr.
    destruct (attempt_call (shrunk trimmed (factor_of attempt)) env)
      as [[j|e] env1] eqn:Hcall; simpl in Htr.
    + rewrite (retry_loop_success _ _ _ _ _ _ _ Hcall). simpl.
      exists [Create (shrunk trimmed (factor_of attempt))].
      split_and!; [done| |simpl; lia|].
      * eexists. simpl. reflexivity.
      * intros _ _. exists [], (shrunk trimmed (factor_of attempt)). simpl.
        split; [done|lia].
    + destruct (is_rate_limit e) eqn:Hrl.
      * rewrite (retry_loop_rate_limited _ _ _ _ _ _ _ Hcall Hrl).
        match goal with |- context [retry_loop what trimmed rest ?env2] =>
          destruct (IH env2) as (new & Hnew & [k Hpre] & Hlen & Hok) end.
        simpl in Hnew.
        exists (Create (shrunk trimmed (factor_of attempt))
                :: Sleep (2 * (Z.of_nat attempt + 1)) :: new).
        split_and!.
        -- rewrite Hnew, Htr, <- !app_assoc. done.
        -- exists k. simpl. by rewrite Hpre.
        -- simpl. lia.
        -- intros j Hj. destruct (Hok j Hj) as (pre & t & -> & Hlt).
           exists (Create (shrunk trimmed (factor_of attempt))
                   :: Sleep (2 * (Z.of_nat attempt + 1)) :: pre), t.
           split; [done|]. simpl. lia.
      * rewrite (retry_loop_fatal _ _ _ _ _ _ _ Hcall Hrl). simpl.
        exists [Create (shrunk trimmed (factor_of attempt))].
        split_and!; [done| |simpl; lia|by intros j [=]].
        eexists. simpl. reflexivity.
Qed.


End Loop.

(** With an API key set, both handlers' calls are this loop, over the
    text cut to [OPENAI_MAX_CHARS] or over the keyword window. *)
Lemma call_openai_runs_loop (Service Json : Type) create loads window
    key max_chars text :
  key ≠ "" →
  call_openai_firc Service Json create loads (Some key) max_chars text
  = retry_loop Service Json create loads "FIRC extraction"
      (take_str max_chars text) (seq 0 attempts)
  ∧ call_openai_financials Service Json create loads window (Some key) max_chars text
    = retry_loop Service Json create loads "disposal financials"
        (window text 2 max_chars) (seq 0 attempts).
Proof. by destruct key. Qed.


(** The cut lengths are those of binary64 arithmetic: 180 characters
    times 0.35 is 62.99999999999999, hence 62 characters, not 63. *)
Example shrunk_lengths :
  String.length sample_text = 180
  ∧ String.length (shrunk sample_text 1.0%float) = 180
  ∧ String.length (shrunk sample_text 0.6%float) = 108
  ∧ String.length (shrunk sample_text 0.35%float) = 62.
Proof. by vm_compute. Qed.

End RetryFacts.

Module PasswordsFacts.
Import Text Passwords.

Lemma elem_of_dedup_from l : ∀ (seen : gset string) x,
  x ∈ dedup_from seen l ↔ x ∈ l ∧ x ∉ seen.
Proof.
  induction l as [|p l IH]; intros seen x; simpl.
  - rewrite elem_of_nil. tauto.
  - case_decide as Hp.
    + rewrite IH, elem_of_cons. split; [tauto|].
      intros [[->|?] ?]; tauto.
    + rewrite !elem_of_cons, IH, elem_of_union, elem_of_singleton.
      split; [intros [->|?]; tauto|].
      intros [[->|?] ?]; [by left|]. destruct (decide (x = p)); tauto.
Qed.

Lemma NoDup_dedup_from l : ∀ seen : gset string, NoDup (dedup_from seen l).
Proof.
  induction l as [|p l IH]; intros seen; simpl; [constructor|].
  case_decide; [apply IH|]. constructor; [|apply IH].
  rewrite elem_of_dedup_from, elem_of_union, elem_of_singleton. tauto.
Qed.

Lemma dedup_from_union l : ∀ s1 s2 : gset string,
  dedup_from (s1 ∪ s2) l = filter (λ x, x ∉ s1) (dedup_from s2 l).
Proof.
  induction l as [|p l IH]; intros s1 s2; simpl; [done|].
  destruct (decide (p ∈ s2)) as [H2|H2].
  - rewrite decide_True by (apply elem_of_union; tauto). apply IH.
  - destruct (decide (p ∈ s1)) as [H1|H1].
    + rewrite decide_True by (apply elem_of_union; tauto).
      rewrite filter_cons_False by tauto. rewrite <- IH. f_equal.
      apply set_eq. intros y. rewrite !elem_of_union, elem_of_singleton.
      split; [tauto|]. intros [?|[->|?]]; tauto.
    + rewrite decide_False by (rewrite elem_of_union; tauto).
      rewrite filter_cons_True by done. f_equal. rewrite <- IH. f_equal.
      apply set_eq. intros y. rewrite !elem_of_union, elem_of_singleton. tauto.
Qed.

Lemma dedup_from_app l1 : ∀ (seen : gset string) l2,
  dedup_from seen (l1 ++ l2)
  = dedup_from seen l1 ++ dedup_from (list_to_set l1 ∪ seen) l2.
Proof.
  induction l1 as [|p l1 IH]; intros seen l2; simpl.
  - f_equal. apply set_eq. intros y. rewrite elem_of_union, elem_of_empty. tauto.
  - case_decide as Hp.
    + rewrite IH. do 2 f_equal. apply set_eq. intros y.
      rewrite !elem_of_union, elem_of_singleton. split; [tauto|].
      intros [[->|?]|?]; tauto.
    + simpl. rewrite IH. do 3 f_equal. apply set_eq. intros y.
      rewrite !elem_of_union, elem_of_singleton. tauto.
Qed.

Lemma dedup_from_NoDup l : ∀ seen : gset string,
  NoDup l → (∀ x, x ∈ l → x ∉ seen) → dedup_from seen l = l.
Proof.
  induction l as [|p l IH]; intros seen Hnd Hfresh; simpl; [done|].
  apply NoDup_cons in Hnd as [Hp Hnd].
  rewrite decide_False by (apply Hfresh; by left). f_equal.
  apply IH; [done|]. intros x Hx.
  rewrite elem_of_union, elem_of_singleton. intros [->|Hs]; [done|].
  by apply (Hfresh x); [right|].
Qed.

Lemma dedup_idem l : dedup (dedup l) = dedup l.
Proof.
  unfold dedup. apply dedup_from_NoDup; [apply NoDup_dedup_from|].
  intros x _. apply not_elem_of_empty.
Qed.

(** Deduplicating a second time, after more candidates were put in
    front, is deduplicating the whole list once. *)
Lemma dedup_app_dedup l1 l2 : dedup (l1 ++ dedup l2) = dedup (l1 ++ l2).
Proof.
  unfold dedup. rewrite !dedup_from_app, !dedup_from_union.
  by rewrite (dedup_idem l2 : dedup_from ∅ (dedup_from ∅ l2) = _).
Qed.

(** A string stands in the result where its first occurrence puts it:
    after the distinct strings that occur before it, and nowhere else. *)
Lemma dedup_first_occurrence pre x post :
  x ∉ pre →
  ∃ post', dedup (pre ++ x :: post) = dedup pre ++ x :: post' ∧ x ∉ post'.
Proof.
  intros Hx. unfold dedup. rewrite dedup_from_app. simpl.
  rewrite decide_False.
  - eexists. split; [done|].
    rewrite elem_of_dedup_from, !elem_of_union, elem_of_singleton. tauto.
  - rewrite elem_of_union, elem_of_list_to_set, elem_of_empty. tauto.
Qed.

Lemma elem_of_flat_map_list {A B} (f : A → list B) (l : list A) (x : B) :
  x ∈ flat_map f l ↔ ∃ y, y ∈ l ∧ x ∈ f y.
Proof.
  rewrite list_elem_of_In, in_flat_map.
  split; intros (y & ? & ?); exists y; by rewrite ?list_elem_of_In in *.
Qed.

Lemma elem_of_override direct_pw x :
  x ∈ override direct_pw ↔ direct_pw = Some x ∧ x ≠ "".
Proof.
  destruct direct_pw as [[|c pw]|]; simpl.
  - rewrite elem_of_nil. split; [done|]. by intros [[= <-] ?].
  - rewrite list_elem_of_singleton. split; [by intros ->|]. by intros [[= <-] _].
  - rewrite elem_of_nil. split; [done|]. by intros [? _].
Qed.

Lemma env_get_Some env name v :
  env_get env name = Some v ↔ env !! name = Some v ∧ v ≠ "".
Proof.
  unfold env_get. destruct (env !! name) as [[|c w]|]; split; try done.
  - by intros [[= <-] ?].
  - by intros [= <-].
  - by intros [[= <-] _].
  - by intros [? _].
Qed.

Lemma elem_of_global_default env x :
  x ∈ global_default env
  ↔ ∃ v, env !! "PDF_PASSWORD" = Some v ∧ v ≠ "" ∧ x = strip v.
Proof.
  unfold global_default.
  destruct (env_get env "PDF_PASSWORD") as [v|] eqn:Hv.
  - apply env_get_Some in Hv as [Hv Hne]. rewrite list_elem_of_singleton. split.
    + intros ->. by exists v.
    + intros (w & Hw & _ & ->). congruence.
  - rewrite elem_of_nil. split; [done|]. intros (w & Hw & Hne & _).
    assert (env_get env "PDF_PASSWORD" = Some w) as H by (by apply env_get_Some).
    congruence.
Qed.

Lemma elem_of_named_defaults env x :
  x ∈ named_defaults env
  ↔ ∃ bank_env v,
      bank_env ∈ ["YESBANK_PDF_PASSWORD"; "HDFCBANK_PDF_PASSWORD"; "ICICI_PDF_PASSWORD"]
      ∧ env !! bank_env = Some v ∧ v ≠ "" ∧ x = strip v.
Proof.
  unfold named_defaults. rewrite elem_of_flat_map_list. split.
  - intros (b & Hb & Hx). exists b.
    destruct (env_get env b) as [v|] eqn:Hv; [|by apply elem_of_nil in Hx].
    apply env_get_Some in Hv as [Hv Hne]. apply list_elem_of_singleton in Hx.
    by exists v.
  - intros (b & v & Hb & Hv & Hne & ->). exists b. split; [done|].
    rewrite (proj2 (env_get_Some env b v)) by done. by left.
Qed.

Lemma elem_of_list_default env x :
  x ∈ list_default env
  ↔ ∃ multi piece, env !! "PDF_PASSWORDS" = Some multi
                   ∧ piece ∈ split_comma multi ∧ x = strip piece ∧ x ≠ "".
Proof.
  unfold list_default, stripped_nonempty.
  destruct (env_get env "PDF_PASSWORDS") as [multi|] eqn:Hm.
  - apply env_get_Some in Hm as [Hm Hne].
    rewrite list_elem_of_filter, list_elem_of_fmap. split.
    + intros [Hx (piece & -> & Hp)]. by exists multi, piece.
    + intros (m & piece & Hm' & Hp & -> & Hx). split; [done|].
      exists piece. split; [done|]. congruence.
  - rewrite elem_of_nil. split; [done|].
    intros (m & piece & Hm' & Hp & -> & Hx).
    destruct m as [|c m].
    + simpl in Hp. apply list_elem_of_singleton in Hp as ->. done.
    + assert (env_get env "PDF_PASSWORDS" = Some (String c m)) as H
        by (by apply env_get_Some).
      congruence.
Qed.

Lemma elem_of_from_table table text_l x :
  x ∈ from_table table text_l ↔ table_hit table text_l x.
Proof.
  unfold from_table, table_hit. rewrite elem_of_flat_map_list. split.
  - intros ([k vals] & Hk & Hx). simpl in Hx.
    destruct (contains (lower k) text_l) eqn:Hc; [|by apply elem_of_nil in Hx].
    destruct vals as [vals|]; [|by apply elem_of_nil in Hx]. by exists k, vals.
  - intros (k & vals & Hk & Hc & Hx). exists (k, Some vals). split; [done|].
    simpl. by rewrite Hc.
Qed.

Lemma elem_of_lookup_table file sender subject x :
  x ∈ lookup_table file sender subject
  ↔ ∃ j ss, file = Some j ∧ senders j = Some ss
      ∧ (table_hit ss (lower sender) x
         ∨ ∃ ds, domains j = Some ds
             ∧ (table_hit ds (lower sender) x
                ∨ ∃ sb, subjects j = Some sb ∧ table_hit sb (lower subject) x)).
Proof.
  unfold lookup_table. destruct file as [j|].
  2:{ rewrite elem_of_nil. split; [done|]. by intros (? & ? & ? & _). }
  destruct (senders j) as [ss|] eqn:Hss.
  2:{ rewrite elem_of_nil. split; [done|]. by intros (? & ? & [= <-] & ? & _); congruence. }
  rewrite elem_of_app, elem_of_from_table. split.
  - intros [Hs|Hrest]; exists j, ss; (split_and!; [done..|]); [by left|]. right.
    destruct (domains j) as [ds|]; [|by apply elem_of_nil in Hrest].
    exists ds. split; [done|].
    apply elem_of_app in Hrest as [Hd|Hrest]; [left; by apply elem_of_from_table|].
    right. destruct (subjects j) as [sb|]; [|by apply elem_of_nil in Hrest].
    exists sb. split; [done|]. by apply elem_of_from_table.
  - intros (j' & ss' & [= <-] & Hss' & Hcases). rewrite Hss in Hss'.
    injection Hss' as <-. destruct Hcases as [?|(ds & Hds & Hcases)]; [by left|].
    right. rewrite Hds. apply elem_of_app.
    destruct Hcases as [?|(sb & Hsb & ?)]; [left; by apply elem_of_from_table|].
    right. rewrite Hsb. by apply elem_of_from_table.
Qed.

(** C8.  The candidate list of [handle] is the concatenation of the six
    sources in the order rule override, global default, named defaults,
    list default, lookup table (senders, domains, subjects), body hints,
    deduplicated: it holds no string twice, it holds exactly the strings
    of the sources, and each string stands at the place of its first
    occurrence in that order.  The sources hold: the rule's password
    when it is not empty; [PDF_PASSWORD], stripped; the three bank
    variables, stripped; the non-blank pieces of [PDF_PASSWORDS],
    stripped; the passwords [passwords.json] lists under a sender key or
    a domain key that occurs in the sender, or under a subject key that
    occurs in the subject, keys compared in lower case; the hints of the
    body.  On the sample mail, where the rule's password comes from five
    sources, it stands first and once. *)
Theorem candidates_in_priority_order_deduplicated
    direct_pw env file email_body sender subject :
  let sources := all_sources direct_pw env file email_body sender subject in
  let cands := handle_candidates direct_pw env file email_body sender subject in
  cands = dedup sources
  ∧ NoDup cands
  ∧ (∀ x, x ∈ cands ↔ x ∈ sources)
  ∧ (∀ pre x post, sources = pre ++ x :: post → x ∉ pre →
       ∃ post', cands = dedup pre ++ x :: post' ∧ x ∉ post')
  ∧ sources = override direct_pw ++ global_default env ++ named_defaults env
              ++ list_default env ++ lookup_table file sender subject
              ++ body_hints email_body
  ∧ (∀ x, x ∈ override direct_pw ↔ direct_pw = Some x ∧ x ≠ "")
  ∧ (∀ x, x ∈ global_default env
          ↔ ∃ v, env !! "PDF_PASSWORD" = Some v ∧ v ≠ "" ∧ x = strip v)
  ∧ (∀ x, x ∈ named_defaults env
          ↔ ∃ bank_env v,
              bank_env ∈ ["YESBANK_PDF_PASSWORD"; "HDFCBANK_PDF_PASSWORD";
                          "ICICI_PDF_PASSWORD"]
              ∧ env !! bank_env = Some v ∧ v ≠ "" ∧ x = strip v)
  ∧ (∀ x, x ∈ list_default env
          ↔ ∃ multi piece, env !! "PDF_PASSWORDS" = Some multi
                           ∧ piece ∈ split_comma multi ∧ x = strip piece ∧ x ≠ "")
  ∧ (∀ x, x ∈ lookup_table file sender subject
          ↔ ∃ j ss, file = Some j ∧ senders j = Some ss
              ∧ (table_hit ss (lower sender) x
                 ∨ ∃ ds, domains j = Some ds
                     ∧ (table_hit ds (lower sender) x
                        ∨ ∃ sb, subjects j = Some sb
                                ∧ table_hit sb (lower subject) x)))
  ∧ (all_sources (Some "21893044") sample_env (Some sample_file) sample_body
       "YES BANK <yestouch@yesbank.in>" "Miscellaneous_Advices - YBL REF NO 1"
     = [ "21893044";
         "21893044"; "hdfc#1";
         "alpha"; "21893044"; "beta";
         "tbl-snd"; "tbl-dom"; "alpha"; "21893044"; "tbl-sub";
         "21893044"; "legacy.9" ]
     ∧ handle_candidates (Some "21893044") sample_env (Some sample_file) sample_body
         "YES BANK <yestouch@yesbank.in>" "Miscellaneous_Advices - YBL REF NO 1"
       = [ "21893044"; "hdfc#1"; "alpha"; "beta"; "tbl-snd"; "tbl-dom"; "tbl-sub";
           "legacy.9" ]).
Proof.
  intros sources cands.
  assert (cands = dedup sources) as Hc.
  { subst cands sources.
    unfold handle_candidates, gather_candidate_passwords, all_sources.
    apply dedup_app_dedup. }
  rewrite Hc.
  split; [done|]. split; [apply NoDup_dedup_from|].
  split; [intros x; unfold dedup; rewrite elem_of_dedup_from, elem_of_empty; tauto|].
  split; [intros pre x post -> Hx; by apply dedup_first_occurrence|].
  split; [done|].
  split; [apply elem_of_override|].
  split; [apply elem_of_global_default|].
  split; [apply elem_of_named_defaults|].
  split; [apply elem_of_list_default|].
  split; [apply elem_of_lookup_table|].
  split; by vm_compute.
Qed.

Example sample_candidates :
  all_sources (Some "21893044") sample_env (Some sample_file) sample_body
    "YES BANK <yestouch@yesbank.in>" "Miscellaneous_Advices - YBL REF NO 1"
  = [ "21893044";
      "21893044"; "hdfc#1";
      "alpha"; "21893044"; "beta";
      "tbl-snd"; "tbl-dom"; "alpha"; "21893044"; "tbl-sub";
      "21893044"; "legacy.9" ]
  ∧
  handle_candidates (Some "21893044") sample_env (Some sample_file) sample_body
    "YES BANK <yestouch@yesbank.in>" "Miscellaneous_Advices - YBL REF NO 1"
  = [ "21893044"; "hdfc#1"; "alpha"; "beta"; "tbl-snd"; "tbl-dom"; "tbl-sub";
      "legacy.9" ].
Proof. by vm_compute. Qed.

End PasswordsFacts.


Module SheetFacts.
Import Store Sheet StoreFacts.

Lemma key_column_length pk_col df : length (key_column pk_col df) = length (rows df).
Proof. unfold key_column. by rewrite length_fmap. Qed.

Lemma key_column_lookup pk_col df (i : nat) :
  key_column pk_col df !! i = (λ r, cell_str (r !! pk_col)) <$> rows df !! i.
Proof. unfold key_column. by rewrite list_lookup_fmap. Qed.

(** Ensuring columns leaves an existing key column as it is. *)
Lemma ensure_cols_key_column pk_col df cols :
  pk_col ∈ columns df →
  key_column pk_col (ensure_cols df cols) = key_column pk_col df.
Proof.
  intros Hpk. apply list_eq. intros i. rewrite !key_column_lookup.
  destruct (rows df !! i) as [r|] eqn:Hi.
  - destruct (ensure_cols_rows cols df i r Hi) as (r' & -> & Hl). simpl.
    rewrite Hl. rewrite decide_False; [done|]. tauto.
  - apply lookup_ge_None in Hi. rewrite (lookup_ge_None_2 (rows (ensure_cols df cols)));
      [done|]. by rewrite ensure_cols_length.
Qed.

Lemma find_row_key_column df pk_col k idx r :
  find_row df pk_col k = Some (idx, r) → k ∈ key_column pk_col df.
Proof.
  intros (Hr & Hp & _)%list_find_Some. apply list_elem_of_lookup. exists idx.
  by rewrite key_column_lookup, Hr; simpl; rewrite Hp.
Qed.

Lemma find_row_None_key_column df pk_col k :
  find_row df pk_col k = None → k ∉ key_column pk_col df.
Proof.
  intros Hnone%list_find_None Hin.
  apply list_elem_of_fmap in Hin as (r & -> & Hr).
  rewrite Forall_forall in Hnone. by apply (Hnone r Hr).
Qed.

(** The key column after the shared part of the merges. *)
Lemma upsert_rows_key_column df pk_col su :
  (∀ k, is_Some (su !! k) → k ∈ columns df) →
  key_column pk_col (upsert_rows df pk_col su)
  = if decide (key_value pk_col su ≠ "" ∧ key_value pk_col su ∈ key_column pk_col df)
    then key_column pk_col df
    else key_column pk_col df ++ [cell_str (su !! pk_col)].
Proof.
  intros Hsub. unfold upsert_rows.
  destruct (decide (key_value pk_col su = "")) as [He|Hne].
  - rewrite decide_False by tauto. rewrite concat_row_known by done.
    unfold key_column. simpl. by rewrite fmap_app.
  - destruct (find_row df pk_col _) as [[idx r]|] eqn:Hfind.
    + rewrite decide_True by eauto using find_row_key_column.
      apply list_find_Some in Hfind as (Hr & Hp & _).
      destruct (write_loop df idx r su Hr Hsub) as (r' & -> & Hl).
      unfold key_column. simpl. rewrite list_fmap_insert.
      apply list_insert_id. rewrite list_lookup_fmap, Hr. simpl. f_equal.
      rewrite Hl, Hp. symmetry. apply merged_cell_str. by apply key_value_Some.
    + rewrite decide_False by (intros [_ ?]; by eapply find_row_None_key_column).
      rewrite concat_row_known by done. unfold key_column. simpl. by rewrite fmap_app.
Qed.

(** After a keyed merge the key finds a row, and that row prints every
    value of the payload. *)
Lemma upsert_rows_find df pk_col su :
  (∀ k, is_Some (su !! k) → k ∈ columns df) →
  key_value pk_col su ≠ "" →
  ∃ idx r', find_row (upsert_rows df pk_col su) pk_col (key_value pk_col su)
            = Some (idx, r')
    ∧ ∀ c v, su !! c = Some v → cell_str (r' !! c) = v.
Proof.
  intros Hsub Hne. pose proof (key_value_Some su pk_col Hne) as Hkey.
  unfold upsert_rows. rewrite decide_False by done.
  destruct (find_row df pk_col _) as [[idx r]|] eqn:Hfind.
  - apply list_find_Some in Hfind as (Hr & Hp & Hleast).
    assert (idx < length (rows df)) as Hlt by (by eapply lookup_lt_Some).
    destruct (write_loop df idx r su Hr Hsub) as (r' & -> & Hl).
    exists idx, r'. split.
    + apply list_find_Some. simpl. split_and!.
      * by apply list_lookup_insert_eq.
      * rewrite Hl. by apply merged_cell_str.
      * intros j y Hj Hji. rewrite list_lookup_insert_ne in Hj by lia.
        by eapply Hleast.
    + intros c v Hc. rewrite Hl. by apply merged_cell_str.
  - apply list_find_None in Hfind. rewrite concat_row_known by done.
    exists (length (rows df)), su. split.
    + apply list_find_Some. simpl. split_and!.
      * by apply list_lookup_middle.
      * by rewrite Hkey.
      * intros j y Hj Hji. rewrite lookup_app_l in Hj by done.
        eapply Forall_lookup_1 in Hfind; [|exact Hj]. done.
    + intros c v Hc. by rewrite Hc.
Qed.

(** A row that does not print the merged key is left as it is. *)
Lemma upsert_rows_other_rows df pk_col su (i : nat) r :
  (∀ k, is_Some (su !! k) → k ∈ columns df) →
  rows df !! i = Some r →
  cell_str (r !! pk_col) ≠ key_value pk_col su →
  rows (upsert_rows df pk_col su) !! i = Some r.
Proof.
  intros Hsub Hi Hne. unfold upsert_rows.
  assert (rows (concat_row df su) !! i = Some r) as Happ.
  { rewrite concat_row_known by done. simpl. by apply lookup_app_l_Some. }
  case_decide; [done|].
  destruct (find_row df pk_col _) as [[idx r0]|] eqn:Hfind; [|done].
  apply list_find_Some in Hfind as (Hr & Hp & _).
  destruct (write_loop df idx r0 su Hr Hsub) as (r' & -> & _). simpl.
  rewrite list_lookup_insert_ne; [done|]. intros ->. congruence.
Qed.

(** X1.  The key column after a merge, for a store that has the key
    column: when the payload's key is non-empty and already in the
    column, the column is as before (the row is updated in place, no row
    is added); otherwise exactly one entry is appended, the key cell of
    the new row.  This holds for both merges. *)
Theorem merge_key_column df pk_col updates allowed df2 updates2 :
  pk_col ∈ columns df →
  "InwardPK" ∈ columns df2 →
  key_column pk_col (upsert_selected df pk_col updates allowed)
  = (if decide (key_value pk_col (safe_updates updates allowed) ≠ ""
                ∧ key_value pk_col (safe_updates updates allowed) ∈ key_column pk_col df)
     then key_column pk_col df
     else key_column pk_col df ++ [cell_str (safe_updates updates allowed !! pk_col)])
  ∧
  key_column "InwardPK" (upsert_by_inward df2 updates2)
  = (if decide (key_value "InwardPK" (py_str <$> updates2) ≠ ""
                ∧ key_value "InwardPK" (py_str <$> updates2) ∈ key_column "InwardPK" df2)
     then key_column "InwardPK" df2
     else key_column "InwardPK" df2 ++ [cell_str ((py_str <$> updates2) !! "InwardPK")]).
Proof.
  intros Hpk Hpk2. split.
  - unfold upsert_selected.
    rewrite upsert_rows_key_column by (intros k; apply safe_updates_known).
    by rewrite ensure_cols_key_column.
  - unfold upsert_by_inward.
    rewrite upsert_rows_key_column by (intros k; apply inward_updates_known).
    by rewrite ensure_cols_key_column.
Qed.

Lemma merge_key_column_witness :
  key_column "InwardPK" (upsert_selected sample_df "InwardPK" sample_payload ALLOWED_TO_UPDATE)
  = ["INW1"]
  ∧ key_column "InwardPK" (upsert_by_inward sample_df unkeyed_payload) = ["INW1"; ""].
Proof.
  destruct (merge_key_column sample_df "InwardPK" sample_payload ALLOWED_TO_UPDATE
              sample_df unkeyed_payload) as [-> ->]; [by_evaluation..|].
  split; by vm_compute.
Defined.

Lemma keyed_after_merge col su pk_col :
  NoDup (keyed col) →
  NoDup (keyed (if decide (key_value pk_col su ≠ "" ∧ key_value pk_col su ∈ col)
                then col else col ++ [cell_str (su !! pk_col)])).
Proof.
  intros Hnd. case_decide as Hd; [done|].
  unfold keyed. rewrite filter_app. apply NoDup_app. split_and!; [done| |].
  - intros x Hx Hx'. apply list_elem_of_filter in Hx as [_ Hx].
    rewrite filter_cons, filter_nil in Hx'.
    case_decide as Hc; [|by apply elem_of_nil in Hx'].
    apply list_elem_of_singleton in Hx' as ->. destruct Hc as [Hne Hnan].
    apply Hd. unfold key_value. destruct (su !! pk_col) as [v|]; [|done].
    simpl in *. done.
  - rewrite filter_cons, filter_nil. case_decide; [apply NoDup_singleton|constructor].
Qed.



Example merge_keeps_keys_unique_sample :
  key_column "InwardPK" unkeyed_rows_df = ["INW0"; ""; ""; "INW1"]
  ∧ key_column "InwardPK"
      (upsert_selected unkeyed_rows_df "InwardPK" fresh_payload ALLOWED_TO_UPDATE)
    = ["INW0"; ""; ""; "INW1"; "INW9"]
  ∧ key_column "InwardPK" (upsert_by_inward unkeyed_rows_df unkeyed_payload)
    = ["INW0"; ""; ""; "INW1"; ""]
  ∧ key_column "InwardPK" (upsert_by_inward unkeyed_rows_df sample_payload)
    = ["INW0"; ""; ""; "INW1"].
Proof. by vm_compute. Qed.

(** X3.  Merge then look up: after a merge whose payload carries a
    non-empty key, the first row that prints the key prints every value
    of the (sanitised) payload (both merges). *)
Theorem merge_then_find df pk_col updates allowed df2 updates2 :
  key_value pk_col (safe_updates updates allowed) ≠ "" →
  key_value "InwardPK" (py_str <$> updates2) ≠ "" →
  (∃ idx r, find_row (upsert_selected df pk_col updates allowed) pk_col
              (key_value pk_col (safe_updates updates allowed)) = Some (idx, r)
     ∧ ∀ c v, safe_updates updates allowed !! c = Some v → cell_str (r !! c) = v)
  ∧
  (∃ idx r, find_row (upsert_by_inward df2 updates2) "InwardPK"
              (key_value "InwardPK" (py_str <$> updates2)) = Some (idx, r)
     ∧ ∀ c v, updates2 !! c = Some v → cell_str (r !! c) = py_str v).
Proof.
  intros Hk Hk2. split.
  - unfold upsert_selected. apply upsert_rows_find; [|done].
    intros k. apply safe_updates_known.
  - unfold upsert_by_inward.
    destruct (upsert_rows_find
                (ensure_cols df2 ((fst <$> map_to_list (py_str <$> updates2)) ++ ["InwardPK"]))
                "InwardPK" (py_str <$> updates2)) as (idx & r & Hf & Hv); [|done|].
    { intros k. apply inward_updates_known. }
    exists idx, r. split; [done|]. intros c v Hc. apply Hv.
    by rewrite lookup_fmap, Hc.
Qed.

Lemma merge_then_find_witness :
  (∃ idx r, find_row (upsert_selected sample_df "InwardPK" sample_payload ALLOWED_TO_UPDATE)
              "InwardPK" "INW1" = Some (idx, r)
     ∧ ∀ c v, safe_updates sample_payload ALLOWED_TO_UPDATE !! c = Some v →
         cell_str (r !! c) = v)
  ∧
  (∃ idx r, find_row (upsert_by_inward empty_df sample_payload) "InwardPK" "INW1"
            = Some (idx, r)
     ∧ ∀ c v, sample_payload !! c = Some v → cell_str (r !! c) = py_str v).
Proof.
  apply (merge_then_find sample_df "InwardPK" sample_payload ALLOWED_TO_UPDATE
           empty_df sample_payload); by_evaluation.
Defined.

(** X4.  A merge touches one row at most: in a store that has the key
    column, every row that does not print the payload's key keeps every
    cell of every column the store had (both merges). *)
Theorem merge_leaves_other_rows df pk_col updates allowed df2 updates2 (i : nat) r r2 :
  pk_col ∈ columns df →
  rows df !! i = Some r →
  cell_str (r !! pk_col) ≠ key_value pk_col (safe_updates updates allowed) →
  "InwardPK" ∈ columns df2 →
  rows df2 !! i = Some r2 →
  cell_str (r2 !! "InwardPK") ≠ key_value "InwardPK" (py_str <$> updates2) →
  (∃ r', rows (upsert_selected df pk_col updates allowed) !! i = Some r'
     ∧ ∀ c, c ∈ columns df → r' !! c = r !! c)
  ∧
  (∃ r', rows (upsert_by_inward df2 updates2) !! i = Some r'
     ∧ ∀ c, c ∈ columns df2 → r' !! c = r2 !! c).
Proof.
  intros Hpk Hi Hne Hpk2 Hi2 Hne2. split.
  - destruct (ensure_cols_rows (ensured allowed pk_col) df i r Hi) as (r1 & Hr1 & Hl1).
    assert (∀ c, c ∈ columns df → r1 !! c = r !! c) as Hsame.
    { intros c Hc. rewrite Hl1. rewrite decide_False; [done|]. tauto. }
    exists r1. split; [|done]. unfold upsert_selected.
    apply upsert_rows_other_rows; [intros k; apply safe_updates_known|done|].
    by rewrite Hsame.
  - destruct (ensure_cols_rows
                ((fst <$> map_to_list (py_str <$> updates2)) ++ ["InwardPK"]) df2 i r2 Hi2)
      as (r1 & Hr1 & Hl1).
    assert (∀ c, c ∈ columns df2 → r1 !! c = r2 !! c) as Hsame.
    { intros c Hc. rewrite Hl1. rewrite decide_False; [done|]. tauto. }
    exists r1. split; [|done]. unfold upsert_by_inward.
    apply upsert_rows_other_rows; [intros k; apply inward_updates_known|done|].
    by rewrite Hsame.
Qed.

Lemma merge_leaves_other_rows_witness :
  (∃ r', rows (upsert_selected two_row_df "InwardPK" sample_payload ALLOWED_TO_UPDATE)
           !! 0 = Some r'
     ∧ ∀ c, c ∈ columns two_row_df →
         r' !! c = ({[ "InwardPK" := "INW0"; "Remark" := "first" ]} : gmap string string) !! c)
  ∧
  (∃ r', rows (upsert_by_inward two_row_df sample_payload) !! 0 = Some r'
     ∧ ∀ c, c ∈ columns two_row_df →
         r' !! c = ({[ "InwardPK" := "INW0"; "Remark" := "first" ]} : gmap string string) !! c).
Proof.
  apply (merge_leaves_other_rows two_row_df "InwardPK" sample_payload ALLOWED_TO_UPDATE
           two_row_df sample_payload 0);
    first [reflexivity | by_evaluation].
Defined.

(** *** The disposal handler's payload *)

Lemma canon_in_allowed k : k ∈ FINANCIAL_CANON → k ∈ ALLOWED_TO_UPDATE.
Proof.
  intros Hk. unfold ALLOWED_TO_UPDATE.
  rewrite elem_of_elements, elem_of_list_to_set, elem_of_app. by left.
Qed.

Lemma canon_fold_Some fields l : ∀ u k v,
  foldl (canon_step fields) u l !! k = Some v →
  u !! k = Some v ∨ (k ∈ l ∧ fields !! k = Some v ∧ ∃ s, v = Some s ∧ s ≠ "").
Proof.
  induction l as [|x l IH]; intros u k v; simpl; [by left|].
  intros [Hu|(Hk & Hf & Hs)]%IH.
  - unfold canon_step in Hu. destruct (fields !! x) as [[s|]|] eqn:Hx; [|by left..].
    case_decide as Hs; [by left|].
    destruct (decide (x = k)) as [->|Hne].
    + rewrite lookup_insert_eq in Hu. injection Hu as <-. right.
      split_and!; [by left|done|eauto].
    + rewrite lookup_insert_ne in Hu by done. by left.
  - right. split_and!; [by right|done..].
Qed.

Lemma canon_fold_written fields l : ∀ u k s,
  fields !! k = Some (Some s) → s ≠ "" →
  u !! k = Some (Some s) ∨ k ∈ l →
  foldl (canon_step fields) u l !! k = Some (Some s).
Proof.
  induction l as [|x l IH]; intros u k s Hf Hs Hcase; simpl.
  - destruct Hcase as [?|Hin]; [done|]. by apply elem_of_nil in Hin.
  - apply IH; [done..|]. unfold canon_step.
    destruct (decide (x = k)) as [->|Hne].
    + left. rewrite Hf. rewrite decide_False by done. by rewrite lookup_insert_eq.
    + destruct Hcase as [Hu|[?|Hin]%elem_of_cons]; [|congruence|by right].
      left. destruct (fields !! x) as [[s'|]|]; [|done..].
      case_decide; [done|]. by rewrite lookup_insert_ne.
Qed.

Lemma disposal_updates_lookup fields subject sender date k :
  disposal_updates fields subject sender date !! k =
    if decide (k = "EmailDate") then Some (Some date)
    else if decide (k = "EmailFrom") then Some (Some sender)
    else if decide (k = "EmailSubject") then Some (Some subject)
    else if decide (k = "EMAIL_Type") then Some (Some "DisposalEmail")
    else if decide (k = "InwardPK") then Some (Some (ref_of fields "InwardReference"))
    else if decide (k = "RemitterPK") then Some (Some (ref_of fields "RemitterReference"))
    else canon_updates fields !! k.
Proof.
  unfold disposal_updates.
  repeat (case_decide; [subst k; by simplify_map_eq|]).
  by rewrite !lookup_insert_ne by done.
Qed.

Lemma canon_updates_Some fields k v :
  canon_updates fields !! k = Some v →
  k ∈ FINANCIAL_CANON ∧ fields !! k = Some v ∧ ∃ s, v = Some s ∧ s ≠ "".
Proof.
  unfold canon_updates. intros Hl.
  destruct (canon_fold_Some fields FINANCIAL_CANON ∅ k v Hl) as [Hu|?]; [|done].
  by rewrite lookup_empty in Hu.
Qed.

Lemma disposal_updates_allowed fields subject sender date k :
  is_Some (disposal_updates fields subject sender date !! k) → k ∈ ALLOWED_TO_UPDATE.
Proof.
  rewrite disposal_updates_lookup.
  repeat (case_decide; [subst k; intros _; by_evaluation|]).
  intros [v Hv]. apply canon_in_allowed. by apply (canon_updates_Some fields k v).
Qed.

Lemma disposal_safe_updates fields subject sender date :
  safe_updates (disposal_updates fields subject sender date) ALLOWED_TO_UPDATE
  = py_str <$> disposal_updates fields subject sender date.
Proof.
  apply map_eq. intros k. rewrite safe_updates_lookup, lookup_fmap.
  case_decide as Hk; [done|].
  destruct (disposal_updates _ _ _ _ !! k) eqn:Hl; [|done].
  exfalso. apply Hk, (disposal_updates_allowed fields subject sender date).
  by rewrite Hl.
Qed.

(** X5.  What the disposal handler hands to the merge: the canonical
    fields the reply gives a non-empty string for, the two key mirrors
    and four meta columns -- every key is an allowed column, so the merge
    filters nothing out; a key of the reply outside the canonical list,
    a [null] and an empty string are never written. *)
Theorem disposal_payload_is_allowed fields subject sender date :
  (∀ k, is_Some (disposal_updates fields subject sender date !! k) →
        k ∈ ALLOWED_TO_UPDATE)
  ∧ safe_updates (disposal_updates fields subject sender date) ALLOWED_TO_UPDATE
    = py_str <$> disposal_updates fields subject sender date
  ∧ (∀ k s, k ∈ FINANCIAL_CANON → fields !! k = Some (Some s) → s ≠ "" →
        canon_updates fields !! k = Some (Some s))
  ∧ (∀ k v, canon_updates fields !! k = Some v →
        k ∈ FINANCIAL_CANON ∧ fields !! k = Some v ∧ ∃ s, v = Some s ∧ s ≠ "").
Proof.
  split_and!.
  - apply disposal_updates_allowed.
  - apply disposal_safe_updates.
  - intros k s Hk Hf Hs. unfold canon_updates. apply canon_fold_written; [done..|].
    by right.
  - apply canon_updates_Some.
Qed.

Lemma disposal_key fields subject sender date :
  key_value (pk_col_of fields)
    (safe_updates (disposal_updates fields subject sender date) ALLOWED_TO_UPDATE)
  = pk_val_of fields.
Proof.
  rewrite disposal_safe_updates.
  unfold key_value, pk_col_of, pk_val_of. rewrite lookup_fmap.
  case_decide; by rewrite disposal_updates_lookup.
Qed.

(** X6.  A reply the service marks as not relevant is not dropped: the
    handler still appends one row, which holds the e-mail meta data and
    two empty keys and nothing else. *)
Theorem disposal_irrelevant_reply_appends df result subject sender date :
  IsRelevant result = false →
  rows (disposal_merge df result subject sender date)
  = rows (ensure_cols df (ensured ALLOWED_TO_UPDATE "InwardPK"))
    ++ [ {[ "EmailDate" := date; "EmailFrom" := sender; "EmailSubject" := subject;
            "EMAIL_Type" := "DisposalEmail"; "InwardPK" := ""; "RemitterPK" := "" ]} ]
  ∧ length (rows (disposal_merge df result subject sender date)) = S (length (rows df)).
Proof.
  intros Hrel.
  assert (relevant_fields result = ∅) as Hf.
  { unfold relevant_fields. by rewrite Hrel. }
  assert (rows (disposal_merge df result subject sender date)
          = rows (ensure_cols df (ensured ALLOWED_TO_UPDATE "InwardPK"))
            ++ [py_str <$> disposal_updates ∅ subject sender date]) as Hrows.
  { unfold disposal_merge. rewrite Hf. unfold upsert_selected, upsert_rows.
    rewrite disposal_key. change (pk_val_of ∅) with "".
    change (pk_col_of ∅) with "InwardPK".
    rewrite decide_True by done. simpl. by rewrite disposal_safe_updates. }
  split.
  - rewrite Hrows. by do 2 f_equal.
  - rewrite Hrows, length_app, ensure_cols_length. simpl. lia.
Qed.

Lemma disposal_irrelevant_reply_appends_witness :
  length (rows (disposal_merge sample_df irrelevant_reply "Subj" "bank@example.com" "Mon"))
  = 2.
Proof.
  by destruct (disposal_irrelevant_reply_appends sample_df irrelevant_reply
                 "Subj" "bank@example.com" "Mon") as [_ ->].
Defined.

Lemma disposal_merge_has_inward_column df result subject sender date :
  "InwardPK" ∈ columns (disposal_merge df result subject sender date).
Proof.
  unfold disposal_merge, upsert_selected.
  rewrite upsert_rows_columns by (intros k; apply safe_updates_known).
  apply ensure_cols_columns. right. apply elem_of_ensured. left. by_evaluation.
Qed.

Lemma holds_value_key_column k v df : holds_value k v df → v ∈ key_column k df.
Proof.
  intros (i & r & Hr & Hv). apply list_elem_of_lookup. exists i.
  by rewrite key_column_lookup, Hr; simpl; rewrite Hv.
Qed.

(** X7.  The two handlers meet on one row: after the disposal handler
    has merged a reply with a non-empty inward reference, a FIRC merge
    whose [InwardPK] equals that reference updates in place -- it adds no
    row and leaves the key column as it is. *)
Theorem advice_lands_on_intimation_row df result subject sender date payload :
  ref_of (relevant_fields result) "InwardReference" ≠ "" →
  key_value "InwardPK" (py_str <$> payload)
    = ref_of (relevant_fields result) "InwardReference" →
  length (rows (upsert_by_inward (disposal_merge df result subject sender date) payload))
    = length (rows (disposal_merge df result subject sender date))
  ∧ key_column "InwardPK"
      (upsert_by_inward (disposal_merge df result subject sender date) payload)
    = key_column "InwardPK" (disposal_merge df result subject sender date).
Proof.
  intros Hne Hkey.
  set (df1 := disposal_merge df result subject sender date).
  assert (key_column "InwardPK" (upsert_by_inward df1 payload) = key_column "InwardPK" df1)
    as Hcol.
  { unfold upsert_by_inward.
    rewrite upsert_rows_key_column by (intros k; apply inward_updates_known).
    rewrite ensure_cols_key_column by apply disposal_merge_has_inward_column.
    rewrite decide_True; [done|]. rewrite Hkey. split; [done|].
    apply holds_value_key_column. subst df1. unfold disposal_merge, upsert_selected.
    apply upsert_rows_holds; [intros k; apply safe_updates_known|].
    by rewrite disposal_safe_updates, lookup_fmap, disposal_updates_lookup. }
  split; [|done].
  by rewrite <- !(key_column_length "InwardPK"), Hcol.
Qed.

Lemma advice_lands_on_intimation_row_witness :
  length (rows (upsert_by_inward
                  (disposal_merge empty_df sample_reply "Subj" "bank@example.com" "Mon")
                  sample_payload)) = 1.
Proof.
  destruct (advice_lands_on_intimation_row empty_df sample_reply
              "Subj" "bank@example.com" "Mon" sample_payload) as [-> _];
    [by_evaluation|by vm_compute|by vm_compute].
Defined.

End SheetFacts.

Module ShapeFacts.
Import Text Rules Shape RulesFacts.

Lemma lower_collapse_from s : ∀ b,
  lower (collapse_from b s) = collapse_from b (lower s).
Proof.
  induction s as [|c s IH]; intros b; simpl; [done|].
  rewrite is_space_lower_char. destruct (is_space c) eqn:Hc.
  - destruct b; simpl; by rewrite IH.
  - simpl. by rewrite IH.
Qed.

Lemma lower_lstrip s : lower (lstrip s) = lstrip (lower s).
Proof.
  induction s as [|c s IH]; simpl; [done|].
  rewrite is_space_lower_char. by destruct (is_space c).
Qed.

Lemma lower_rstrip s : lower (rstrip s) = rstrip (lower s).
Proof.
  induction s as [|c s IH]; simpl; [done|].
  rewrite <- IH, is_space_lower_char.
  destruct (rstrip s); simpl; [by destruct (is_space c)|done].
Qed.

Lemma lower_norm_spaces s : lower (_norm_spaces s) = _norm_spaces s.
Proof.
  unfold _norm_spaces, strip, collapse_spaces.
  by rewrite lower_rstrip, lower_lstrip, lower_collapse_from, lower_idem.
Qed.

Lemma single_spaced_collapse_from s : ∀ b, single_spaced b (collapse_from b s) = true.
Proof.
  induction s as [|c s IH]; intros b; simpl; [done|].
  destruct (is_space c) eqn:Hc.
  - destruct b; [apply IH|]. simpl. apply IH.
  - simpl. rewrite Hc. apply IH.
Qed.

Lemma collapse_from_single_spaced s : ∀ b,
  single_spaced b s = true → collapse_from b s = s.
Proof.
  induction s as [|c s IH]; intros b; simpl; [done|].
  destruct (is_space c) eqn:Hc.
  - intros [[Heq Hb%negb_true_iff]%andb_true_iff Hs]%andb_true_iff.
    apply Ascii.eqb_eq in Heq. subst. by rewrite IH.
  - intros Hs. by rewrite IH.
Qed.

Lemma single_spaced_weaken s : single_spaced true s = true → single_spaced false s = true.
Proof.
  destruct s as [|c s]; simpl; [done|]. destruct (is_space c); [|done].
  rewrite andb_false_r. done.
Qed.

Lemma single_spaced_lstrip s : ∀ b,
  single_spaced b s = true → single_spaced false (lstrip s) = true.
Proof.
  induction s as [|c s IH]; intros b; simpl; [done|].
  destruct (is_space c) eqn:Hc.
  - intros [_ Hs]%andb_true_iff. by eapply IH.
  - intros Hs. simpl. by rewrite Hc.
Qed.

Lemma single_spaced_rstrip s : ∀ b,
  single_spaced b s = true → single_spaced b (rstrip s) = true.
Proof.
  induction s as [|c s IH]; intros b; simpl; [done|].
  destruct (is_space c) eqn:Hc.
  - intros [Hc' Hs]%andb_true_iff. specialize (IH true Hs).
    destruct (rstrip s) as [|d t] eqn:Hr; [done|].
    change (single_spaced b (String c (String d t)) = true).
    simpl. rewrite Hc, Hc'. exact IH.
  - intros Hs. specialize (IH false Hs).
    destruct (rstrip s) as [|d t] eqn:Hr.
    + simpl. by rewrite Hc.
    + change (single_spaced b (String c (String d t)) = true).
      simpl. rewrite Hc. exact IH.
Qed.

(** What [lstrip] returns does not start with whitespace. *)
Lemma lstrip_lstrip s : lstrip (lstrip s) = lstrip s.
Proof.
  induction s as [|c s IH]; simpl; [done|].
  destruct (is_space c) eqn:Hc; [done|]. simpl. by rewrite Hc.
Qed.

Lemma rstrip_rstrip s : rstrip (rstrip s) = rstrip s.
Proof.
  induction s as [|c s IH]; simpl; [done|].
  destruct (rstrip s) as [|d t] eqn:Hr.
  - destruct (is_space c) eqn:Hc; simpl; [done|]. by rewrite Hc.
  - change (rstrip (String c (String d t)) = String c (String d t)).
    simpl in IH. simpl. destruct (match rstrip t with
                                  | EmptyString => if is_space d then EmptyString
                                                   else String d EmptyString
                                  | String a1 s1 => String d (String a1 s1)
                                  end) eqn:Hm; [discriminate|].
    by rewrite IH.
Qed.

Lemma lstrip_rstrip_fixed s : lstrip s = s → lstrip (rstrip s) = rstrip s.
Proof.
  destruct s as [|c s]; simpl; [done|].
  destruct (is_space c) eqn:Hc.
  - intros Hs. exfalso.
    assert (String.length (lstrip s) ≤ String.length s) as Hle.
    { clear. induction s as [|d s IH]; simpl; [done|].
      destruct (is_space d); simpl; lia. }
    rewrite Hs in Hle. simpl in Hle. lia.
  - intros _. destruct (rstrip s); simpl; by rewrite Hc.
Qed.

Lemma strip_strip s : strip (strip s) = strip s.
Proof.
  unfold strip.
  rewrite (lstrip_rstrip_fixed (lstrip s)) by apply lstrip_lstrip.
  apply rstrip_rstrip.
Qed.

Lemma single_spaced_norm_spaces s : single_spaced false (_norm_spaces s) = true.
Proof.
  unfold _norm_spaces, strip, collapse_spaces.
  apply single_spaced_rstrip. eapply single_spaced_lstrip.
  apply single_spaced_collapse_from.
Qed.

(** X8.  Normalising is idempotent, and a normalised text has no capital
    letter, no whitespace other than single spaces between words, and no
    space at either end. *)
Theorem norm_spaces_idempotent s :
  _norm_spaces (_norm_spaces s) = _norm_spaces s
  ∧ lower (_norm_spaces s) = _norm_spaces s
  ∧ single_spaced false (_norm_spaces s) = true
  ∧ strip (_norm_spaces s) = _norm_spaces s.
Proof.
  assert (strip (_norm_spaces s) = _norm_spaces s) as Hstrip.
  { unfold _norm_spaces at 1 2. apply strip_strip. }
  split_and!; [|apply lower_norm_spaces|apply single_spaced_norm_spaces|done].
  unfold _norm_spaces at 1. rewrite lower_norm_spaces. unfold collapse_spaces.
  rewrite collapse_from_single_spaced by apply single_spaced_norm_spaces.
  done.
Qed.

Lemma blank_lower s : blank (lower s) = blank s.
Proof.
  induction s as [|c s IH]; simpl; [done|]. by rewrite is_space_lower_char, IH.
Qed.

Lemma blank_collapse_true s : blank s = true → collapse_from true s = "".
Proof.
  induction s as [|c s IH]; simpl; [done|].
  intros [-> Hs]%andb_true_iff. by apply IH.
Qed.

Lemma blank_norm_spaces s : blank s = true → _norm_spaces s = "".
Proof.
  intros Hs. unfold _norm_spaces, collapse_spaces.
  rewrite <- blank_lower in Hs. destruct (lower s) as [|c t]; [done|].
  simpl in *. apply andb_true_iff in Hs as [-> Ht].
  by rewrite blank_collapse_true.
Qed.

Lemma contains_empty h : contains "" h = true.
Proof. by destruct h. Qed.

(** X9.  A needle that is empty or made of whitespace only matches every
    text: [_contains] is true for it, and in [_contains_all] it counts for
    nothing. *)
Theorem blank_needle_matches_everything hay n ns :
  blank n = true →
  _contains hay n = true
  ∧ _contains_all hay (n :: ns) = _contains_all hay ns.
Proof.
  intros Hn. unfold _contains, _contains_all. simpl.
  rewrite (blank_norm_spaces n Hn), contains_empty. done.
Qed.

Lemma blank_needle_matches_everything_witness :
  _contains "DISPOSAL REQUIRED" "  " = true
  ∧ _contains_all "DISPOSAL REQUIRED" ["  "; "required"]
    = _contains_all "DISPOSAL REQUIRED" ["required"].
Proof. by apply blank_needle_matches_everything. Defined.

Lemma existsb_elem_of {A} (f : A → bool) (l : list A) :
  existsb f l = true → ∃ x, x ∈ l ∧ f x = true.
Proof.
  intros (x & Hin & Hf)%existsb_exists. exists x. by rewrite list_elem_of_In.
Qed.

Lemma ext_pdf_has_pdf ctx : attachment_ext_is ctx ["pdf"] false = true → has_pdf ctx.
Proof.
  unfold attachment_ext_is. simpl. rewrite orb_false_r.
  intros (f & Hin & Hf)%existsb_elem_of.
  apply list_elem_of_fmap in Hin as (a & -> & Ha). by exists a.
Qed.

(** X10.  Only an e-mail with a PDF attachment reaches the FIRC handler:
    when a match names [handlers.firc_handler], some attachment's name
    ends in [.pdf], whatever the case of its letters. *)
Theorem firc_match_needs_pdf ctx m :
  m ∈ categorize ctx →
  handler_module m = "handlers.firc_handler" →
  has_pdf ctx.
Proof.
  unfold categorize. rewrite !elem_of_app.
  intros [Hm|[Hm|Hm]] Hh.
  - destruct (_ && _); [|by apply elem_of_nil in Hm].
    apply list_elem_of_singleton in Hm. by subst m.
  - destruct (_contains _ _ && _contains_all _ _ &&
              (has_attachment ctx && attachment_ext_is ctx ["pdf"] false)) eqn:Hc;
      [|by apply elem_of_nil in Hm].
    apply andb_true_iff in Hc as [_ [_ Hext]%andb_true_iff].
    by apply ext_pdf_has_pdf.
  - destruct (_contains _ _ && _contains_all _ _ &&
              (has_attachment ctx && attachment_ext_is ctx ["pdf"] false
               && attachment_name_contains ctx ["firc"])) eqn:Hc;
      [|by apply elem_of_nil in Hm].
    apply andb_true_iff in Hc as [_ [[_ Hext]%andb_true_iff _]%andb_true_iff].
    by apply ext_pdf_has_pdf.
Qed.

Lemma firc_match_needs_pdf_witness : has_pdf (yes_bank_email "FIRC_advice.PDF").
Proof.
  apply (firc_match_needs_pdf (yes_bank_email "FIRC_advice.PDF") yes_firc_match);
    [|reflexivity].
  apply list_elem_of_In. vm_compute. by left.
Defined.

(** X11.  Whatever the e-mail, [categorize] returns some of three fixed
    matches, in the order of the rules and each at most once; every
    diagnostic reason in a returned match is true, and only the Yes Bank
    match carries a password. *)
Theorem categorize_returns_fixed_matches ctx :
  categorize ctx `sublist_of` [inward_match; hdfc_firc_match; yes_firc_match].
Proof.
  unfold categorize.
  repeat match goal with
         | |- context [_contains ?x ?y] => destruct (_contains x y)
         | |- context [_contains_all ?x ?y] => destruct (_contains_all x y)
         | |- context [has_attachment ?x] => destruct (has_attachment x)
         | |- context [attachment_ext_is ?x ?y ?z] => destruct (attachment_ext_is x y z)
         | |- context [attachment_name_contains ?x ?y] =>
             destruct (attachment_name_contains x y)
         end; simpl;
  repeat first [ apply sublist_nil | apply sublist_skip | apply sublist_cons ].
Qed.

End ShapeFacts.

Module PollFacts.
Import Eff Runner Poll RunnerFacts.

Lemma handled_ids_app l1 l2 : handled_ids (l1 ++ l2) = handled_ids l1 ++ handled_ids l2.
Proof. induction l1 as [|e l1 IH]; [done|]. destruct e; simpl; by rewrite ?IH. Qed.

(** The messages taken up have pairwise different ids, none of which was
    in the processed set, and together with that set they cover the
    batch. *)
Lemma taken_up_fresh msgs : ∀ seen : gset string,
  NoDup (msg_id <$> taken_up seen msgs)
  ∧ (∀ m, m ∈ taken_up seen msgs → (msg_id m ∉ seen) ∧ m ∈ msgs)
  ∧ seen ∪ list_to_set (msg_id <$> taken_up seen msgs)
    = seen ∪ list_to_set (msg_id <$> msgs).
Proof.
  induction msgs as [|m msgs IH]; intros seen; simpl.
  - split_and!; [constructor| |done]. intros m Hm. by apply elem_of_nil in Hm.
  - destruct (decide (msg_id m ∈ seen)) as [Hin|Hnew].
    + destruct (IH seen) as (Hnd & Hfresh & Hcover). split_and!; [done| |].
      * intros m' Hm'. destruct (Hfresh m' Hm'). split; [done|by right].
      * rewrite Hcover. apply set_eq. intros x.
        rewrite !elem_of_union, elem_of_singleton. split; [tauto|].
        intros [?|[->|?]]; tauto.
    + destruct (IH ({[msg_id m]} ∪ seen)) as (Hnd & Hfresh & Hcover).
      split_and!.
      * csimpl. constructor; [|done].
        intros (m' & Heq & Hm')%list_elem_of_fmap.
        destruct (Hfresh m' Hm') as [Hn _]. apply Hn. rewrite <- Heq.
        apply elem_of_union. left. by apply elem_of_singleton.
      * intros m' [->|Hm']%elem_of_cons; [split; [done|by left]|].
        destruct (Hfresh m' Hm') as [Hn ?]. split; [|by right].
        intros Hs. apply Hn. apply elem_of_union. by right.
      * apply set_eq. intros x.
        assert (x ∈ {[msg_id m]} ∪ seen
                    ∪ list_to_set (msg_id <$> taken_up ({[msg_id m]} ∪ seen) msgs)
                ↔ x ∈ {[msg_id m]} ∪ seen ∪ list_to_set (msg_id <$> msgs)) as Hx
          by (by rewrite Hcover).
        csimpl.
        rewrite !elem_of_union, !elem_of_list_to_set, ?elem_of_singleton in Hx.
        rewrite !elem_of_union, !elem_of_list_to_set, !elem_of_singleton. tauto.
Qed.

Section Batch.
Context (World : Type).
Context (invoke : string → string → Msg → HandlerCtx → World → (unit + string) * World).

Abbreviation process_message := (process_message World invoke).

(** The step for a message no rule matches: nothing but the log and the
    run's own variables changes. *)
Lemma process_message_unmatched msg (st : RunState World) :
  msg_id msg ∉ processed st →
  Rules.categorize (email_context msg) = [] →
  process_message msg st =
    (inl tt, mkRunState (world st) (Z.max (last_ts st) (its_of msg))
               ({[msg_id msg]} ∪ processed st)
               (log st ++ [NewMessage (msg_id msg) (its_of msg); NoRuleMatched])
               (state_last_internal_ts st) (state_processed_ids st) (state_file st)).
Proof.
  intros Hnew Hcat. unfold Runner.process_message, bind at 1, gets.
  rewrite bool_decide_eq_false_2 by done.
  unfold bind at 1. unfold emit at 1, modify. unfold bind at 1.
  unfold try_except, ret. unfold bind at 1. rewrite Hcat.
  unfold emit, modify, mark_processed, modify. simpl. f_equal. f_equal.
  - case_decide; lia.
  - by rewrite <- app_assoc.
Qed.

Lemma process_batch_full msgs : ∀ st : RunState World,
  ∃ st' evs,
    for_each msgs process_message st = (inl tt, st')
    ∧ log st' = log st ++ evs
    ∧ handled_ids evs = msg_id <$> taken_up (processed st) msgs
    ∧ invoked evs = first_handlers (taken_up (processed st) msgs)
    ∧ processed st' = processed st ∪ list_to_set (msg_id <$> taken_up (processed st) msgs)
    ∧ ((∀ m, m ∈ taken_up (processed st) msgs →
             Rules.categorize (email_context m) = []) →
       world st' = world st).
Proof.
  induction msgs as [|msg msgs IH]; intros st.
  - exists st, []. simpl. rewrite app_nil_r. split_and!; try done.
    apply set_eq. intros x. rewrite elem_of_union, elem_of_empty. tauto.
  - simpl. unfold bind. destruct (decide (msg_id msg ∈ processed st)) as [Hin|Hnew].
    + rewrite process_message_seen by done. apply IH.
    + destruct (process_message_new World invoke msg st Hnew)
        as (w & ev1 & Hrun & Hh1 & Hi1).
      rewrite dispatched_categorize in Hi1.
      assert (Rules.categorize (email_context msg) = [] → w = world st) as Hw.
      { intros Hcat. rewrite (process_message_unmatched msg st Hnew Hcat) in Hrun.
        by injection Hrun. }
      assert (handled_ids ev1 = []) as Hid1.
      { clear -Hh1. induction ev1 as [|e ev1 IHe]; [done|].
        destruct e; simpl in *; try discriminate; auto. }
      rewrite Hrun.
      match goal with |- context [for_each msgs _ ?s] =>
        destruct (IH s) as (st' & ev2 & -> & Hlog & Hid & Hinv & Hproc & Hworld) end.
      simpl in *.
      exists st', (NewMessage (msg_id msg) (its_of msg) :: ev1 ++ ev2).
      split_and!; try done.
      * by rewrite Hlog, <- app_assoc.
      * simpl. by rewrite handled_ids_app, Hid1, Hid.
      * simpl. by rewrite invoked_app, Hi1, Hinv.
      * rewrite Hproc. csimpl. apply set_eq. intros x.
        rewrite !elem_of_union, elem_of_singleton. tauto.
      * intros Hall. rewrite Hworld.
        -- apply Hw. apply Hall. by left.
        -- intros m Hm. apply Hall. by right.
Qed.

(** X12.  A batch reaches the handlers through first matches only: the
    handlers entered, in order, are those of the first match of each
    message taken up that has a match; and when no message taken up
    matches a rule, the world is left as it was. *)
Theorem batch_enters_first_handlers_only msgs (st : RunState World) :
  ∃ st' evs,
    for_each msgs process_message st = (inl tt, st')
    ∧ log st' = log st ++ evs
    ∧ invoked evs = first_handlers (taken_up (processed st) msgs)
    ∧ ((∀ m, m ∈ taken_up (processed st) msgs →
             Rules.categorize (email_context m) = []) →
       world st' = world st).
Proof.
  destruct (process_batch_full msgs st) as (st' & evs & Hrun & Hlog & _ & Hinv & _ & Hw).
  by exists st', evs.
Qed.

(** X13.  No message is taken up twice: the ids the log reports for a
    batch are pairwise different and none of them was in the processed
    set before; after the batch the processed set is the old one plus
    every id of the batch. *)
Theorem batch_takes_up_new_ids_once msgs (st : RunState World) :
  ∃ st' evs,
    for_each msgs process_message st = (inl tt, st')
    ∧ log st' = log st ++ evs
    ∧ NoDup (handled_ids evs)
    ∧ (∀ mid, mid ∈ handled_ids evs →
         (mid ∉ processed st) ∧ mid ∈ msg_id <$> msgs)
    ∧ processed st' = processed st ∪ list_to_set (msg_id <$> msgs).
Proof.
  destruct (process_batch_full msgs st) as (st' & evs & Hrun & Hlog & Hid & _ & Hproc & _).
  destruct (taken_up_fresh msgs (processed st)) as (Hnd & Hfresh & Hcover).
  exists st', evs. rewrite Hid. split_and!; try done.
  - intros mid (m & -> & Hm)%list_elem_of_fmap.
    destruct (Hfresh m Hm) as [? Hin]. split; [done|].
    apply list_elem_of_fmap. eauto.
  - by rewrite Hproc, Hcover.
Qed.

(** X14.  What [persist] saves: the watermark, and at most 5000 ids, all
    different and all from the processed set; while the set has at most
    5000 ids, every one of them is saved.  The run's own variables are
    not changed. *)
Theorem persist_saves_at_most_5000 (st : RunState World) :
  ∃ ids,
    persist st
    = (inl tt, mkRunState (world st) (last_ts st) (processed st) (log st)
                 (last_ts st) ids (Some (last_ts st, ids)))
    ∧ length ids ≤ 5000
    ∧ NoDup ids
    ∧ (∀ mid, mid ∈ ids → mid ∈ processed st)
    ∧ (length (elements (processed st)) ≤ 5000 →
       ∀ mid, mid ∈ processed st → mid ∈ ids).
Proof.
  eexists. split; [reflexivity|]. simpl.
  set (l := elements (processed st)). split_and!.
  - rewrite length_drop. lia.
  - apply (sublist_NoDup _ l); [apply NoDup_elements|apply sublist_drop].
  - intros mid Hin. apply elem_of_elements.
    eapply elem_of_sublist; [exact Hin|apply sublist_drop].
  - intros Hle mid Hin.
    replace (length l - 5000) with 0 by lia. rewrite drop_0.
    by apply elem_of_elements.
Qed.

End Batch.

Example unmatched_message_run :
  for_each [sample_msg; unmatched_msg] (process_message unit failing_handler) seen_state
  = (inl tt,
     mkRunState tt 1700000000777%Z {["m9"; "m2"]}
       [ NewMessage "m9" 1700000000777%Z; NoRuleMatched ]
       1700000000000%Z [] None).
Proof. vm_compute. reflexivity. Qed.

End PollFacts.

Module RetryMoreFacts.
Import Eff Text Retry RetryFacts.

Lemma requests_prefix (l1 l2 : list Event) t :
  l1 `prefix_of` l2 → t ∈ requests l1 → t ∈ requests l2.
Proof. intros [k ->] Ht. rewrite requests_app. apply elem_of_app. by left. Qed.

Lemma requests_script trimmed todo t :
  t ∈ requests (script trimmed todo) →
  ∃ attempt, attempt ∈ todo ∧ t = shrunk trimmed (factor_of attempt).
Proof.
  induction todo as [|a todo IH]; simpl.
  - by intros ?%elem_of_nil.
  - intros [->|Ht]%elem_of_cons.
    + exists a. split; [by left|done].
    + destruct (IH Ht) as (a' & Ha' & ->). exists a'. split; [by right|done].
Qed.

Section Loop.
Context (Service Json : Type).
Context (create : string → Service → (string + string) * Service).
Context (loads : string → Json + string).

Abbreviation retry_loop := (retry_loop Service Json create loads).
Abbreviation call_openai_firc := (call_openai_firc Service Json create loads).

(** X15.  A failure that is not a rate limit ends the call at once,
    whether the service raised it or the reply did not parse: the
    exception is raised again after that one request, with no sleep and
    no further attempt. *)
Theorem other_failures_are_not_retried what trimmed attempt rest (env : Env Service) :
  (∀ e s, create (shrunk trimmed (factor_of attempt)) (service env) = (inr e, s) →
          is_rate_limit e = false →
          retry_loop what trimmed (attempt :: rest) env
          = (inr e, mkEnv s (trace env ++ [Create (shrunk trimmed (factor_of attempt))])))
  ∧
  (∀ content e s,
          create (shrunk trimmed (factor_of attempt)) (service env) = (inl content, s) →
          loads content = inr e →
          is_rate_limit e = false →
          retry_loop what trimmed (attempt :: rest) env
          = (inr e, mkEnv s (trace env ++ [Create (shrunk trimmed (factor_of attempt))]))).
Proof.
  split.
  - intros e s Hc Hrl. apply retry_loop_fatal; [|done].
    by rewrite attempt_call_spec, Hc.
  - intros content e s Hc Hl Hrl. apply retry_loop_fatal; [|done].
    by rewrite attempt_call_spec, Hc, Hl.
Qed.

(** X16.  The retry test reads the text of the exception only.  A reply
    that arrived but does not parse is retried like a rate limit when the
    parser's message contains [429] (a position in the text, say): the
    loop sleeps and goes on to the next attempt. *)
Theorem parse_error_with_429_is_retried what trimmed attempt rest
    (env : Env Service) content e s :
  create (shrunk trimmed (factor_of attempt)) (service env) = (inl content, s) →
  loads content = inr e →
  contains "429" e = true →
  retry_loop what trimmed (attempt :: rest) env
  = retry_loop what trimmed rest
      (mkEnv s (trace env ++ [ Create (shrunk trimmed (factor_of attempt));
                               Sleep (2 * (Z.of_nat attempt + 1)) ])).
Proof.
  intros Hc Hl He.
  rewrite (retry_loop_rate_limited Service Json create loads what trimmed attempt rest
             env (mkEnv s (trace env ++ [Create (shrunk trimmed (factor_of attempt))])) e).
  - simpl. by rewrite <- app_assoc.
  - by rewrite attempt_call_spec, Hc, Hl.
  - unfold is_rate_limit. rewrite He. apply orb_true_r.
Qed.

Lemma all_rate_limited what trimmed todo :
  (∀ txt s, ∃ e s', create txt s = (inr e, s') ∧ is_rate_limit e = true) →
  ∀ env : Env Service,
    ∃ env', retry_loop what trimmed todo env
            = (inr (String.append "OpenAI rate limit: all retries exhausted for "
                      (String.append what ".")), env')
      ∧ trace env' = trace env ++ script trimmed todo.
Proof.
  intros Hlim. induction todo as [|attempt rest IH]; intros env.
  - exists env. simpl. by rewrite app_nil_r.
  - destruct (Hlim (shrunk trimmed (factor_of attempt)) (service env))
      as (e & s' & Hc & Hrl).
    rewrite (retry_loop_rate_limited Service Json create loads what trimmed attempt rest
               env (mkEnv s' (trace env ++ [Create (shrunk trimmed (factor_of attempt))])) e);
      [|by rewrite attempt_call_spec, Hc|done].
    match goal with |- context [retry_loop what trimmed rest ?env2] =>
      destruct (IH env2) as (env' & -> & Htr) end.
    exists env'. split; [done|]. rewrite Htr. simpl. by rewrite <- !app_assoc.
Qed.


(** X18.  Without an API key the FIRC call raises before any request.
    With a key, the input of every request it makes is a prefix of the
    PDF text and at most [OPENAI_MAX_CHARS] characters long. *)
Theorem firc_requests_are_bounded_prefixes key max_chars pdf_text (env : Env Service) :
  key ≠ "" →
  call_openai_firc None max_chars pdf_text env = (inr "OPENAI_API_KEY is not set.", env)
  ∧ call_openai_firc (Some "") max_chars pdf_text env
    = (inr "OPENAI_API_KEY is not set.", env)
  ∧ ∃ new,
      trace (call_openai_firc (Some key) max_chars pdf_text env).2 = trace env ++ new
      ∧ ∀ t, t ∈ requests new →
          starts_with t pdf_text = true ∧ String.length t ≤ max_chars.
Proof.
  intros Hkey. split_and!; [done..|].
  destruct key as [|c key]; [done|]. simpl.
  destruct (retry_loop_trace Service Json create loads "FIRC extraction"
              (take_str max_chars pdf_text) (seq 0 attempts) env)
    as (new & Htr & Hpre & _).
  exists new. split; [exact Htr|].
  intros t Ht. apply (requests_prefix _ _ _ Hpre) in Ht.
  apply requests_script in Ht as (attempt & _ & ->).
  unfold shrunk. rewrite take_str_take_str. split.
  - apply starts_with_take_str.
  - rewrite length_take_str. lia.
Qed.

End Loop.

Lemma parse_error_with_429_is_retried_witness :
  retry_loop nat string RetrySamples.garbled_service RetrySamples.strict_loads
    "FIRC extraction" sample_text [0; 1; 2] (mkEnv 0 [])
  = retry_loop nat string RetrySamples.garbled_service RetrySamples.strict_loads
      "FIRC extraction" sample_text [1; 2]
      (mkEnv 1 [ Create (shrunk sample_text (factor_of 0)); Sleep (2 * (Z.of_nat 0 + 1)) ]).
Proof.
  by apply (parse_error_with_429_is_retried nat string RetrySamples.garbled_service
              RetrySamples.strict_loads "FIRC extraction" sample_text 0 [1; 2]
              (mkEnv 0 []) "{"
              "Expecting ',' delimiter: line 9 column 12 (char 429)" 1).
Defined.


Lemma firc_requests_are_bounded_prefixes_witness :
  ∃ new,
    trace (call_openai_firc nat string flaky_service inl (Some "sk-test") 100 sample_text
             (mkEnv 0 [])).2 = [] ++ new
    ∧ ∀ t, t ∈ requests new →
        starts_with t sample_text = true ∧ String.length t ≤ 100.
Proof.
  by apply (firc_requests_are_bounded_prefixes nat string flaky_service inl
              "sk-test" 100 sample_text (mkEnv 0 [])).
Defined.

End RetryMoreFacts.

Module DecryptFacts.
Import Decrypt.

Section Backends.
Context (Backend : Type).
Context (pypdf_open : string → Backend → option bool * Backend).
Context (pypdf_try : string → Backend → Outcome * Backend).
Context (pike_import : Backend → bool * Backend).
Context (pike_try : string → string → Backend → Outcome * Backend).

Abbreviation pypdf_loop := (pypdf_loop Backend pypdf_try).
Abbreviation pike_loop := (pike_loop Backend pike_try).
Abbreviation pike_part := (pike_part Backend pike_import pike_try).
Abbreviation try_decrypt_pdf :=
  (try_decrypt_pdf Backend pypdf_open pypdf_try pike_import pike_try).

Lemma loop_tried_failed pw o candidates tried res :
  failed o → loop_tried candidates tried res →
  loop_tried (pw :: candidates) ((pw, o) :: tried) res.
Proof.
  intros Ho. destruct res as [[tmp pw']|]; simpl.
  - intros (before & after & -> & -> & Hb).
    exists ((pw, o) :: before), after. split_and!; [done|done|by constructor].
  - intros [<- Hall]. split; [done|by constructor].
Qed.

Lemma loop_tried_written pw tmp candidates :
  loop_tried (pw :: candidates) [(pw, Written tmp)] (Some (tmp, pw)).
Proof. exists [], candidates. by split_and!. Qed.

Lemma pypdf_loop_spec candidates : ∀ st : St Backend,
  ∃ tried,
    attempts (pypdf_loop candidates st).2
    = attempts st ++ ((λ t, TryPyPDF2 t.1 t.2) <$> tried)
    ∧ loop_tried candidates tried (pypdf_loop candidates st).1.
Proof.
  induction candidates as [|pw rest IH]; intros st; simpl.
  - exists []. simpl. by rewrite app_nil_r.
  - destruct (pypdf_try pw (backend st)) as [o b].
    destruct o as [| |tmp].
    + destruct (IH (mkSt b (attempts st ++ [TryPyPDF2 pw Rejected]))) as (tried & Ha & Ht).
      exists ((pw, Rejected) :: tried). simpl in *. rewrite Ha, <- app_assoc.
      split; [done|]. by apply loop_tried_failed.
    + destruct (IH (mkSt b (attempts st ++ [TryPyPDF2 pw Raised]))) as (tried & Ha & Ht).
      exists ((pw, Raised) :: tried). simpl in *. rewrite Ha, <- app_assoc.
      split; [done|]. by apply loop_tried_failed.
    + exists [(pw, Written tmp)]. simpl. split; [done|]. apply loop_tried_written.
Qed.

Lemma pike_loop_spec src candidates : ∀ st : St Backend,
  ∃ tried,
    attempts (pike_loop src candidates st).2
    = attempts st ++ ((λ t, TryPikepdf t.1 t.2) <$> tried)
    ∧ loop_tried candidates tried (pike_loop src candidates st).1.
Proof.
  induction candidates as [|pw rest IH]; intros st; simpl.
  - exists []. simpl. by rewrite app_nil_r.
  - destruct (pike_try src pw (backend st)) as [o b].
    destruct o as [| |tmp].
    + destruct (IH (mkSt b (attempts st ++ [TryPikepdf pw Rejected]))) as (tried & Ha & Ht).
      exists ((pw, Rejected) :: tried). simpl in *. rewrite Ha, <- app_assoc.
      split; [done|]. by apply loop_tried_failed.
    + destruct (IH (mkSt b (attempts st ++ [TryPikepdf pw Raised]))) as (tried & Ha & Ht).
      exists ((pw, Raised) :: tried). simpl in *. rewrite Ha, <- app_assoc.
      split; [done|]. by apply loop_tried_failed.
    + exists [(pw, Written tmp)]. simpl. split; [done|]. apply loop_tried_written.
Qed.

Lemma pike_part_spec src candidates (st : St Backend) :
  ∃ evs,
    attempts (pike_part src candidates st).2 = attempts st ++ evs
    ∧ fallback src candidates evs (pike_part src candidates st).1.
Proof.
  unfold Decrypt.pike_part.
  destruct (pike_import (backend st)) as [[|] b].
  - destruct (pike_loop_spec src candidates (mkSt b (attempts st ++ [ImportPikepdf true])))
      as (tried & Ha & Ht).
    exists (ImportPikepdf true :: ((λ t, TryPikepdf t.1 t.2) <$> tried)).
    destruct (pike_loop src candidates _) as [res st2]. simpl in *.
    split.
    + destruct res as [[tmp pw]|]; simpl; by rewrite Ha, <- app_assoc.
    + exists true, tried, res. split; [done|]. split; [done|].
      by destruct res as [[??]|].
  - exists [ImportPikepdf false]. simpl. split; [done|].
    exists false, [], None. by split_and!.
Qed.


End Backends.

Example decrypt_falls_back_to_pikepdf :
  try_decrypt_pdf nat sample_open sample_pypdf sample_import sample_pike
    "downloads/advice.pdf" ["hdfc#1"; "21893044"; "beta"] (mkSt 0 [])
  = (("/tmp/tmpab12.pdf", Some "21893044"),
     mkSt 7 [ OpenPyPDF2 (Some true);
              TryPyPDF2 "hdfc#1" Rejected; TryPyPDF2 "21893044" Raised;
              TryPyPDF2 "beta" Rejected;
              ImportPikepdf true;
              TryPikepdf "hdfc#1" Raised;
              TryPikepdf "21893044" (Written "/tmp/tmpab12.pdf") ]).
Proof. reflexivity. Qed.

End DecryptFacts.

Module MailFacts.
Import Text Passwords Mail.

Lemma all_chars_lstrip f s : all_chars f s = true → all_chars f (lstrip s) = true.
Proof.
  induction s as [|c s IH]; simpl; [done|].
  intros [Hc Hs]%andb_prop. destruct (is_space c); [by apply IH|].
  simpl. by rewrite Hc, Hs.
Qed.

Lemma all_chars_rstrip f s : all_chars f s = true → all_chars f (rstrip s) = true.
Proof.
  induction s as [|c s IH]; simpl; [done|].
  intros [Hc Hs]%andb_prop. specialize (IH Hs).
  destruct (rstrip s) as [|d t].
  - destruct (is_space c); simpl; [done|]. by rewrite Hc.
  - change (all_chars f (String c (String d t)) = true).
    change (f c && all_chars f (String d t) = true). by rewrite Hc, IH.
Qed.

Lemma all_chars_strip f s : all_chars f s = true → all_chars f (strip s) = true.
Proof. intros. by apply all_chars_rstrip, all_chars_lstrip. Qed.

Lemma split_seps_no_sep s :
  Forall (λ p, all_chars (λ c, negb (is_sep c)) p = true) (split_seps s).
Proof.
  induction s as [|c s IH]; simpl.
  - by constructor.
  - destruct (is_sep c) eqn:Hc.
    + by constructor.
    + destruct (split_seps s) as [|h t].
      * constructor; [|done]. simpl. by rewrite Hc.
      * inversion IH as [|? ? Hh Ht]; subst. constructor; [|done].
        simpl. by rewrite Hc, Hh.
Qed.

Lemma elem_of_stripped_nonempty r l :
  r ∈ stripped_nonempty l ↔ r ≠ "" ∧ ∃ p, p ∈ l ∧ r = strip p.
Proof.
  unfold stripped_nonempty. rewrite list_elem_of_filter, list_elem_of_fmap.
  split; intros [? (p & ? & ?)]; split; eauto.
Qed.

Lemma block_parts_clean block : Forall clean (block_parts block).
Proof.
  apply Forall_forall. intros r Hr.
  assert (r ∈ stripped_nonempty (split_seps block)) as Hin.
  { destruct block; [by apply elem_of_nil in Hr|done]. }
  apply elem_of_stripped_nonempty in Hin as (Hne & p & Hp & ->).
  split_and!; [done|apply ShapeFacts.strip_strip|].
  apply all_chars_strip.
  pose proof (split_seps_no_sep block) as Hall.
  rewrite Forall_forall in Hall. by apply Hall.
Qed.

Lemma header_value_case hs n n' :
  lower n = lower n' → header_value hs n = header_value hs n'.
Proof. intros Hn. induction hs as [|h hs IH]; simpl; [done|]. by rewrite Hn, IH. Qed.

(** X20.  Every recipient is a non-empty address without whitespace at
    its ends and without a separator inside, whatever the [To], [Cc] and
    [Bcc] headers hold; a message without these headers has no
    recipient. *)
Theorem recipients_are_clean hs :
  Forall clean (get_recipients hs)
  ∧ (Forall (λ h, lower (hdr_name h) ∉ ["to"; "cc"; "bcc"]) hs →
     get_recipients hs = []).
Proof.
  split.
  - unfold get_recipients. simpl. rewrite app_nil_r.
    repeat (apply Forall_app; split); apply block_parts_clean.
  - intros Hnone.
    assert (∀ n, lower n ∈ ["to"; "cc"; "bcc"] → header_value hs n = "") as Hv.
    { intros n Hn. induction Hnone as [|h hs Hh _ IH]; simpl; [done|].
      destruct (String.eqb_spec (lower (hdr_name h)) (lower n)) as [Heq|]; [|done].
      rewrite Heq in Hh. done. }
    unfold get_recipients.
    rewrite !Hv by (vm_compute; set_solver). done.
Qed.

Example recipients_sample :
  get_recipients sample_headers
  = ["ops@example.com"; "treasury@example.com"; "audit@example.com"].
Proof. reflexivity. Qed.

End MailFacts.

Module HintFacts.
Import Text Passwords Mail MailFacts.

Lemma pw_char_not_space c : is_pw_char c = true → is_space c = false.
Proof. destruct c as [[] [] [] [] [] [] [] []]; vm_compute; congruence. Qed.

Lemma all_chars_take_pw s : all_chars is_pw_char (take_pw s) = true.
Proof.
  induction s as [|c s IH]; simpl; [done|].
  destruct (is_pw_char c) eqn:Hc; simpl; [|done]. by rewrite Hc.
Qed.

Lemma starts_with_take_pw s : starts_with (take_pw s) s = true.
Proof.
  induction s as [|c s IH]; simpl; [done|].
  destruct (is_pw_char c); simpl; [|done]. by rewrite Ascii.eqb_refl.
Qed.

Lemma contains_starts_with n h : starts_with n h = true → contains n h = true.
Proof. intros H. destruct h; simpl in *; by rewrite H. Qed.

Lemma contains_tail n c h : contains n h = true → contains n (String c h) = true.
Proof.
  intros H. change (starts_with n (String c h) || contains n h = true).
  rewrite H. apply orb_true_r.
Qed.

Lemma contains_drop_str n k : ∀ s,
  contains n (drop_str k s) = true → contains n s = true.
Proof.
  induction k as [|k IH]; intros s; [by destruct s|].
  destruct s as [|c s]; [done|]. simpl drop_str. intros H.
  by apply contains_tail, IH.
Qed.

Lemma stripped_no_space s :
  all_chars (λ c, negb (is_space c)) s = true → strip s = s.
Proof.
  intros Hs. unfold strip.
  assert (lstrip s = s) as ->.
  { destruct s as [|c s]; [done|]. simpl in *.
    apply andb_prop in Hs as [Hc _]. by apply negb_true_iff in Hc as ->. }
  induction s as [|c s IH]; simpl in *; [done|].
  apply andb_prop in Hs as [Hc Hs]. apply negb_true_iff in Hc.
  rewrite (IH Hs). destruct s; [by rewrite Hc|done].
Qed.

Lemma all_chars_impl (f g : ascii → bool) s :
  (∀ c, f c = true → g c = true) → all_chars f s = true → all_chars g s = true.
Proof.
  intros Hfg. induction s as [|c s IH]; simpl; [done|].
  intros [Hc Hs]%andb_prop. by rewrite (Hfg c Hc), (IH Hs).
Qed.

Lemma pw_token_stripped s : all_chars is_pw_char s = true → strip s = s.
Proof.
  intros H. apply stripped_no_space. revert H. apply all_chars_impl.
  intros c Hc. by rewrite (pw_char_not_space c Hc).
Qed.

Lemma match_hint_token s tok len : match_hint s = Some (tok, len) → token_of s tok.
Proof.
  unfold match_hint.
  set (k := if starts_with "password" (lower s) then Some 8
            else if starts_with "pwd" (lower s) then Some 3 else None).
  destruct k as [k|]; [|done].
  destruct (drop_str (count_spaces (drop_str k s)) (drop_str k s)) as [|c s3] eqn:Hd;
    [done|].
  destruct (Ascii.eqb c ":" || Ascii.eqb c "-"); [|done].
  destruct (take_pw (drop_str (count_spaces s3) s3)) as [|a t] eqn:Ht; [done|].
  intros [= <- _]. rewrite <- Ht. split_and!.
  - by rewrite Ht.
  - apply all_chars_take_pw.
  - eapply contains_drop_str, contains_drop_str. rewrite Hd.
    apply contains_tail. eapply contains_drop_str.
    apply contains_starts_with, starts_with_take_pw.
Qed.

Lemma findall_from_tokens s : ∀ skip, Forall (token_of s) (findall_from skip s).
Proof.
  induction s as [|c s IH]; intros skip; simpl; [done|].
  assert (∀ l, Forall (token_of s) l → Forall (token_of (String c s)) l) as Hup.
  { intros l Hl. eapply Forall_impl; [exact Hl|]. intros tok (? & ? & ?).
    split_and!; [done..|]. by apply contains_tail. }
  destruct skip as [|k]; [|apply Hup, IH].
  destruct (match_hint (String c s)) as [[tok len]|] eqn:Hm; [|apply Hup, IH].
  constructor; [by eapply match_hint_token|apply Hup, IH].
Qed.

Lemma body_hints_findall email_body :
  body_hints email_body = findall_from 0 email_body.
Proof.
  unfold body_hints, stripped_nonempty.
  pose proof (findall_from_tokens email_body 0) as Hall.
  induction Hall as [|tok l (Hne & Hpw & _) _ IH]; [done|].
  rewrite fmap_cons, (pw_token_stripped tok Hpw), filter_cons_True by done.
  by rewrite IH.
Qed.

Lemma match_hint_keyword s :
  is_Some (match_hint s) →
  starts_with "password" (lower s) = true ∨ starts_with "pwd" (lower s) = true.
Proof.
  unfold match_hint.
  destruct (starts_with "password" (lower s)); [by left|].
  destruct (starts_with "pwd" (lower s)); [by right|].
  by intros [? ?].
Qed.

Lemma findall_from_no_keyword s : ∀ skip,
  contains "password" (lower s) = false →
  contains "pwd" (lower s) = false →
  findall_from skip s = [].
Proof.
  induction s as [|c s IH]; intros skip H1 H2; [done|].
  change (lower (String c s)) with (String (lower_char c) (lower s)) in H1, H2.
  change (starts_with "password" (String (lower_char c) (lower s))
          || contains "password" (lower s) = false) in H1.
  change (starts_with "pwd" (String (lower_char c) (lower s))
          || contains "pwd" (lower s) = false) in H2.
  apply orb_false_elim in H1 as [S1 T1]. apply orb_false_elim in H2 as [S2 T2].
  simpl findall_from. destruct skip as [|k]; [|by apply IH].
  destruct (match_hint (String c s)) as [[tok len]|] eqn:Hm; [|by apply IH].
  destruct (match_hint_keyword (String c s)) as [K|K]; [by rewrite Hm|..];
    change (lower (String c s)) with (String (lower_char c) (lower s)) in K;
    congruence.
Qed.

(** X21.  Every password hint read from the mail body is a non-empty run
    of the password characters [A-Za-z0-9@#_-.] that occurs in the body,
    so it holds no whitespace; a body without the words [password] and
    [pwd], in any case of letters, gives no hint. *)
Theorem body_hints_are_tokens email_body :
  Forall (λ h, h ≠ "" ∧ all_chars is_pw_char h = true ∧ contains h email_body = true)
    (body_hints email_body)
  ∧ (contains "password" (lower email_body) = false →
     contains "pwd" (lower email_body) = false →
     body_hints email_body = []).
Proof.
  rewrite body_hints_findall. split.
  - apply findall_from_tokens.
  - apply findall_from_no_keyword.
Qed.

Example body_hints_sample :
  body_hints sample_body = ["21893044"; "legacy.9"].
Proof. reflexivity. Qed.

End HintFacts.

Module WindowFacts.
Import Text Window.

Example splitlines_samples :
  splitlines (String "a" (String "013" (String "010" (String "b" (String "010" "")))))
  = ["a"; "b"]
  ∧ splitlines (String "010" (String "010" "c")) = [""; ""; "c"]
  ∧ splitlines (String "013" (String "013" (String "010" ""))) = [""; ""]
  ∧ splitlines "" = [].
Proof. by vm_compute. Qed.

Example window_sample :
  extract_financial_window sample_pat sample_mail 2 200
  = String.concat newline
      [ "we have received"; "a remittance"; "Amount: USD 100";
        "for your account"; "please revert" ].
Proof. by vm_compute. Qed.

Section Hints.
Variable pat_search : string → bool.
Abbreviation scan := (scan pat_search).
Abbreviation keep_mask := (keep_mask pat_search).
Abbreviation window_lines := (window_lines pat_search).
Abbreviation extract_financial_window := (extract_financial_window pat_search).
Abbreviation near_hint := (near_hint pat_search).

Lemma mark_length lo hi keep : length (mark lo hi keep) = length keep.
Proof.
  unfold mark. generalize (seq lo (hi - lo)) as js. intros js. revert keep.
  induction js as [|j js IH]; intros keep; simpl; [done|].
  by rewrite IH, length_insert.
Qed.

Lemma mark_lookup lo hi keep j :
  mark lo hi keep !! j = Some true
  ↔ keep !! j = Some true ∨ (lo ≤ j < hi ∧ j < length keep).
Proof.
  unfold mark.
  assert (∀ js keep,
            foldl (λ k j, <[j := true]> k) keep js !! j = Some true
            ↔ keep !! j = Some true ∨ (j ∈ js ∧ j < length keep)) as Hfold.
  { clear. intros js. induction js as [|i js IH]; intros keep; simpl.
    - rewrite elem_of_nil. tauto.
    - rewrite IH, list_lookup_insert_Some, length_insert, elem_of_cons.
      split.
      + intros [[(-> & _ & ?)|[? ?]]|[? ?]]; eauto.
      + intros [Hk|[[->|?] ?]]; eauto.
        destruct (decide (i = j)) as [->|?]; [|eauto].
        apply lookup_lt_Some in Hk. eauto. }
  rewrite Hfold, elem_of_seq. intuition lia.
Qed.

Lemma scan_length ctx n todo : ∀ i keep,
  length (scan ctx n i todo keep) = length keep.
Proof.
  induction todo as [|ln todo IH]; intros i keep; simpl; [done|].
  rewrite IH. unfold scan_line. destruct (pat_search ln); [apply mark_length|done].
Qed.

Lemma scan_lookup ctx n todo j : ∀ i keep,
  scan ctx n i todo keep !! j = Some true
  ↔ keep !! j = Some true
    ∨ (j < length keep ∧ j < n
       ∧ ∃ k ln, todo !! k = Some ln ∧ pat_search ln = true
                 ∧ i + k ≤ j + ctx ∧ j ≤ i + k + ctx).
Proof.
  induction todo as [|ln todo IH]; intros i keep; simpl.
  - split; [by left|]. intros [?|(_ & _ & k & l & Hk & _)]; [done|].
    by rewrite lookup_nil in Hk.
  - rewrite IH. unfold scan_line. split.
    + intros [Hm|(Hlen & Hn & k & l & Hk & Hp & H1 & H2)].
      * destruct (pat_search ln) eqn:Hp; [|by left].
        apply mark_lookup in Hm as [?|[[? ?] ?]]; [by left|].
        right. split_and!; [done|lia|]. exists 0, ln. simpl. split_and!; [done..|lia|lia].
      * right. split_and!; [|done|].
        { destruct (pat_search ln); [by rewrite mark_length in Hlen|done]. }
        exists (S k), l. simpl. split_and!; [done..|lia|lia].
    + intros [Hk|(Hlen & Hn & [|k] & l & Hk & Hp & H1 & H2)]; simpl in Hk.
      * left. destruct (pat_search ln); [|done]. apply mark_lookup. by left.
      * injection Hk as ->. left. rewrite Hp. apply mark_lookup. right. lia.
      * right. split_and!; [|done|].
        { destruct (pat_search ln); [by rewrite mark_length|done]. }
        exists k, l. split_and!; [done..|lia|lia].
Qed.

Lemma keep_mask_length lines ctx : length (keep_mask lines ctx) = length lines.
Proof. unfold Window.keep_mask. by rewrite scan_length, length_replicate. Qed.

Lemma keep_mask_lookup lines ctx j :
  keep_mask lines ctx !! j = Some true ↔ j < length lines ∧ near_hint lines ctx j.
Proof.
  unfold Window.keep_mask. rewrite scan_lookup, length_replicate. unfold Window.near_hint.
  split.
  - intros [Hr|(? & _ & k & ln & ? & ? & ? & ?)].
    + apply lookup_replicate in Hr as [? _]. done.
    + split; [done|]. exists k, ln. split_and!; [done..|lia|lia].
  - intros (? & k & ln & ? & ? & ? & ?). right. split_and!; [done..|].
    exists k, ln. split_and!; [done..|lia|lia].
Qed.

Lemma kept_sublist lines : ∀ keep, kept lines keep `sublist_of` lines.
Proof.
  induction lines as [|l lines IH]; intros [|k keep]; simpl;
    try apply sublist_nil_l.
  destruct k; [apply sublist_skip|apply sublist_cons]; apply IH.
Qed.

Lemma elem_of_kept lines : ∀ keep ln,
  ln ∈ kept lines keep ↔ ∃ j, lines !! j = Some ln ∧ keep !! j = Some true.
Proof.
  induction lines as [|l lines IH]; intros keep ln.
  - simpl. rewrite elem_of_nil. split; [done|]. intros (j & Hj & _).
    by rewrite lookup_nil in Hj.
  - destruct keep as [|k keep].
    + simpl. rewrite elem_of_nil. split; [done|]. intros (j & _ & Hj).
      by rewrite lookup_nil in Hj.
    + simpl. destruct k.
      * rewrite elem_of_cons, IH. split.
        -- intros [->|(j & ? & ?)]; [by exists 0|by exists (S j)].
        -- intros ([|j] & H1 & H2); simpl in *; [left; congruence|right; eauto].
      * rewrite IH. split.
        -- intros (j & ? & ?). by exists (S j).
        -- intros ([|j] & H1 & H2); simpl in *; [congruence|eauto].
Qed.

Lemma kept_none lines : ∀ keep,
  (∀ j, keep !! j ≠ Some true) → kept lines keep = [].
Proof.
  induction lines as [|l lines IH]; intros [|k keep] Hk; simpl; try done.
  destruct k; [by destruct (Hk 0)|]. apply IH. intros j. apply (Hk (S j)).
Qed.

(** The lines kept are the lines at the marked positions, in the order
    of the positions. *)
Lemma kept_positions lines : ∀ keep,
  ∃ js, StronglySorted lt js
        ∧ (∀ j, j ∈ js ↔ j < length lines ∧ keep !! j = Some true)
        ∧ Some <$> kept lines keep = (λ j, lines !! j) <$> js.
Proof.
  induction lines as [|l lines IH]; intros keep.
  - exists []. split_and!; [constructor| |done].
    intros j. rewrite elem_of_nil. simpl. lia.
  - destruct keep as [|k keep].
    + exists []. split_and!; [constructor| |done].
      intros j. rewrite elem_of_nil, lookup_nil. split; [done|]. by intros [_ ?].
    + destruct (IH keep) as (js & Hs & Hj & Hk).
      assert (StronglySorted lt (S <$> js)) as Hs'.
      { clear -Hs. induction Hs as [|x xs _ IHs Hx]; csimpl; constructor; [done|].
        apply Forall_fmap. eapply Forall_impl; [exact Hx|]. simpl. lia. }
      assert (∀ j, j ∈ S <$> js ↔ ∃ j', j = S j' ∧ j' < length lines
                                        ∧ keep !! j' = Some true) as Hj'.
      { intros j. rewrite list_elem_of_fmap. split.
        - intros (j' & -> & Hin). exists j'. split; [done|]. by apply Hj.
        - intros (j' & -> & Hin). exists j'. split; [done|]. by apply Hj. }
      assert ((λ j, (l :: lines) !! j) <$> (S <$> js) = (λ j, lines !! j) <$> js) as Hl.
      { rewrite <- list_fmap_compose. done. }
      destruct k.
      * exists (0 :: (S <$> js)). split_and!.
        -- constructor; [done|]. apply Forall_fmap, Forall_forall. simpl. lia.
        -- intros j. rewrite elem_of_cons, Hj'. destruct j as [|j]; simpl.
           ++ split; [intros _; split; [lia|done]|by left].
           ++ split.
              ** intros [?|(j' & [= <-] & ? & ?)]; [done|]. split; [lia|done].
              ** intros [? ?]. right. exists j. split_and!; [done|lia|done].
        -- csimpl. by rewrite Hk, Hl.
      * exists (S <$> js). split_and!; [done| |].
        -- intros j. rewrite Hj'. destruct j as [|j]; simpl.
           ++ split; [by intros (? & ? & _)|by intros [_ ?]].
           ++ split.
              ** intros (j' & [= <-] & ? & ?). split; [lia|done].
              ** intros [? ?]. exists j. split_and!; [done|lia|done].
        -- csimpl. by rewrite Hk, Hl.
Qed.

Lemma window_positions text ctx_lines :
  ∃ js, StronglySorted lt js
        ∧ (∀ j, j ∈ js ↔ j < length (splitlines text)
                         ∧ near_hint (splitlines text) ctx_lines j)
        ∧ Some <$> window_lines text ctx_lines
          = (λ j, splitlines text !! j) <$> js.
Proof.
  unfold Window.window_lines.
  destruct (kept_positions (splitlines text) (keep_mask (splitlines text) ctx_lines))
    as (js & Hs & Hj & Hk).
  exists js. split_and!; [done| |done].
  intros j. rewrite Hj, keep_mask_lookup. tauto.
Qed.

Lemma elem_of_window_lines text ctx_lines ln :
  ln ∈ window_lines text ctx_lines
  ↔ ∃ j, splitlines text !! j = Some ln ∧ near_hint (splitlines text) ctx_lines j.
Proof.
  unfold Window.window_lines. rewrite elem_of_kept.
  split; intros (j & Hj & Hk); exists j; (split; [done|]).
  - by apply keep_mask_lookup in Hk as [_ ?].
  - apply keep_mask_lookup. split; [|done]. by eapply lookup_lt_Some.
Qed.

Lemma window_without_hints text ctx_lines max_chars :
  (∀ ln, ln ∈ splitlines text → pat_search ln = false) →
  extract_financial_window text ctx_lines max_chars = take_str max_chars text.
Proof.
  intros Hnone. unfold Window.extract_financial_window, Window.window_lines.
  rewrite kept_none; [done|].
  intros j [_ (i & ln & Hi & Hp & _)]%keep_mask_lookup.
  rewrite (Hnone ln) in Hp; [done|]. by eapply list_elem_of_lookup_2.
Qed.

(** X22.  The window sent for a disposal mail is at most [max_chars]
    long.  Its lines are the lines of the mail at exactly the positions
    that are at most [ctx_lines] away from the position of a line the
    hint pattern finds, each position once and in increasing order; so
    every hint line is among them, and a line far from every hint is
    kept only where a copy of it stands near one.  The window is these
    lines joined by line feeds, cut to [max_chars]; a mail without any
    hint line, and one whose kept lines are all empty, is sent as it is,
    cut to [max_chars]. *)
Theorem window_keeps_hints_and_context text ctx_lines max_chars :
  String.length (extract_financial_window text ctx_lines max_chars) ≤ max_chars
  ∧ (∃ js, StronglySorted lt js
           ∧ (∀ j, j ∈ js ↔ j < length (splitlines text)
                            ∧ near_hint (splitlines text) ctx_lines j)
           ∧ Some <$> window_lines text ctx_lines
             = (λ j, splitlines text !! j) <$> js)
  ∧ window_lines text ctx_lines `sublist_of` splitlines text
  ∧ (∀ ln, ln ∈ window_lines text ctx_lines
           ↔ ∃ j, splitlines text !! j = Some ln
                  ∧ near_hint (splitlines text) ctx_lines j)
  ∧ (∀ ln, ln ∈ splitlines text → pat_search ln = true →
           ln ∈ window_lines text ctx_lines)
  ∧ extract_financial_window text ctx_lines max_chars
    = take_str max_chars
        (match String.concat newline (window_lines text ctx_lines) with
         | EmptyString => text
         | joined => joined
         end)
  ∧ ((∀ ln, ln ∈ splitlines text → pat_search ln = false) →
     extract_financial_window text ctx_lines max_chars = take_str max_chars text).
Proof.
  split; [|split; [|split; [|split; [|split; [|split]]]]].
  - unfold Window.extract_financial_window.
    rewrite RetryFacts.length_take_str. lia.
  - apply window_positions.
  - apply kept_sublist.
  - apply elem_of_window_lines.
  - intros ln [j Hj]%list_elem_of_lookup Hp. apply elem_of_window_lines.
    exists j. split; [done|]. exists j, ln. split_and!; [done..|lia|lia].
  - unfold Window.extract_financial_window.
    by destruct (String.concat newline (window_lines text ctx_lines)).
  - apply window_without_hints.
Qed.

End Hints.
End WindowFacts.

Module WindowCallFacts.
Import Eff Text Retry RetryFacts RetryMoreFacts Window WindowFacts.

Section Call.
Context (Service Json : Type).
Context (create : string → Service → (string + string) * Service).
Context (loads : string → Json + string).
Context (pat_search : string → bool).

Abbreviation call_openai_financials :=
  (call_openai_financials Service Json create loads
     (extract_financial_window pat_search)).

(** X23.  Without an API key the disposal call raises before any
    request.  With a key, the input of every request is a prefix of the
    keyword window of the mail body, taken with two lines of context, and
    at most [OPENAI_MAX_CHARS] characters long; for a body without any
    hint line it is a prefix of the body itself. *)
Theorem financial_requests_come_from_window key max_chars email_body
    (env : Env Service) :
  key ≠ "" →
  call_openai_financials None max_chars email_body env
  = (inr "OPENAI_API_KEY is not set.", env)
  ∧ call_openai_financials (Some "") max_chars email_body env
    = (inr "OPENAI_API_KEY is not set.", env)
  ∧ ∃ new,
      trace (call_openai_financials (Some key) max_chars email_body env).2
      = trace env ++ new
      ∧ ∀ t, t ∈ requests new →
          starts_with t (extract_financial_window pat_search email_body 2 max_chars)
          = true
          ∧ String.length t ≤ max_chars
          ∧ ((∀ ln, ln ∈ splitlines email_body → pat_search ln = false) →
             starts_with t email_body = true).
Proof.
  intros Hkey. split_and!; [done..|].
  destruct key as [|c key]; [done|]. simpl.
  destruct (retry_loop_trace Service Json create loads "disposal financials"
              (extract_financial_window pat_search email_body 2 max_chars)
              (seq 0 attempts) env)
    as (new & Htr & Hpre & _).
  exists new. split; [exact Htr|].
  intros t Ht. apply (requests_prefix _ _ _ Hpre) in Ht.
  apply requests_script in Ht as (attempt & _ & ->).
  unfold shrunk. split_and!.
  - apply starts_with_take_str.
  - rewrite length_take_str. unfold Window.extract_financial_window.
    rewrite length_take_str. lia.
  - intros Hnone.
    rewrite (window_without_hints pat_search email_body 2 max_chars Hnone).
    rewrite take_str_take_str. apply starts_with_take_str.
Qed.

End Call.

Lemma financial_requests_come_from_window_witness :
  ∃ new,
    trace (Retry.call_openai_financials nat string flaky_service inl
             (extract_financial_window sample_pat) (Some "sk-test") 100 sample_mail
             (mkEnv 0 [])).2 = [] ++ new
    ∧ ∀ t, t ∈ requests new →
        starts_with t (extract_financial_window sample_pat sample_mail 2 100) = true
        ∧ String.length t ≤ 100
        ∧ ((∀ ln, ln ∈ splitlines sample_mail → sample_pat ln = false) →
           starts_with t sample_mail = true).
Proof.
  by apply (financial_requests_come_from_window nat string flaky_service inl
              sample_pat "sk-test" 100 sample_mail (mkEnv 0 [])).
Defined.

End WindowCallFacts.

Module SavedFacts.
Import Text Passwords Mail MailFacts Saved.

Example saved_pdfs_samples :
  saved_pdfs "" "advice_77.pdf" = "advice_77.pdf"
  ∧ saved_pdfs "advice_77.pdf" "Advice_12.pdf" = "Advice_12.pdf, advice_77.pdf"
  ∧ saved_pdfs "b.pdf, a.pdf ,b.pdf" " a.pdf" = "a.pdf, b.pdf"
  ∧ saved_pdfs "a.pdf" "x,y.pdf" = "a.pdf, x, y.pdf".
Proof. by vm_compute. Qed.

Lemma ascii_compare_refl c : Ascii.compare c c = Eq.
Proof. unfold Ascii.compare. apply N.compare_refl. Qed.

Lemma str_leb_trans a : ∀ b c,
  String.leb a b = true → String.leb b c = true → String.leb a c = true.
Proof.
  unfold String.leb.
  induction a as [|x a IH]; intros [|y b] [|z c]; simpl; try done.
  destruct (Ascii.compare x y) eqn:Exy; [| |done];
    destruct (Ascii.compare y z) eqn:Eyz; try done.
  - apply Ascii.compare_eq_iff in Exy as ->. apply Ascii.compare_eq_iff in Eyz as ->.
    rewrite ascii_compare_refl. apply IH.
  - apply Ascii.compare_eq_iff in Exy as ->. by rewrite Eyz.
  - apply Ascii.compare_eq_iff in Eyz as <-. by rewrite Exy.
  - unfold Ascii.compare in *. rewrite N.compare_lt_iff in Exy, Eyz.
    assert (N_of_ascii x < N_of_ascii z)%N as Hlt by lia.
    apply N.compare_lt_iff in Hlt. by rewrite Hlt.
Qed.

#[local] Instance str_le_trans : Transitive str_le.
Proof. intros a b c. apply str_leb_trans. Qed.

#[local] Instance str_le_total : Total str_le.
Proof. intros a b. apply String.leb_total. Qed.

#[local] Instance str_le_antisym : AntiSymm (=) str_le.
Proof. intros a b. apply String.leb_antisym. Qed.

Lemma elem_of_sorted_set l x : x ∈ sorted_set l ↔ x ∈ l.
Proof.
  unfold sorted_set. rewrite merge_sort_Permutation. unfold dedup.
  rewrite PasswordsFacts.elem_of_dedup_from, elem_of_empty. tauto.
Qed.

Lemma NoDup_sorted_set l : NoDup (sorted_set l).
Proof.
  unfold sorted_set. rewrite merge_sort_Permutation.
  apply PasswordsFacts.NoDup_dedup_from.
Qed.

Lemma sorted_sorted_set l : StronglySorted str_le (sorted_set l).
Proof. apply StronglySorted_merge_sort; apply _. Qed.

(** Sorting the distinct strings in any order gives the same list. *)
Lemma sorted_any_order l k :
  NoDup k → (∀ x, x ∈ k ↔ x ∈ l) → merge_sort str_le k = sorted_set l.
Proof.
  intros Hnd Hk. apply (StronglySorted_unique str_le).
  - apply StronglySorted_merge_sort; apply _.
  - apply sorted_sorted_set.
  - rewrite merge_sort_Permutation. unfold sorted_set.
    rewrite merge_sort_Permutation.
    apply NoDup_Permutation; [done|apply PasswordsFacts.NoDup_dedup_from|].
    intros x. rewrite Hk. unfold dedup.
    rewrite PasswordsFacts.elem_of_dedup_from, elem_of_empty. tauto.
Qed.

Lemma sorted_set_same l k :
  (∀ x, x ∈ k ↔ x ∈ l) → sorted_set k = sorted_set l.
Proof.
  intros Hk. apply sorted_any_order; [apply PasswordsFacts.NoDup_dedup_from|].
  intros x. unfold dedup.
  rewrite PasswordsFacts.elem_of_dedup_from, elem_of_empty, Hk. tauto.
Qed.

Lemma split_comma_cons c s :
  Ascii.eqb c "," = false →
  ∃ h t, split_comma s = h :: t ∧ split_comma (String c s) = String c h :: t.
Proof.
  intros Hc. simpl. rewrite Hc.
  destruct s as [|d s]; simpl; [by eexists _, _|].
  destruct (Ascii.eqb d ","); [by eexists _, _|].
  destruct (split_comma s); by eexists _, _.
Qed.

Lemma split_comma_nonnil s : split_comma s ≠ [].
Proof.
  destruct s as [|c s]; simpl; [done|].
  destruct (Ascii.eqb c ","); [done|]. by destruct (split_comma s).
Qed.

Lemma split_comma_app a b :
  split_comma (a +:+ "," +:+ b) = split_comma a ++ split_comma b.
Proof.
  induction a as [|c a IH]; [done|].
  change (String c a +:+ "," +:+ b) with (String c (a +:+ "," +:+ b)).
  simpl. rewrite IH. destruct (Ascii.eqb c ","); [done|].
  destruct (split_comma a) eqn:Ha; [by apply split_comma_nonnil in Ha|done].
Qed.

Lemma split_comma_no_comma x :
  all_chars (λ c, negb (Ascii.eqb c ",")) x = true → split_comma x = [x].
Proof.
  induction x as [|c x IH]; simpl; [done|].
  intros [Hc Hx]%andb_prop. apply negb_true_iff in Hc. by rewrite Hc, (IH Hx).
Qed.

Lemma entries_app a b : entries (a +:+ "," +:+ b) = entries a ++ entries b.
Proof.
  unfold entries, stripped_nonempty.
  by rewrite split_comma_app, fmap_app, filter_app.
Qed.

Lemma entries_empty : entries "" = [].
Proof. done. Qed.

Lemma entries_space s : entries (String " " s) = entries s.
Proof.
  unfold entries, stripped_nonempty.
  destruct (split_comma_cons " " s) as (h & t & -> & ->); [done|].
  by rewrite !fmap_cons.
Qed.

Lemma entries_entry x : entry x → entries x = [x].
Proof.
  intros (Hne & Hs & Hc). unfold entries, stripped_nonempty.
  rewrite split_comma_no_comma by done. simpl. rewrite Hs.
  by rewrite filter_cons_True, filter_nil by done.
Qed.

Lemma entries_concat l : Forall entry l → entries (String.concat ", " l) = l.
Proof.
  induction 1 as [|x l Hx Hl IH]; [done|].
  destruct l as [|y l].
  - by apply entries_entry.
  - change (String.concat ", " (x :: y :: l))
      with (x +:+ "," +:+ String " " (String.concat ", " (y :: l))).
    by rewrite entries_app, entries_space, IH, entries_entry.
Qed.

Lemma split_comma_pieces s :
  Forall (λ p, all_chars (λ c, negb (Ascii.eqb c ",")) p = true) (split_comma s).
Proof.
  induction s as [|c s IH]; simpl.
  - by constructor.
  - destruct (Ascii.eqb c ",") eqn:Hc.
    + by constructor.
    + destruct (split_comma s) as [|h t].
      * constructor; [|done]. simpl. by rewrite Hc.
      * inversion IH as [|? ? Hh Ht]; subst. constructor; [|done].
        simpl. by rewrite Hc, Hh.
Qed.

Lemma entries_are_entries s : Forall entry (entries s).
Proof.
  apply Forall_forall. intros r (Hne & p & Hp & ->)%elem_of_stripped_nonempty.
  split_and!; [done|apply ShapeFacts.strip_strip|].
  apply all_chars_strip.
  pose proof (split_comma_pieces s) as Hall.
  rewrite Forall_forall in Hall. by apply Hall.
Qed.

Lemma sorted_set_entries l : Forall entry l → Forall entry (sorted_set l).
Proof.
  rewrite !Forall_forall. intros Hl x Hx. by apply Hl, elem_of_sorted_set.
Qed.

Lemma joined_entries prev base :
  entries (prev +:+ (match prev with EmptyString => "" | _ => "," end) +:+ base)
  = entries prev ++ entries base.
Proof. destruct prev; [done|]. apply entries_app. Qed.

(** X24.  The [SavedPDFs] cell lists file names separated by a comma and
    a space.  After a PDF is handled it lists the names the cell held
    before and the new name, each once, in ascending order, every name
    without surrounding whitespace; handling the same PDF again leaves
    the cell as it is.  The value does not depend on the order in which
    the set of names is iterated. *)
Theorem saved_pdfs_is_sorted_history prev base :
  entries (saved_pdfs prev base) = sorted_set (entries prev ++ entries base)
  ∧ (∀ p, p ∈ entries (saved_pdfs prev base) ↔ p ∈ entries prev ∨ p ∈ entries base)
  ∧ StronglySorted str_le (entries (saved_pdfs prev base))
  ∧ NoDup (entries (saved_pdfs prev base))
  ∧ Forall entry (entries (saved_pdfs prev base))
  ∧ saved_pdfs (saved_pdfs prev base) base = saved_pdfs prev base
  ∧ (∀ k, NoDup k → (∀ p, p ∈ k ↔ p ∈ entries prev ∨ p ∈ entries base) →
          String.concat ", " (merge_sort str_le k) = saved_pdfs prev base).
Proof.
  assert (entries (saved_pdfs prev base) = sorted_set (entries prev ++ entries base))
    as Hround.
  { unfold saved_pdfs. rewrite joined_entries. apply entries_concat.
    apply sorted_set_entries, Forall_app. split; apply entries_are_entries. }
  rewrite Hround. split_and!.
  - done.
  - intros p. by rewrite elem_of_sorted_set, elem_of_app.
  - apply sorted_sorted_set.
  - apply NoDup_sorted_set.
  - apply sorted_set_entries, Forall_app. split; apply entries_are_entries.
  - unfold saved_pdfs at 1. rewrite joined_entries, Hround.
    unfold saved_pdfs. rewrite joined_entries. f_equal.
    apply sorted_set_same. intros x.
    rewrite !elem_of_app, elem_of_sorted_set, elem_of_app. tauto.
  - intros k Hnd Hk. unfold saved_pdfs. rewrite joined_entries. f_equal.
    apply sorted_any_order; [done|]. intros x. by rewrite Hk, elem_of_app.
Qed.

End SavedFacts.

Module PartsFacts.
Import Text Rules Parts.

Example list_attachments_sample :
  list_attachments forwarded_payload
  = [ mkAttachment "att-1" "Advice_77.PDF" "application/pdf";
      mkAttachment "att-0" "fwd.eml" "message/rfc822" ]
  ∧ pdfs (list_attachments forwarded_payload)
    = [ mkAttachment "att-1" "Advice_77.PDF" "application/pdf" ].
Proof. by vm_compute. Qed.

Lemma Part_rect_parts (P : Part → Prop) :
  (∀ fn mime aid parts, Forall P parts → P (mkPart fn mime aid parts)) →
  ∀ p, P p.
Proof.
  intros H. fix IH 1. intros [fn mime aid parts]. apply H.
  induction parts as [|q parts IHparts]; constructor; [apply IH|exact IHparts].
Qed.

Lemma elem_of_own_attachment a p :
  a ∈ own_attachment p
  ↔ (∃ fn mime aid parts, p = mkPart fn mime aid parts ∧ fn ≠ "" ∧ aid ≠ ""
                          ∧ a = mkAttachment aid fn mime).
Proof.
  destruct p as [fn mime aid parts]. simpl. split.
  - destruct fn as [|c fn]; [by intros ?%elem_of_nil|].
    destruct aid as [|d aid]; [by intros ?%elem_of_nil|].
    intros ->%list_elem_of_singleton. by eexists _, _, _, _.
  - intros (fn' & mime' & aid' & parts' & [= -> -> -> ->] & Hfn & Haid & ->).
    destruct fn' as [|c fn]; [done|]. destruct aid' as [|d aid]; [done|]. by left.
Qed.

Lemma elem_of_flat_map {A B} (f : A → list B) (l : list A) (x : B) :
  x ∈ flat_map f l ↔ ∃ y, y ∈ l ∧ x ∈ f y.
Proof.
  rewrite list_elem_of_In, in_flat_map.
  split; intros (y & ? & ?); exists y; by rewrite ?list_elem_of_In in *.
Qed.

Lemma elem_of_walk_part a : ∀ p,
  a ∈ walk_part p ↔ a ∈ own_attachment p ∨ ∃ q, below q p ∧ a ∈ own_attachment q.
Proof.
  apply (Part_rect_parts (λ p, a ∈ walk_part p
           ↔ a ∈ own_attachment p ∨ ∃ q, below q p ∧ a ∈ own_attachment q)).
  intros fn mime aid parts IH. rewrite Forall_forall in IH.
  change (walk_part (mkPart fn mime aid parts))
    with (flat_map walk_part parts ++ own_attachment (mkPart fn mime aid parts)).
  rewrite elem_of_app, elem_of_flat_map. split.
  - intros [(q & Hq & Ha)|?]; [|by left].
    right. apply (IH q Hq) in Ha as [Ha|(r & Hr & Ha)].
    + exists q. split; [|done]. by apply below_child.
    + exists r. split; [|done]. by eapply below_deeper.
  - intros [?|(q & Hq & Ha)]; [by right|]. left.
    remember (mkPart fn mime aid parts) as p eqn:Hp.
    revert Hp. induction Hq as [q p Hq|q r p Hqr IHq Hr]; intros ->; simpl in *.
    + exists q. split; [done|]. apply (IH q Hq). by left.
    + exists r. split; [done|]. apply (IH r Hr). right. by exists q.
Qed.

Lemma elem_of_list_attachments payload a :
  a ∈ list_attachments payload
  ↔ ∃ fn mime aid parts,
      below (mkPart fn mime aid parts) payload ∧ fn ≠ "" ∧ aid ≠ ""
      ∧ a = mkAttachment aid fn mime.
Proof.
  assert (a ∈ list_attachments payload
          ↔ ∃ q, below q payload ∧ a ∈ own_attachment q) as ->.
  { unfold list_attachments, walk. rewrite elem_of_flat_map. split.
    - intros (p & Hp & [Ha|(q & Hq & Ha)]%elem_of_walk_part).
      + exists p. split; [by apply below_child|done].
      + exists q. split; [by eapply below_deeper|done].
    - intros (q & Hq & Ha). induction Hq as [q p Hq|q r p Hqr IHq Hr].
      + exists q. split; [done|]. apply elem_of_walk_part. by left.
      + exists r. split; [done|]. apply elem_of_walk_part. right. by exists q. }
  split.
  - intros (q & Hq & (fn & mime & aid & parts & -> & ? & ? & ->)%elem_of_own_attachment).
    by exists fn, mime, aid, parts.
  - intros (fn & mime & aid & parts & Hq & ? & ? & ->). eexists. split; [exact Hq|].
    apply elem_of_own_attachment. by eexists _, _, _, _.
Qed.

(** X25.  [list_attachments] finds the attachments of the parts below the
    payload at any depth: an attachment is listed exactly when some part
    below the payload has a file name and an attachment id, and it carries
    that part's id, name and type.  Every listed attachment has a name and
    an id; the payload's own name is not looked at. *)
Theorem list_attachments_finds_nested payload :
  (∀ a, a ∈ list_attachments payload
        ↔ ∃ fn mime aid parts,
            below (mkPart fn mime aid parts) payload ∧ fn ≠ "" ∧ aid ≠ ""
            ∧ a = mkAttachment aid fn mime)
  ∧ Forall (λ a, filename a ≠ "" ∧ att_id a ≠ "") (list_attachments payload)
  ∧ (parts_of payload = [] → list_attachments payload = []).
Proof.
  split_and!.
  - apply elem_of_list_attachments.
  - apply Forall_forall.
    by intros a (fn & mime & aid & parts & _ & ? & ? & ->)%elem_of_list_attachments.
  - unfold list_attachments. by intros ->.
Qed.

Lemma ext_pdf_iff ctx :
  attachment_ext_is ctx ["pdf"] false = true
  ↔ ∃ a, a ∈ Attachments ctx ∧ ends_with ".pdf" (lower (filename a)) = true.
Proof.
  unfold attachment_ext_is. simpl. rewrite orb_false_r.
  induction (Attachments ctx) as [|a atts IH]; simpl.
  - split; [done|]. by intros (a & ?%elem_of_nil & _).
  - rewrite orb_true_iff, IH. split.
    + intros [?|(b & ? & ?)]; [exists a|exists b]; (split; [|done]); by constructor.
    + intros (b & [->|?]%elem_of_cons & ?); [by left|right; by exists b].
Qed.

Lemma pdfs_nonempty_iff atts :
  pdfs atts ≠ [] ↔ ∃ a, a ∈ atts ∧ ends_with ".pdf" (lower (filename a)) = true.
Proof.
  split.
  - intros Hne. destruct (pdfs atts) as [|a l] eqn:Hp; [done|].
    assert (a ∈ pdfs atts) as Hin by (rewrite Hp; by left).
    rewrite <- Hp in Hne. unfold pdfs in Hin.
    apply list_elem_of_filter in Hin as [? ?]. by exists a.
  - intros (a & Ha & Hpdf) Hnil.
    assert (a ∈ pdfs atts) as Hin by (by apply list_elem_of_filter).
    rewrite Hnil in Hin. by apply elem_of_nil in Hin.
Qed.

(** X26.  The rule's PDF test and the handler's PDF filter agree with
    each other and with the message: on the attachments of a payload,
    [attachment_ext_is(ctx, ["pdf"])] holds, and the FIRC handler finds a
    PDF to work on, exactly when some part below the payload, at any
    depth, has an attachment id and a name ending in [.pdf] in any case of
    letters; the extension may be given as [.PDF] as well. *)
Theorem pdf_part_reaches_handler payload ctx :
  Attachments ctx = list_attachments payload →
  (attachment_ext_is ctx ["pdf"] false = true ↔ has_pdf_part payload)
  ∧ (pdfs (Attachments ctx) ≠ [] ↔ has_pdf_part payload)
  ∧ attachment_ext_is ctx [".PDF"] false = attachment_ext_is ctx ["pdf"] false.
Proof.
  intros Hatts.
  assert ((∃ a, a ∈ Attachments ctx ∧ ends_with ".pdf" (lower (filename a)) = true)
          ↔ has_pdf_part payload) as Hpart.
  { rewrite Hatts. unfold has_pdf_part. split.
    - intros (a & (fn & mime & aid & parts & ? & ? & ? & ->)%elem_of_list_attachments
                & Hpdf).
      by exists fn, mime, aid, parts.
    - intros (fn & mime & aid & parts & Hb & Haid & Hpdf).
      exists (mkAttachment aid fn mime). split; [|done].
      apply elem_of_list_attachments. exists fn, mime, aid, parts.
      split_and!; [done| |done..]. by intros ->. }
  split_and!.
  - by rewrite ext_pdf_iff.
  - by rewrite pdfs_nonempty_iff.
  - done.
Qed.

Lemma pdf_part_reaches_handler_witness :
  (attachment_ext_is forwarded_ctx ["pdf"] false = true ↔ has_pdf_part forwarded_payload)
  ∧ (pdfs (Attachments forwarded_ctx) ≠ [] ↔ has_pdf_part forwarded_payload)
  ∧ attachment_ext_is forwarded_ctx [".PDF"] false
    = attachment_ext_is forwarded_ctx ["pdf"] false.
Proof. apply (pdf_part_reaches_handler forwarded_payload forwarded_ctx). reflexivity. Defined.

End PartsFacts.

Module HandlersFacts.
Import Eff Text Rules Store Sheet Passwords Saved Parts Handlers.

Section Firc.
Context (World : Type).
Context (drive_setup : World → (string + string) * World).
Context (read_df : World → (DataFrame + string) * World).
Context (write_df : DataFrame → World → (unit + string) * World).
Context (download_attachment :
           string → string → string → World → (string + string) * World).
Context (is_pdf_encrypted : string → World → bool * World).
Context (try_decrypt_pdf :
           string → list string → World → (string * option string) * World).
Context (read_pdf_text : string → World → (string + string) * World).
Context (call_openai_firc : string → World → (Reply + string) * World).
Context (upload_pdf_to_drive :
           string → string → World → (string * string + string) * World).
Context (basename : string → string).
Context (environ : gmap string string).
Context (passwords_json : option PasswordFile).

Abbreviation Env := (Env World).
Abbreviation run_spec := (@run_spec World).
Abbreviation handle_pdf :=
  (handle_pdf World download_attachment is_pdf_encrypted try_decrypt_pdf
     read_pdf_text call_openai_firc upload_pdf_to_drive basename environ
     passwords_json).
Abbreviation pdf_loop :=
  (pdf_loop World download_attachment is_pdf_encrypted try_decrypt_pdf
     read_pdf_text call_openai_firc upload_pdf_to_drive basename environ
     passwords_json).
Abbreviation handle_body :=
  (handle_body World drive_setup read_df write_df download_attachment
     is_pdf_encrypted try_decrypt_pdf read_pdf_text call_openai_firc
     upload_pdf_to_drive basename environ passwords_json).
Abbreviation handle :=
  (handle World drive_setup read_df write_df download_attachment
     is_pdf_encrypted try_decrypt_pdf read_pdf_text call_openai_firc
     upload_pdf_to_drive basename environ passwords_json).

Lemma run_ret {A} (P : Event → Prop) (Q : A → Prop) a :
  Q a → run_spec P Q (ret a).
Proof. intros HQ env. exists []. simpl. by rewrite app_nil_r. Qed.

Lemma run_bind {A B} (P : Event → Prop) (Q : A → Prop) (R : B → Prop)
    (m : M Env A) (k : A → M Env B) :
  run_spec P Q m → (∀ a, Q a → run_spec P R (k a)) → run_spec P R (bind m k).
Proof.
  intros Hm Hk env. unfold bind.
  destruct (Hm env) as (new1 & Ht1 & HP1 & HQ).
  destruct (m env) as [[a|e] env1]; simpl in *.
  - destruct (Hk a HQ env1) as (new2 & Ht2 & HP2 & HR).
    exists (new1 ++ new2). rewrite Ht2, Ht1, app_assoc.
    split_and!; [done|by apply Forall_app|done].
  - by exists new1.
Qed.

Lemma run_try {A} (P : Event → Prop) (Q : A → Prop)
    (body : M Env A) (handler : string → M Env A) :
  run_spec P Q body → (∀ e, run_spec P Q (handler e)) →
  run_spec P Q (try_except body handler).
Proof.
  intros Hb Hh env. unfold try_except.
  destruct (Hb env) as (new1 & Ht1 & HP1 & HQ).
  destruct (body env) as [[a|e] env1]; simpl in *.
  - by exists new1.
  - destruct (Hh e env1) as (new2 & Ht2 & HP2 & HR).
    exists (new1 ++ new2). rewrite Ht2, Ht1, app_assoc.
    split_and!; [done|by apply Forall_app|done].
Qed.

Lemma trace_app (j1 j2 : list Entry) : omap did (j1 ++ j2) = omap did j1 ++ omap did j2.
Proof. apply omap_app. Qed.

Lemma run_emit (P : Event → Prop) (Q : unit → Prop) e :
  P e → Q tt → run_spec P Q (emit World e).
Proof.
  intros He HQ env. exists [e]. unfold trace. simpl. rewrite trace_app.
  split_and!; [done|by constructor|done].
Qed.

Lemma run_call {A} (P : Event → Prop) (Q : A → Prop) (f : World → A * World) :
  (∀ w, Q (f w).1) → run_spec P Q (call World f).
Proof.
  intros HQ env. exists []. unfold call, trace. specialize (HQ (world env)).
  destruct (f (world env)) as [a w]. simpl in *. by rewrite app_nil_r.
Qed.

Lemma run_call_raising {A} (P : Event → Prop) (Q : A → Prop) (s : Step)
    (f : World → (A + string) * World) :
  (∀ w a, (f w).1 = inl a → Q a) → run_spec P Q (call_raising World s f).
Proof.
  intros HQ env. exists []. unfold call_raising, trace. specialize (HQ (world env)).
  destruct (f (world env)) as [[a|e] w]; simpl in *;
    rewrite ?trace_app; simpl; rewrite !app_nil_r; split_and!; try done. by apply HQ.
Qed.

Lemma run_weaken {A} (P P' : Event → Prop) (Q Q' : A → Prop) (m : M Env A) :
  (∀ e, P e → P' e) → (∀ a, Q a → Q' a) → run_spec P Q m → run_spec P' Q' m.
Proof.
  intros HP HQ Hm env. destruct (Hm env) as (new & Ht & HPn & HQn).
  exists new. split_and!; [done|by eapply Forall_impl|].
  destruct (m env).1; [by apply HQ|done].
Qed.

Abbreviation readable := (readable World is_pdf_encrypted try_decrypt_pdf).
Abbreviation referenced := (referenced World call_openai_firc).
Abbreviation step_event := (step_event World is_pdf_encrypted try_decrypt_pdf).

Lemma run_bind_any {A B} (P : Event → Prop) (R : B → Prop)
    (m : M Env A) (k : A → M Env B) :
  run_spec P (λ _, True) m → (∀ a, run_spec P R (k a)) → run_spec P R (bind m k).
Proof. intros Hm Hk. eapply run_bind; [exact Hm|]. intros a _. apply Hk. Qed.

Lemma run_upload (Q : string * string → Prop) drive local_path :
  (∀ up, Q up) →
  run_spec step_event Q (upload World upload_pdf_to_drive drive local_path).
Proof.
  intros HQ. unfold upload. destruct drive as [folder_id|]; [|by apply run_ret].
  apply run_try; [|intros; by apply run_ret].
  apply run_bind_any; [by apply run_emit|]. intros _. by apply run_call_raising.
Qed.

Lemma run_decrypt cands local_path :
  run_spec step_event (λ dec, dec.2 ≠ None → readable)
    (decrypt World is_pdf_encrypted try_decrypt_pdf cands local_path).
Proof.
  unfold decrypt. apply run_bind_any; [by apply run_call|].
  intros [|]; [|by apply run_ret].
  destruct cands as [|c cands]; [by apply run_ret|].
  apply run_bind_any; [by apply run_emit|]. intros _.
  eapply run_bind with (Q := λ r, ∃ w, r = (try_decrypt_pdf local_path (c :: cands) w).1).
  { apply run_call. intros w. by exists w. }
  intros r [w ->]. case_decide as Hr; apply run_ret; [|done].
  intros _. right. by exists local_path, (c :: cands), w.
Qed.

Lemma run_read_text local_path dec_used :
  (dec_used ≠ None → readable) →
  run_spec step_event (λ txt, txt.1 = true → readable)
    (read_text World is_pdf_encrypted read_pdf_text local_path dec_used).
Proof.
  intros Hdec. unfold read_text.
  eapply run_bind with (Q := λ enc, enc = false → readable).
  { apply run_call. intros w Hw. left. by exists local_path, w. }
  intros enc Henc.
  destruct (enc && bool_decide (dec_used = None)) eqn:Hc; [by apply run_ret|].
  assert readable as Hr.
  { apply andb_false_iff in Hc as [->|Hd]; [by apply Henc|].
    apply Hdec. by apply bool_decide_eq_false in Hd. }
  apply run_try; [|intros; by apply run_ret].
  apply run_bind_any; [by apply run_emit|]. intros _.
  apply run_bind_any; [by apply run_call_raising|]. intros t. by apply run_ret.
Qed.

Lemma run_extract can_extract pdf_text :
  (can_extract = true → readable) →
  run_spec step_event
    (λ fields, fields = ∅
               ∨ readable ∧ ∃ w reply, (call_openai_firc pdf_text w).1 = inl reply
                                       ∧ fields = relevant_fields reply)
    (extract World call_openai_firc can_extract pdf_text).
Proof.
  intros Hcan. unfold extract.
  destruct (can_extract && negb (pdf_text =? "")%string) eqn:Hc;
    [|apply run_ret; by left].
  apply andb_true_iff in Hc as [-> _]. specialize (Hcan eq_refl).
  apply run_bind_any; [by apply run_emit|]. intros _.
  eapply run_bind with (Q := λ r, ∃ w, (call_openai_firc pdf_text w).1 = inl r).
  { apply run_call_raising. intros w a Ha. by exists w. }
  intros r [w Hw]. apply run_ret. right. split; [done|]. by exists w, r.
Qed.

Lemma no_reference_in_empty : strip (ref_of ∅ "InwardReference") = "".
Proof. done. Qed.

Lemma run_handle_pdf msg direct_pw drive a st :
  run_spec step_event
    (λ st', st' = st ∨ updated_any st' = true ∧ referenced ∧ readable)
    (handle_pdf msg direct_pw drive a st).
Proof.
  unfold Handlers.handle_pdf.
  apply run_bind_any; [by apply run_emit|]. intros _.
  apply run_bind_any; [by apply run_call_raising|]. intros local_path.
  eapply run_bind; [apply run_decrypt|]. intros dec Hdec.
  eapply run_bind; [by apply run_read_text|]. intros txt Htxt.
  eapply run_bind; [by apply run_extract|]. intros fields Hfields.
  destruct (strip (ref_of fields "InwardReference")) as [|c ref] eqn:Href.
  - apply run_bind_any; [by apply run_upload|]. intros _. apply run_ret. by left.
  - apply run_bind_any; [by apply run_upload|]. intros up. apply run_ret. right.
    destruct Hfields as [->|[Hr (w & reply & Hw & ->)]];
      [by rewrite no_reference_in_empty in Href|].
    split_and!; [done| |done].
    exists txt.2, w, reply. split_and!; [done| |by rewrite Href].
    destruct (IsRelevant reply) eqn:Hrel; [done|].
    unfold relevant_fields in Href. rewrite Hrel in Href.
    by rewrite no_reference_in_empty in Href.
Qed.

Lemma run_pdf_loop msg direct_pw drive todo : ∀ st,
  run_spec step_event
    (λ st', st' = st ∨ updated_any st' = true ∧ referenced ∧ readable)
    (pdf_loop msg direct_pw drive todo st).
Proof.
  induction todo as [|a todo IH]; intros st; simpl.
  - apply run_ret. by left.
  - eapply run_bind; [apply run_handle_pdf|].
    intros st1 [->|Hst1]; [apply IH|].
    eapply run_weaken; [done| |apply IH].
    intros st2 [->|?]; by right.
Qed.

Lemma shape_bind {A} (Q : A → Prop) (T : list Event → Prop)
    (m : M Env A) (k : A → M Env unit) :
  run_spec step_event Q m →
  (∀ a env, Q a → ∃ pre rest, trace (k a env).2 = trace env ++ pre ++ rest
                              ∧ Forall step_event pre ∧ T rest) →
  T [] →
  ∀ env, ∃ pre rest, trace (bind m k env).2 = trace env ++ pre ++ rest
                     ∧ Forall step_event pre ∧ T rest.
Proof.
  intros Hm Hk Hnil env. unfold bind.
  destruct (Hm env) as (new1 & Ht1 & HP1 & HQ).
  destruct (m env) as [[a|e] env1]; simpl in *.
  - destruct (Hk a env1 HQ) as (pre & rest & Ht2 & HP2 & HT).
    exists (new1 ++ pre), rest. rewrite Ht2, Ht1, <- !app_assoc.
    split_and!; [done|by apply Forall_app|done].
  - exists new1, []. rewrite app_nil_r. done.
Qed.

Lemma handle_body_run msg ctx env :
  ∃ pre rest,
    trace (handle_body msg ctx env).2 = trace env ++ pre ++ rest
    ∧ Forall step_event pre
    ∧ (rest = [] ∨ ∃ df, rest = [WriteSheet df] ∧ referenced ∧ readable).
Proof.
  unfold Handlers.handle_body.
  destruct (pdfs (Runner.attachments msg)) as [|a todo].
  { exists [], []. simpl. rewrite app_nil_r. split_and!; [done|done|by left]. }
  revert env. eapply shape_bind with (Q := λ _, True); [| |by left].
  { unfold setup_drive. apply run_try; [|intros; by apply run_ret].
    apply run_bind_any; [by apply run_call_raising|]. intros f. by apply run_ret. }
  intros drive env _. revert env.
  eapply shape_bind with (Q := λ _, True); [by apply run_call_raising| |by left].
  intros df0 env _. revert env.
  eapply shape_bind; [apply run_pdf_loop| |by left].
  intros st env Hst. unfold write_back.
  destruct (updated_any st) eqn:Hup.
  - destruct Hst as [->|(_ & ? & ?)]; [done|].
    exists [], [WriteSheet (df st)]. split_and!; [|done|right; by exists (df st)].
    unfold bind, emit, modify, call_raising, trace. simpl.
    destruct (write_df (df st) (world env)) as [[[]|e] w]; simpl;
      rewrite !trace_app; simpl; by rewrite ?app_nil_r.
  - exists [], []. simpl. rewrite app_nil_r. split_and!; [done|done|by left].
Qed.

Lemma handle_run msg ctx env :
  (handle msg ctx env).1 = inl tt
  ∧ ∃ pre rest,
      trace (handle msg ctx env).2 = trace env ++ pre ++ rest
      ∧ Forall step_event pre
      ∧ (rest = [] ∨ (∃ e, rest = [LogError e])
         ∨ (∃ df, (rest = [WriteSheet df] ∨ ∃ e, rest = [WriteSheet df; LogError e])
                  ∧ referenced ∧ readable)).
Proof.
  unfold Handlers.handle, try_except.
  destruct (handle_body_run msg ctx env) as (pre & rest & Ht & Hpre & Hrest).
  destruct (handle_body msg ctx env) as [[[]|e] env1]; simpl in *.
  - split; [done|]. exists pre, rest. split_and!; [done..|].
    destruct Hrest as [->|(d & -> & ?)]; [by left|]. right. right. exists d. eauto.
  - split; [done|]. exists pre, (rest ++ [LogError e]).
    unfold trace in *. simpl. rewrite trace_app, Ht, <- !app_assoc.
    split_and!; [done..|].
    destruct Hrest as [->|(d & -> & ?)]; [right; left; by exists e|].
    right. right. exists d. split; [|done]. right. by exists e.
Qed.

Abbreviation journal_spec := (@journal_spec World).
Abbreviation caught_spec := (@caught_spec World).

Lemma caught_ret {A} (a : A) : caught_spec (ret a).
Proof. intros env. exists []. simpl. by rewrite app_nil_r. Qed.

Lemma caught_emit e : quiet (Did e) → caught_spec (emit World e).
Proof. intros He env. exists [Did e]. split; [done|by constructor]. Qed.

Lemma caught_call_raising {A} (s : Step) (f : World → (A + string) * World) :
  ¬ escapes s → caught_spec (call_raising World s f).
Proof.
  intros Hs env. unfold call_raising.
  destruct (f (world env)) as [[a|e] w]; simpl.
  - exists []. by rewrite app_nil_r.
  - exists [Raised s e]. split; [done|by constructor].
Qed.

Lemma caught_bind {A B} (m : M Env A) (k : A → M Env B) :
  caught_spec m → (∀ a, caught_spec (k a)) → caught_spec (bind m k).
Proof.
  intros Hm Hk env. unfold bind.
  destruct (Hm env) as (new1 & Hj1 & Hq1).
  destruct (m env) as [[a|e] env1]; simpl in *; [|by exists new1].
  destruct (Hk a env1) as (new2 & Hj2 & Hq2).
  exists (new1 ++ new2). rewrite Hj2, Hj1, app_assoc. split; [done|by apply Forall_app].
Qed.

Lemma journal_ret {A} (a : A) : journal_spec (ret a).
Proof. intros env. exists []. simpl. by rewrite app_nil_r. Qed.

Lemma journal_emit e : quiet (Did e) → journal_spec (emit World e).
Proof. intros He env. exists [Did e]. split; [done|by constructor]. Qed.

Lemma journal_call {A} (f : World → A * World) : journal_spec (call World f).
Proof.
  intros env. exists []. unfold call.
  destruct (f (world env)) as [a w]. simpl. by rewrite app_nil_r.
Qed.

Lemma journal_call_raising {A} (s : Step) (f : World → (A + string) * World) :
  escapes s → s ≠ WriteStep → journal_spec (call_raising World s f).
Proof.
  intros Hs Hw env. unfold call_raising.
  destruct (f (world env)) as [[a|e] w]; simpl.
  - exists []. by rewrite app_nil_r.
  - exists [Raised s e]. split; [done|]. by exists [], s.
Qed.

Lemma journal_bind {A B} (m : M Env A) (k : A → M Env B) :
  journal_spec m → (∀ a, journal_spec (k a)) → journal_spec (bind m k).
Proof.
  intros Hm Hk env. unfold bind.
  destruct (Hm env) as (new1 & Hj1 & Hr1).
  destruct (m env) as [[a|e] env1]; simpl in *; [|by exists new1].
  destruct (Hk a env1) as (new2 & Hj2 & Hr2).
  exists (new1 ++ new2). rewrite Hj2, Hj1, app_assoc. split; [done|].
  destruct (k a env1).1 as [b|e].
  - by apply Forall_app.
  - destruct Hr2 as (pre & s & -> & Hpre & Hs & Hw).
    exists (new1 ++ pre), s. rewrite app_assoc. split_and!; [done| |done..].
    by apply Forall_app.
Qed.

(** [try: body except Exception: handler], where the handler returns. *)
Lemma journal_try {A} (body : M Env A) (handler : string → M Env A) :
  caught_spec body → (∀ e, (∀ env, ∃ a, (handler e env).1 = inl a) ∧ caught_spec (handler e)) →
  journal_spec (try_except body handler).
Proof.
  intros Hb Hh env. unfold try_except.
  destruct (Hb env) as (new1 & Hj1 & Hq1).
  destruct (body env) as [[a|e] env1]; simpl in *; [by exists new1|].
  destruct (Hh e) as [Hret Hc]. destruct (Hc env1) as (new2 & Hj2 & Hq2).
  exists (new1 ++ new2). rewrite Hj2, Hj1, app_assoc. split; [done|].
  destruct (Hret env1) as [a ->]. by apply Forall_app.
Qed.

Lemma journal_setup_drive : journal_spec (setup_drive World drive_setup).
Proof.
  unfold setup_drive. apply journal_try.
  - apply caught_bind; [apply caught_call_raising; tauto|]. intros f. apply caught_ret.
  - intros e. split; [intros env; by exists None|apply caught_ret].
Qed.

Lemma journal_upload drive local_path :
  journal_spec (upload World upload_pdf_to_drive drive local_path).
Proof.
  unfold upload. destruct drive as [folder_id|]; [|apply journal_ret].
  apply journal_try.
  - apply caught_bind; [by apply caught_emit|]. intros _.
    apply caught_call_raising. tauto.
  - intros e. split; [intros env; by exists ("", "")|apply caught_ret].
Qed.

Lemma journal_decrypt cands local_path :
  journal_spec (decrypt World is_pdf_encrypted try_decrypt_pdf cands local_path).
Proof.
  unfold decrypt. apply journal_bind; [apply journal_call|].
  intros [|]; [|apply journal_ret].
  destruct cands as [|c cands]; [apply journal_ret|].
  apply journal_bind; [by apply journal_emit|]. intros _.
  apply journal_bind; [apply journal_call|]. intros r.
  case_decide; apply journal_ret.
Qed.

Lemma journal_read_text local_path dec_used :
  journal_spec (read_text World is_pdf_encrypted read_pdf_text local_path dec_used).
Proof.
  unfold read_text. apply journal_bind; [apply journal_call|]. intros enc.
  destruct (enc && bool_decide (dec_used = None)); [apply journal_ret|].
  apply journal_try.
  - apply caught_bind; [by apply caught_emit|]. intros _.
    apply caught_bind; [apply caught_call_raising; tauto|]. intros t. apply caught_ret.
  - intros e. split; [intros env; by exists (false, "")|apply caught_ret].
Qed.

Lemma journal_extract can_extract pdf_text :
  journal_spec (extract World call_openai_firc can_extract pdf_text).
Proof.
  unfold extract.
  destruct (can_extract && negb (pdf_text =? "")%string); [|apply journal_ret].
  apply journal_bind; [by apply journal_emit|]. intros _.
  apply journal_bind; [by apply journal_call_raising|]. intros r. apply journal_ret.
Qed.

Lemma journal_handle_pdf msg direct_pw drive a st :
  journal_spec (handle_pdf msg direct_pw drive a st).
Proof.
  unfold Handlers.handle_pdf.
  apply journal_bind; [by apply journal_emit|]. intros _.
  apply journal_bind; [by apply journal_call_raising|]. intros local_path.
  apply journal_bind; [apply journal_decrypt|]. intros dec.
  apply journal_bind; [apply journal_read_text|]. intros txt.
  apply journal_bind; [apply journal_extract|]. intros fields.
  destruct (strip (ref_of fields "InwardReference")).
  - apply journal_bind; [apply journal_upload|]. intros _. apply journal_ret.
  - apply journal_bind; [apply journal_upload|]. intros up. apply journal_ret.
Qed.

Lemma journal_pdf_loop msg direct_pw drive todo : ∀ st,
  journal_spec (pdf_loop msg direct_pw drive todo st).
Proof.
  induction todo as [|a todo IH]; intros st; simpl.
  - apply journal_ret.
  - apply journal_bind; [apply journal_handle_pdf|]. intros st1. apply IH.
Qed.

Lemma journal_write_back st (env : Env) :
  ∃ rest,
    journal (write_back World write_df st env).2 = journal env ++ rest
    ∧ body_end (write_back World write_df st env).1 rest.
Proof.
  unfold write_back. destruct (updated_any st).
  - unfold bind, emit, modify, call_raising. simpl.
    destruct (write_df (df st) (world env)) as [[[]|e] w]; simpl.
    + exists [Did (WriteSheet (df st))]. split; [done|]. right. by exists (df st).
    + exists [Did (WriteSheet (df st)); Raised WriteStep e].
      rewrite <- app_assoc. split; [done|]. right. by exists (df st).
  - exists []. simpl. rewrite app_nil_r. split; [done|by left].
Qed.

Lemma body_end_bind {A} (m : M Env A) (k : A → M Env unit) :
  journal_spec m →
  (∀ a env, ∃ pre rest, journal (k a env).2 = journal env ++ pre ++ rest
                        ∧ Forall quiet pre ∧ body_end (k a env).1 rest) →
  ∀ env, ∃ pre rest, journal (bind m k env).2 = journal env ++ pre ++ rest
                     ∧ Forall quiet pre ∧ body_end (bind m k env).1 rest.
Proof.
  intros Hm Hk env. unfold bind.
  destruct (Hm env) as (new1 & Hj1 & Hr1).
  destruct (m env) as [[a|e] env1]; simpl in *.
  - destruct (Hk a env1) as (pre & rest & Hj2 & Hq2 & Hend).
    exists (new1 ++ pre), rest. rewrite Hj2, Hj1, <- !app_assoc.
    split_and!; [done|by apply Forall_app|done].
  - destruct Hr1 as (pre & s & -> & Hpre & Hs & Hw).
    exists pre, [Raised s e]. split_and!; [done|done|]. left. by exists s.
Qed.

Lemma handle_body_journal msg ctx env :
  ∃ pre rest,
    journal (handle_body msg ctx env).2 = journal env ++ pre ++ rest
    ∧ Forall quiet pre
    ∧ body_end (handle_body msg ctx env).1 rest.
Proof.
  unfold Handlers.handle_body.
  destruct (pdfs (Runner.attachments msg)) as [|a todo].
  { exists [], []. simpl. rewrite app_nil_r. split_and!; [done|done|by left]. }
  revert env. apply body_end_bind; [apply journal_setup_drive|].
  intros drive. apply body_end_bind; [by apply journal_call_raising|].
  intros df0. apply body_end_bind; [apply journal_pdf_loop|].
  intros st env. destruct (journal_write_back st env) as (rest & Hj & Hend).
  by exists [], rest.
Qed.


(** X28.  A PDF that stays encrypted is not read: when every PDF is
    reported as encrypted and no candidate password changes the path to
    go on with, the handler reads no PDF text, asks the model nothing and
    does not write the sheet; it only downloads, tries the candidates and
    uploads, and logs the exception that ended it, if any. *)
Theorem undecrypted_pdfs_are_not_read msg ctx (env : Env) :
  (∀ p w, (is_pdf_encrypted p w).1 = true) →
  (∀ p cands w, (try_decrypt_pdf p cands w).1.1 = p) →
  ∃ new,
    trace (handle msg ctx env).2 = trace env ++ new
    ∧ Forall (λ e, untouched e ∨ is_log_error e) new.
Proof.
  intros Henc Hdec.
  assert (¬ readable) as Hno.
  { intros [(p & w & Hw)|(p & c & w & Hw)]; [by rewrite Henc in Hw|by apply Hw]. }
  destruct (handle_run msg ctx env) as (_ & pre & rest & Ht & Hpre & Hrest).
  exists (pre ++ rest). split; [done|]. apply Forall_app. split.
  - eapply Forall_impl; [exact Hpre|]. intros [] He; simpl in *; tauto.
  - destruct Hrest as [->|[[e ->]|(d & _ & _ & ?)]]; [done| |done].
    constructor; [by right|done].
Qed.

(** X29.  The sheet is written only for a reference: a run of the
    handler writes the sheet only when the model is able to return, for
    some PDF text and in some state of the world, a reply that is
    relevant and whose [InwardReference] is not blank, and when some PDF
    can be opened.  With a model that never returns such a reply the
    handler never writes the sheet. *)
Theorem sheet_written_only_with_reference msg ctx (env : Env) df :
  WriteSheet df ∈ trace (handle msg ctx env).2 →
  WriteSheet df ∈ trace env ∨ (referenced ∧ readable).
Proof.
  destruct (handle_run msg ctx env) as (_ & pre & rest & -> & Hpre & Hrest).
  rewrite !elem_of_app. intros [?|[Hin|Hin]]; [by left| |].
  - rewrite Forall_forall in Hpre. by destruct (Hpre _ Hin).
  - destruct Hrest as [->|[[e ->]|(d & _ & ?)]]; [|  |by right].
    + by apply elem_of_nil in Hin.
    + by apply list_elem_of_singleton in Hin.
Qed.

End Firc.
Lemma undecrypted_pdfs_are_not_read_witness :
  ∃ new,
    trace (handle nat ok_drive ok_read_df ok_write_df ok_download always_encrypted
             no_decrypt ok_read_text ok_model ok_upload sample_basename
             sample_env (Some sample_file) advice_msg advice_ctx (mkEnv 0 [])).2
    = [] ++ new
    ∧ Forall (λ e, untouched e ∨ is_log_error e) new.
Proof.
  by apply (undecrypted_pdfs_are_not_read nat ok_drive ok_read_df ok_write_df
              ok_download always_encrypted no_decrypt ok_read_text ok_model ok_upload
              sample_basename sample_env (Some sample_file) advice_msg advice_ctx
              (mkEnv 0 [])).
Defined.

Example firc_handle_sample :
  trace (handle nat ok_drive ok_read_df ok_write_df ok_download never_encrypted
           no_decrypt ok_read_text ok_model ok_upload sample_basename
           ∅ None advice_msg advice_ctx (mkEnv 0 [])).2
  = [ Download "att-1" "Advice_77.PDF"; ReadText "downloads/Advice_77.PDF";
      AskModel "FIRC advice INW1"; Upload "downloads/Advice_77.PDF";
      WriteSheet
        (upsert_by_inward empty_df
           (firc_updates (relevant_fields sample_firc_reply) "INW1" "Advice_77.PDF"
              "file-1" "https://drive.example/file-1" "FIRC advice"
              "advice@bank.example" "Tue, 14 Nov 2023")) ].
Proof. by vm_compute. Qed.

Example firc_handle_model_failure :
  journal (handle nat ok_drive ok_read_df ok_write_df ok_download never_encrypted
             no_decrypt ok_read_text model_once ok_upload sample_basename
             ∅ None two_advices_msg advice_ctx (mkEnv 0 [])).2
  = [ Did (Download "att-1" "Advice_77.PDF");
      Did (ReadText "downloads/Advice_77.PDF");
      Did (AskModel "FIRC advice INW1"); Did (Upload "downloads/Advice_77.PDF");
      Did (Download "att-2" "Advice_78.pdf");
      Did (ReadText "downloads/Advice_78.pdf");
      Did (AskModel "FIRC advice INW1");
      Raised ModelStep "insufficient_quota"; Did (LogError "insufficient_quota") ].
Proof. by vm_compute. Qed.

Example firc_handle_write_failure :
  journal (handle nat no_drive ok_read_df locked_write_df ok_download never_encrypted
             no_decrypt ok_read_text ok_model ok_upload sample_basename
             ∅ None advice_msg advice_ctx (mkEnv 0 [])).2
  = [ Raised DriveSetup "credentials.json not found";
      Did (Download "att-1" "Advice_77.PDF");
      Did (ReadText "downloads/Advice_77.PDF"); Did (AskModel "FIRC advice INW1");
      Did (WriteSheet
             (upsert_by_inward empty_df
                (firc_updates (relevant_fields sample_firc_reply) "INW1"
                   "Advice_77.PDF" "" "" "FIRC advice"
                   "advice@bank.example" "Tue, 14 Nov 2023")));
      Raised WriteStep "Permission denied: remittance.xlsx";
      Did (LogError "Permission denied: remittance.xlsx") ].
Proof. by vm_compute. Qed.

Lemma sheet_written_only_with_reference_witness :
  referenced nat ok_model ∧ readable nat never_encrypted no_decrypt.
Proof.
  destruct (sheet_written_only_with_reference nat ok_drive ok_read_df ok_write_df
              ok_download never_encrypted no_decrypt ok_read_text ok_model ok_upload
              sample_basename ∅ None advice_msg advice_ctx (mkEnv 0 [])
              (upsert_by_inward empty_df
                 (firc_updates (relevant_fields sample_firc_reply) "INW1" "Advice_77.PDF"
                    "file-1" "https://drive.example/file-1" "FIRC advice"
                    "advice@bank.example" "Tue, 14 Nov 2023")))
    as [Hin|Hgood].
  - apply list_elem_of_In. vm_compute. do 4 right. by left.
  - by apply elem_of_nil in Hin.
  - exact Hgood.
Defined.

End HandlersFacts.

Module TidyFacts.
Import Text Tidy.

Example tidy_sample :
  tidy untidy_text
  = String.concat (String "010" "") [ "Dear Sir,"; " Amount : USD 100" ].
Proof. by vm_compute. Qed.

Lemma squeezed_squeeze cls r s : ∀ b,
  cls r = true → squeezed cls r b (squeeze cls r b s) = true.
Proof.
  induction s as [|c s IH]; intros b Hr; simpl; [done|].
  destruct (cls c) eqn:Hc.
  - destruct b; [by apply IH|]. simpl. by rewrite Hr, Ascii.eqb_refl, IH.
  - simpl. by rewrite Hc, IH.
Qed.

Lemma squeeze_squeezed cls r s : ∀ b,
  squeezed cls r b s = true → squeeze cls r b s = s.
Proof.
  induction s as [|c s IH]; intros b; simpl; [done|].
  destruct (cls c).
  - intros [[Hc Hb%negb_true_iff]%andb_prop Hs]%andb_prop. subst b.
    apply Ascii.eqb_eq in Hc as ->. by rewrite (IH true Hs).
  - intros Hs. by rewrite (IH false Hs).
Qed.

Lemma squeezed_weaken cls r s :
  squeezed cls r true s = true → squeezed cls r false s = true.
Proof.
  destruct s as [|c s]; simpl; [done|]. destruct (cls c); [|done].
  by rewrite andb_false_r.
Qed.

(** Squeezing another class keeps a text squeezed: a run of the other
    class leaves one character between what it separated. *)
Lemma squeezed_squeeze_other cls r cls' r' s : ∀ b b',
  (∀ c, cls' c = true → cls c = false) → cls r' = false →
  b && b' = false →
  squeezed cls r b s = true → squeezed cls r b (squeeze cls' r' b' s) = true.
Proof.
  induction s as [|c s IH]; intros b b' Hdisj Hr' Hbb; simpl; [done|].
  destruct (cls' c) eqn:Hc'.
  - rewrite (Hdisj c Hc'). intros Hs. destruct b'.
    + rewrite andb_true_r in Hbb. subst b. by apply IH.
    + simpl. rewrite Hr'. by apply IH.
  - simpl. destruct (cls c).
    + intros [Hcb Hs]%andb_prop. rewrite Hcb. simpl. by apply IH.
    + intros Hs. by apply IH.
Qed.

Lemma squeezed_lstrip cls r s :
  squeezed cls r false s = true → squeezed cls r false (lstrip s) = true.
Proof.
  induction s as [|c s IH]; simpl; [done|].
  destruct (is_space c); [|done].
  destruct (cls c).
  - intros [_ Hs]%andb_prop. by apply IH, squeezed_weaken.
  - apply IH.
Qed.

Lemma squeezed_rstrip cls r s : ∀ b,
  squeezed cls r b s = true → squeezed cls r b (rstrip s) = true.
Proof.
  induction s as [|c s IH]; intros b; simpl; [done|].
  intros Hs.
  assert (squeezed cls r (cls c) (rstrip s) = true) as Hrest.
  { apply IH. destruct (cls c); [|done]. by apply andb_prop in Hs as [_ ?]. }
  destruct (rstrip s) as [|d t].
  - destruct (is_space c); [done|]. simpl.
    destruct (cls c); [|done]. apply andb_prop in Hs as [-> _]. done.
  - change (squeezed cls r b (String c (String d t)) = true).
    change ((if cls c then Ascii.eqb c r && negb b && squeezed cls r true (String d t)
             else squeezed cls r false (String d t)) = true).
    destruct (cls c); [|done]. apply andb_prop in Hs as [-> _]. done.
Qed.

Lemma squeezed_strip cls r s :
  squeezed cls r false s = true → squeezed cls r false (strip s) = true.
Proof. intros. by apply squeezed_rstrip, squeezed_lstrip. Qed.

(** X30.  Tidied text has no tab and no two adjacent spaces, no two
    adjacent line feeds and no whitespace at either end; tidying it again
    changes nothing. *)
Theorem tidy_normal_form text :
  squeezed is_blank " " false (tidy text) = true
  ∧ squeezed is_lf "010" false (tidy text) = true
  ∧ strip (tidy text) = tidy text
  ∧ tidy (tidy text) = tidy text.
Proof.
  assert (squeezed is_blank " " false (tidy text) = true) as Hb.
  { apply squeezed_strip, squeezed_squeeze_other; try done.
    - intros c Hc%Ascii.eqb_eq. by subst c.
    - by apply squeezed_squeeze. }
  assert (squeezed is_lf "010" false (tidy text) = true) as Hl.
  { by apply squeezed_strip, squeezed_squeeze. }
  assert (strip (tidy text) = tidy text) as Hs by apply ShapeFacts.strip_strip.
  split_and!; [done..|].
  unfold tidy at 1. by rewrite (squeeze_squeezed _ _ _ _ Hb), (squeeze_squeezed _ _ _ _ Hl).
Qed.

End TidyFacts.
